(** * deriva-groups: the TTL-aware key-value store and its two backends

    A shallow embedding of
      - [deriva/web/groups/api/storage/backends/sqlite.py]     ([SQLiteBackend])
      - [deriva/web/groups/api/storage/backends/postgresql.py] ([PostgreSQLBackend])
    and the properties of the storage contract that hold of them.

    Conventions of the embedding:
      - Python floats (timestamps, [time.time()]) are exact rationals [Q]:
        they are compared as the code compares them, [int(x)] is truncation
        toward zero, and the conversion of an int that is too large for a
        float raises [OverflowError]. The rounding of a sum or difference to
        the nearest double is not modelled; a property that states a computed
        number is stated for clock readings at which double arithmetic is
        exact ([ticks]). A REAL or float8 column gives back the float that
        was stored.
      - A Python [str] is a [string] whose characters are code points below 256;
        [bytes] is [list byte].
      - The table [deriva_groups] has [key] as PRIMARY KEY, so it is a finite
        map from keys to rows. It is the table of the database that the path
        or the DSN names: it outlives connections and every connection sees
        it. The private database that each SQLite connection gets for the
        path [":memory:"], and which is lost with the connection, is outside
        this model: the properties that read what an earlier connection may
        have written are stated for a database file ([SQLiteInv.on_file]).
      - Every method runs against a world that holds the table, the clock and
        the set of open connection handles; a method either returns a value or
        raises.
      - One call runs at one reading of the clock; between two calls the
        clock is moved by [at_time]. Calls from several threads are taken one
        whole call after the other.
      - The rows a SELECT yields are the rows of the table when it runs; the
        order in which it yields them is the engine's choice ([Engine]).
      - [fnmatch.fnmatch], [sqlite3] and [psycopg2] are not part of the
        repository: the matcher is a parameter ([Fnmatch]), and of the two
        drivers the embedding keeps what the backends meet (a closed
        connection refuses statements and the cursors made on it, [close] is
        accepted twice, psycopg2 refuses a [str] parameter with a NUL
        character, the pool hands out, takes back and closes connections). *)

From Stdlib Require Import QArith Qround Lqa.
From Stdlib.Strings Require Import Byte Ascii String.
From stdpp Require Import base gmap strings list fin_maps.

Local Open Scope Z_scope.

(** ** Python values *)

Abbreviation bytes := (list Byte.byte).

(** [Union[str, bytes]], the type of the [value] argument of [set] and [setex]. *)
Inductive pyvalue :=
  | VStr (s : string)
  | VBytes (b : bytes).

(** UTF-8 encoding of one code point below 256. *)
Definition utf8_of_ascii (c : ascii) : bytes :=
  let n := N_of_ascii c in
  if (n <? 128)%N then [byte_of_ascii c]
  else match Byte.of_N (192 + N.shiftr n 6), Byte.of_N (128 + N.land n 63) with
       | Some hi, Some lo => [hi; lo]
       | _, _ => []
       end.

(** [str.encode()] *)
Fixpoint encode (s : string) : bytes :=
  match s with
  | EmptyString => []
  | String c s' => utf8_of_ascii c ++ encode s'
  end.

(** [value if isinstance(value, (bytes, bytearray)) else value.encode()] *)
Definition blob_of (value : pyvalue) : bytes :=
  match value with
  | VBytes b => b
  | VStr s => encode s
  end.

(** [int(x)] on a float: truncation toward zero. *)
Definition int_of_float (x : Q) : Z := Z.quot (Qnum x) (Zpos (Qden x)).

(** [float(n)] for the implicit conversion in [time.time() + ttl], where it
    succeeds. *)
Definition float_of_int (n : Z) : Q := inject_Z n.

(** The first int that does not convert: Python rounds an int to the nearest
    double, ties to even, and refuses when the result is beyond the largest
    finite double [2^1024 - 2^971]; that is so from the middle between it and
    [2^1024] on. *)
Definition float_limit : Z := 2 ^ 1024 - 2 ^ 970.

(** Whether [float(n)] raises [OverflowError]. *)
Definition float_overflows (n : Z) : bool := float_limit <=? Z.abs n.
Arguments float_overflows : simpl never.

(** A clock reading of [a] ticks of [2^-22] seconds. Every double from [2^30]
    up to [2^31], which is what [time.time()] returns from 2004 to 2038, is
    such a reading, and sums and differences of readings and whole seconds
    below [2^31] are exact in double arithmetic. *)
Definition ticks (a : Z) : Q := a # 4194304.

(** Whether a [str] is free of NUL characters. *)
Definition no_nul (s : string) : bool :=
  forallb (λ c, negb (Ascii.eqb c zero)) (list_ascii_of_string s).

(** ** The table *)

(** One row of [deriva_groups], without its key. [expires_at] is the nullable
    REAL / float8 column. *)
Record row := Row {
  value : bytes;
  expires_at : option Q;
}.

Abbreviation table := (gmap string row).


(** The test [expires_at is not None and now >= expires_at] that [get] and
    [keys] apply to a fetched row. *)
Definition expired (now : Q) (expires_at : option Q) : bool :=
  match expires_at with
  | Some e => Qle_bool e now
  | None => false
  end.

(** The statements both backends send, as functions from the table to the
    result set and the new table. SQLite spells the upsert
    [INSERT OR REPLACE], PostgreSQL [INSERT ... ON CONFLICT (key) DO UPDATE];
    on a table whose only constraint is the primary key they coincide. *)
Module SQL.

(** [INSERT OR REPLACE INTO deriva_groups (key, value, expires_at) VALUES (?, ?, ?)] *)
Definition session_set (key : string) (blob : bytes) (e : option Q)
    (t : table) : unit * table :=
  (tt, <[key := Row blob e]> t).

(** [SELECT value, expires_at FROM deriva_groups WHERE key = ?], then [fetchone()] *)
Definition session_get (key : string) (t : table) : option (bytes * option Q) * table :=
  ((λ r, (value r, expires_at r)) <$> t !! key, t).

(** [SELECT expires_at FROM deriva_groups WHERE key = ?], then [fetchone()] *)
Definition session_get_expires (key : string) (t : table) : option (option Q) * table :=
  (expires_at <$> t !! key, t).

(** [DELETE FROM deriva_groups WHERE key = ?] *)
Definition session_delete (key : string) (t : table) : unit * table :=
  (tt, delete key t).

(** A statement that leaves the table as it is: [PRAGMA journal_mode=WAL],
    [CREATE TABLE IF NOT EXISTS], [PREPARE], [COMMIT] of statements that
    were applied as they ran. *)
Definition noop (t : table) : unit * table := (tt, t).

End SQL.

(** [SELECT key, expires_at FROM deriva_groups] has no ORDER BY: the engine
    returns the rows in an order of its own choosing. *)
Class Engine := {
  scan_order : table → list (string * row);
  scan_order_perm : ∀ t, scan_order t ≡ₚ map_to_list t;
}.

(** [SELECT key, expires_at FROM deriva_groups], all rows fetched. *)
Definition session_list `{Engine} (t : table) : list (string * option Q) * table :=
  ((λ kr, (kr.1, expires_at kr.2)) <$> scan_order t, t).

(** The engine that enumerates in the order of the map's own listing. *)
Definition listing_engine : Engine :=
  {| scan_order := map_to_list; scan_order_perm := λ t, reflexivity (map_to_list t) |}.

(** An engine that enumerates in the opposite order. *)
Definition reversed_engine : Engine :=
  {| scan_order := λ t, reverse (map_to_list t);
     scan_order_perm := λ t, reverse_Permutation (map_to_list t) |}.

(** ** The world and the method monad *)

Inductive exn :=
  | AttributeError     (* attribute access on [None]; [del] of a missing attribute *)
  | ProgrammingError   (* sqlite3: operation on a closed connection *)
  | InterfaceError     (* psycopg2: operation on a closed connection *)
  | PoolError          (* psycopg2.pool: pool closed or exhausted *)
  | ValueError         (* psycopg2: a string parameter with a NUL character *)
  | OverflowError.     (* int too large to convert to float *)

Inductive outcome (A : Type) :=
  | Return (a : A)
  | Raise (e : exn).
Arguments Return {A} a.
Arguments Raise {A} e.

(** What lies outside the backend object. *)
Record world := World {
  db : table;          (* the rows of [deriva_groups] *)
  clock : Q;           (* what [time.time()] reads *)
  live : gset nat;     (* handles of the connections that are open *)
  fresh : nat;         (* handle the next connection gets *)
}.

(** A method of a backend object of type [B]. *)
Definition M (B A : Type) : Type := B * world → outcome A * (B * world).

Definition ret {B A} (a : A) : M B A := λ s, (Return a, s).

Definition raise {B A} (e : exn) : M B A := λ s, (Raise e, s).

Definition bind {B A C} (m : M B A) (k : A → M B C) : M B C :=
  λ s, match m s with
       | (Return a, s') => k a s'
       | (Raise e, s') => (Raise e, s')
       end.

Notation "'let!' x ':=' m 'in' k" := (bind m (λ x, k))
  (at level 10, x name, m at level 100, k at level 200,
   format "'[v' 'let!'  x  ':='  m  'in' '/' k ']'").
Notation "m ';;' k" := (bind m (λ _, k))
  (at level 100, k at level 200, right associativity).

(** [try: m / except Exception: pass] *)
Definition try_pass {B} (m : M B unit) : M B unit :=
  λ s, match m s with
       | (Return _, s') => (Return tt, s')
       | (Raise _, s') => (Return tt, s')
       end.

(** Reading and writing the fields of [self]. *)
Definition self_get {B A} (f : B → A) : M B A := λ s, (Return (f s.1), s).
Definition self_set {B} (f : B → B) : M B unit := λ s, (Return tt, (f s.1, s.2)).

(** [time.time()] *)
Definition time_time {B} : M B Q := λ s, (Return (clock s.2), s).

(** Opening a connection ([sqlite3.connect], the pool's [_connect]): a handle
    that was never handed out before, on the database of the world. For the
    path [":memory:"] sqlite3 gives the connection a database of its own;
    that case is outside this model, and the properties that read what
    another connection wrote assume [SQLiteInv.on_file]. *)
Definition open_connection {B} : M B nat :=
  λ s, let w := s.2 in
       (Return (fresh w),
        (s.1, World (db w) (clock w) ({[fresh w]} ∪ live w) (S (fresh w)))).

(** [conn.close()], which both drivers accept on a closed connection too. *)
Definition conn_close {B} (conn : nat) : M B unit :=
  λ s, let w := s.2 in
       (Return tt, (s.1, World (db w) (clock w) (live w ∖ {[conn]}) (fresh w))).

(** [conn.execute(stmt)] (with [fetchone()] or the iteration folded into
    [stmt]): the driver refuses a closed connection with [closed_error]. *)
Definition conn_execute {B A} (closed_error : exn) (conn : nat)
    (stmt : table → A * table) : M B A :=
  λ s, let w := s.2 in
       if decide (conn ∈ live w) then
         let (a, t) := stmt (db w) in
         (Return a, (s.1, World t (clock w) (live w) (fresh w)))
       else (Raise closed_error, s).

(** [x > y] on floats *)
Definition Qgt_bool (x y : Q) : bool := negb (Qle_bool x y).

(** [x + n] for a float [x] and an int [n]: [n] is converted to a float
    first. *)
Definition float_add_int {B} (x : Q) (n : Z) : M B Q :=
  if float_overflows n then raise OverflowError
  else ret (x + float_of_int n)%Q.

(** [fnmatch.fnmatch(name, pattern)] of the Python standard library. *)
Class Fnmatch := fnmatch : string → string → bool.

(** ** sqlite.py *)

Module SQLite.

(** The attributes of a [SQLiteBackend]. [self.local] is a
    [threading.local()]: its attributes [conn] and [last_used] exist once per
    thread, so each is a map from the thread's identifier. *)
Record SQLiteBackend := Self {
  db_path : string;
  idle_timeout : Q;
  local_conn : gmap nat nat;
  local_last_used : gmap nat Q;
}.

Abbreviation state := (SQLiteBackend * world)%type.

Definition set_local_conn (tid : nat) (conn : nat) (self : SQLiteBackend) :=
  Self (db_path self) (idle_timeout self)
       (<[tid := conn]> (local_conn self)) (local_last_used self).

Definition set_local_last_used (tid : nat) (ts : Q) (self : SQLiteBackend) :=
  Self (db_path self) (idle_timeout self)
       (local_conn self) (<[tid := ts]> (local_last_used self)).

(** [del self.local.conn] *)
Definition del_local_conn (tid : nat) : M SQLiteBackend unit :=
  let! conn := self_get (λ self, local_conn self !! tid) in
  match conn with
  | None => raise AttributeError
  | Some _ =>
      self_set (λ self, Self (db_path self) (idle_timeout self)
                             (delete tid (local_conn self)) (local_last_used self))
  end.

(** [del self.local.last_used] *)
Definition del_local_last_used (tid : nat) : M SQLiteBackend unit :=
  let! ts := self_get (λ self, local_last_used self !! tid) in
  match ts with
  | None => raise AttributeError
  | Some _ =>
      self_set (λ self, Self (db_path self) (idle_timeout self)
                             (local_conn self) (delete tid (local_last_used self)))
  end.

Definition execute {A} := @conn_execute SQLiteBackend A ProgrammingError.
Definition commit (conn : nat) := execute conn SQL.noop.

(** [_get_conn], called from thread [tid] *)
Definition _get_conn (tid : nat) : M SQLiteBackend nat :=
  let! now := time_time in
  let! conn := self_get (λ self, local_conn self !! tid) in
  let! ts := self_get (λ self, default 0%Q (local_last_used self !! tid)) in
  let! idle := self_get idle_timeout in
  let! conn :=
    match conn with
    | Some c =>
        if Qgt_bool (now - ts) idle
        then try_pass (conn_close c) ;; ret None
        else ret (Some c)
    | None => ret None
    end in
  let! conn :=
    match conn with
    | None =>
        let! c := open_connection in
        execute c SQL.noop ;;        (* PRAGMA journal_mode=WAL *)
        execute c SQL.noop ;;        (* CREATE TABLE IF NOT EXISTS deriva_groups *)
        commit c ;;
        self_set (set_local_conn tid c) ;;
        ret c
    | Some c => ret c
    end in
  self_set (set_local_last_used tid now) ;;
  ret conn.

(** [close] *)
Definition close (tid : nat) : M SQLiteBackend unit :=
  let! conn := self_get (λ self, local_conn self !! tid) in
  match conn with
  | Some c =>
      conn_close c ;;
      del_local_conn tid ;;
      del_local_last_used tid
  | None => ret tt
  end.

(** [setex] *)
Definition setex (tid : nat) (key : string) (value : pyvalue) (ttl : Z)
    : M SQLiteBackend unit :=
  let! now := time_time in
  let! expires_at := float_add_int now ttl in
  let blob := blob_of value in
  let! conn := _get_conn tid in
  execute conn (SQL.session_set key blob (Some expires_at)) ;;
  commit conn.

(** [delete] *)
Definition delete (tid : nat) (key : string) : M SQLiteBackend unit :=
  let! conn := _get_conn tid in
  execute conn (SQL.session_delete key) ;;
  commit conn.

(** [get] *)
Definition get (tid : nat) (key : string) : M SQLiteBackend (option bytes) :=
  let! conn := _get_conn tid in
  let! row := execute conn (SQL.session_get key) in
  match row with
  | None => ret None
  | Some (value, expires_at) =>
      let! now := time_time in
      if expired now expires_at
      then delete tid key ;; ret None
      else ret (Some value)
  end.

(** [next(cur)] for the cursor [cur] of [conn], which the [for] statement
    calls before every round of its loop and once more to find the end: the
    driver refuses when the connection of the cursor was closed. *)
Definition cursor_next (conn : nat) : M SQLiteBackend unit :=
  execute conn SQL.noop.

(** The loop [for key, expires_at in cur] of [keys], where [cur] is a cursor
    of [conn] with [rows] still to come. The rows are the ones the SELECT
    produced; deleting the row just read does not change the rows still to
    come. The [delete] in the body calls [_get_conn], which may close
    [conn]. *)
Fixpoint keys_loop `{Fnmatch} (tid : nat) (conn : nat) (pattern : string)
    (now : Q) (rows : list (string * option Q)) (result : list string)
    : M SQLiteBackend (list string) :=
  cursor_next conn ;;
  match rows with
  | [] => ret result
  | (key, expires_at) :: rows' =>
      if expired now expires_at
      then delete tid key ;; keys_loop tid conn pattern now rows' result
      else if fnmatch key pattern
           then keys_loop tid conn pattern now rows' (result ++ [key])
           else keys_loop tid conn pattern now rows' result
  end.

(** [keys] *)
Definition keys `{Engine} `{Fnmatch} (tid : nat) (pattern : string)
    : M SQLiteBackend (list string) :=
  let! conn := _get_conn tid in
  let! cur := execute conn session_list in
  let! now := time_time in
  keys_loop tid conn pattern now cur [].

(** [scan_iter] is a generator: calling it runs nothing, and consuming it
    runs [keys] and yields its elements one by one. [scan_iter] is the
    generator consumed to its end. *)
Definition scan_iter `{Engine} `{Fnmatch} (tid : nat) (pattern : string)
    : M SQLiteBackend (list string) :=
  keys tid pattern.

(** [exists] *)
Definition exists_ (tid : nat) (key : string) : M SQLiteBackend bool :=
  let! v := get tid key in
  ret (bool_decide (v ≠ None)).

(** [ttl] *)
Definition ttl (tid : nat) (key : string) : M SQLiteBackend Z :=
  let! conn := _get_conn tid in
  let! row := execute conn (SQL.session_get_expires key) in
  match row with
  | None => ret (-2)
  | Some None => ret (-1)
  | Some (Some expires_at) =>
      let! now := time_time in
      let remaining := int_of_float (expires_at - now) in
      ret (if 0 <=? remaining then remaining else -2)
  end.

(** [set] *)
Definition set (tid : nat) (key : string) (value : pyvalue)
    : M SQLiteBackend unit :=
  let blob := blob_of value in
  let! conn := _get_conn tid in
  execute conn (SQL.session_set key blob None) ;;
  commit conn.

End SQLite.

(** ** postgresql.py *)

Module PostgreSQL.

(** [psycopg2.pool.ThreadedConnectionPool], as far as the backend uses it:
    [pooled] is its list [_pool] of idle connections, most recently returned
    first, [used] the connections of its dictionary [_used]. *)
Record pool := Pool {
  minconn : nat;
  maxconn : nat;
  pooled : list nat;
  used : list nat;
  closed : bool;
}.

(** The attributes of a [PostgreSQLBackend]. *)
Record PostgreSQLBackend := Self {
  dsn : string;
  pool_attr : option pool;
  idle_timeout : Q;
}.

Abbreviation state := (PostgreSQLBackend * world)%type.

Definition execute {B A} := @conn_execute B A InterfaceError.
Definition commit {B} (conn : nat) := @execute B unit conn SQL.noop.

(** [connection.__init__], the pool's connection factory *)
Definition connection {B} : M B nat :=
  let! c := open_connection in
  execute c SQL.noop ;;       (* _idempotent_ddl *)
  execute c SQL.noop ;;       (* _prepare_stmts *)
  commit c ;;
  ret c.

(** [conn.closed] *)
Definition conn_closed {B} (conn : nat) : M B bool :=
  λ s, (Return (bool_decide (conn ∉ live s.2)), s).

(** [ThreadedConnectionPool.__init__]: [minconn] connections are made at once. *)
Fixpoint pool_connect {B} (n : nat) (acc : list nat) : M B (list nat) :=
  match n with
  | O => ret acc
  | S n' => let! c := connection in pool_connect n' (c :: acc)
  end.

Definition ThreadedConnectionPool {B} (minc maxc : nat) : M B pool :=
  let! conns := pool_connect minc [] in
  ret (Pool minc maxc conns [] false).

(** [pool.getconn()]; the pool after the call comes with the connection. *)
Definition getconn {B} (p : pool) : M B (nat * pool) :=
  if closed p then raise PoolError
  else match pooled p with
       | c :: rest =>
           ret (c, Pool (minconn p) (maxconn p) rest (c :: used p) (closed p))
       | [] =>
           if decide (length (used p) = maxconn p) then raise PoolError
           else let! c := connection in
                ret (c, Pool (minconn p) (maxconn p) [] (c :: used p) (closed p))
       end.

(** [pool.putconn(conn)], for a connection whose transaction was committed *)
Definition putconn {B} (p : pool) (conn : nat) : M B pool :=
  if closed p then raise PoolError
  else if decide (conn ∈ used p) then
    let! pooled' :=
      if decide (length (pooled p) < minconn p)%nat then
        let! gone := conn_closed conn in
        ret (if gone then pooled p else conn :: pooled p)
      else conn_close conn ;; ret (pooled p) in
    ret (Pool (minconn p) (maxconn p) pooled'
              (filter (λ c, c ≠ conn) (used p)) (closed p))
  else raise PoolError.

(** [pool.closeall()] *)
Fixpoint close_each {B} (conns : list nat) : M B unit :=
  match conns with
  | [] => ret tt
  | c :: conns' => try_pass (conn_close c) ;; close_each conns'
  end.

Definition closeall {B} (p : pool) : M B pool :=
  if closed p then raise PoolError
  else close_each (pooled p ++ used p) ;;
       ret (Pool (minconn p) (maxconn p) (pooled p) (used p) true).

Definition set_pool (p : option pool) (self : PostgreSQLBackend) :=
  Self (dsn self) p (idle_timeout self).

(** [__init__] *)
Definition __init__ (url : string) (timeout : Q) : M unit PostgreSQLBackend :=
  let minconn := 1%nat in
  let maxconn := 4%nat in
  let! p := ThreadedConnectionPool minconn maxconn in
  ret {| dsn := url; pool_attr := Some p; idle_timeout := timeout |}.

(** [_get_conn] *)
Definition _get_conn : M PostgreSQLBackend nat :=
  let! pool := self_get pool_attr in
  match pool with
  | None => raise AttributeError
  | Some p =>
      let! cp := getconn p in
      self_set (set_pool (Some cp.2)) ;;
      execute cp.1 SQL.noop ;;     (* set_isolation_level(REPEATABLE_READ) *)
      ret cp.1
  end.

(** [_put_conn] *)
Definition _put_conn (conn : nat) : M PostgreSQLBackend unit :=
  let! pool := self_get pool_attr in
  match pool with
  | None => raise AttributeError
  | Some p =>
      let! p' := putconn p conn in
      self_set (set_pool (Some p'))
  end.

(** [close] *)
Definition close : M PostgreSQLBackend unit :=
  let! pool := self_get pool_attr in
  match pool with
  | Some p =>
      self_set (set_pool None) ;;
      closeall p ;;
      ret tt
  | None => ret tt
  end.

(** [conn.cursor()] *)
Definition cursor {B} (conn : nat) : M B unit := execute conn SQL.noop.

(** [cur.execute(sql, params)] on a cursor of [conn]: psycopg2 first writes
    the parameters into the statement, and refuses a [str] with a NUL
    character, which the [text] type of PostgreSQL cannot hold. [params] are
    the parameters that are [str]; [bytes] and floats are always accepted. *)
Definition cur_execute {B A} (conn : nat) (params : list string)
    (stmt : table → A * table) : M B A :=
  if forallb no_nul params then execute conn stmt else raise ValueError.

(** [_pooled_execute_stmt]: [stmt] is the statement together with the
    [resultfunc] applied to its cursor, [params] its [str] parameters. When
    the statement raises, [_put_conn] is not reached. *)
Definition _pooled_execute_stmt {A} (params : list string)
    (stmt : table → A * table) : M PostgreSQLBackend A :=
  let! conn := _get_conn in
  cursor conn ;;
  let! result := cur_execute conn params stmt in
  commit conn ;;
  _put_conn conn ;;
  ret result.

(** [setex] *)
Definition setex (key : string) (value : pyvalue) (ttl : Z)
    : M PostgreSQLBackend unit :=
  let! now := time_time in
  let! expires_at := float_add_int now ttl in
  let blob := blob_of value in
  _pooled_execute_stmt [key] (SQL.session_set key blob (Some expires_at)).

(** [delete] *)
Definition delete (key : string) : M PostgreSQLBackend unit :=
  _pooled_execute_stmt [key] (SQL.session_delete key).

(** [get] *)
Definition get (key : string) : M PostgreSQLBackend (option bytes) :=
  let! row := _pooled_execute_stmt [key] (SQL.session_get key) in
  match row with
  | None => ret None
  | Some (value, expires_at) =>
      let! now := time_time in
      if expired now expires_at
      then delete key ;; ret None
      else ret (Some value)
  end.

(** The body of the [for key, expires_at in rows] loop of [keys]. *)
Fixpoint keys_loop `{Fnmatch} (pattern : string) (now : Q)
    (rows : list (string * option Q)) (result : list string)
    : M PostgreSQLBackend (list string) :=
  match rows with
  | [] => ret result
  | (key, expires_at) :: rows' =>
      if expired now expires_at
      then delete key ;; keys_loop pattern now rows' result
      else if fnmatch key pattern
           then keys_loop pattern now rows' (result ++ [key])
           else keys_loop pattern now rows' result
  end.

(** [keys] *)
Definition keys `{Engine} `{Fnmatch} (pattern : string)
    : M PostgreSQLBackend (list string) :=
  let! rows := _pooled_execute_stmt [] session_list in
  let! now := time_time in
  keys_loop pattern now rows [].

(** [scan_iter], the generator consumed to its end *)
Definition scan_iter `{Engine} `{Fnmatch} (pattern : string)
    : M PostgreSQLBackend (list string) :=
  keys pattern.

(** [exists] *)
Definition exists_ (key : string) : M PostgreSQLBackend bool :=
  let! v := get key in
  ret (bool_decide (v ≠ None)).

(** [ttl] *)
Definition ttl (key : string) : M PostgreSQLBackend Z :=
  let! row := _pooled_execute_stmt [key] (SQL.session_get_expires key) in
  match row with
  | None => ret (-2)
  | Some None => ret (-1)
  | Some (Some expires_at) =>
      let! now := time_time in
      let remaining := int_of_float (expires_at - now) in
      ret (if 0 <=? remaining then remaining else -2)
  end.

(** [set] *)
Definition set (key : string) (value : pyvalue) : M PostgreSQLBackend unit :=
  let blob := blob_of value in
  _pooled_execute_stmt [key] (SQL.session_set key blob None).

End PostgreSQL.

(** ** Reasoning about methods *)

(** The environment's step between two calls: the clock moves to [now]. *)
Definition at_time {B} (now : Q) (s : B * world) : B * world :=
  (s.1, World (db s.2) now (live s.2) (fresh s.2)).

(** [wp m Q s]: run from [s], the method [m] returns, with a value and in a
    state that satisfy [Q]. *)
Definition wp {B A} (m : M B A) (Q : A → B * world → Prop) (s : B * world) : Prop :=
  ∃ a s', m s = (Return a, s') ∧ Q a s'.

(** ** What a method computes from the table and the clock

    The functions of [Logical] read off, from the code of the methods, the
    value returned and the table left behind as functions of the table and
    of the clock alone. That both backends compute exactly these is proved
    below ([SQLiteFacts], [PostgreSQLFacts]). *)
Module Logical.

Definition set (key : string) (v : pyvalue) (t : table) : table :=
  <[key := Row (blob_of v) None]> t.

Definition setex (now : Q) (key : string) (v : pyvalue) (ttl : Z) (t : table) : table :=
  <[key := Row (blob_of v) (Some (now + float_of_int ttl)%Q)]> t.

Definition get (now : Q) (key : string) (t : table) : option bytes * table :=
  match t !! key with
  | None => (None, t)
  | Some r =>
      if expired now (expires_at r) then (None, delete key t)
      else (Some (value r), t)
  end.

Definition exists_ (now : Q) (key : string) (t : table) : bool * table :=
  (bool_decide ((get now key t).1 ≠ None), (get now key t).2).

Definition ttl (now : Q) (key : string) (t : table) : Z :=
  match t !! key with
  | None => -2
  | Some r =>
      match expires_at r with
      | None => -1
      | Some e =>
          let remaining := int_of_float (e - now) in
          if 0 <=? remaining then remaining else -2
      end
  end.

(** The loop of [keys] over the fetched rows: the keys appended to
    [result], and the table after the deletions. *)
Fixpoint keys_loop `{Fnmatch} (pattern : string) (now : Q)
    (rows : list (string * option Q)) (result : list string) (t : table)
    : list string * table :=
  match rows with
  | [] => (result, t)
  | (key, e) :: rows' =>
      if expired now e then keys_loop pattern now rows' result (delete key t)
      else if fnmatch key pattern
           then keys_loop pattern now rows' (result ++ [key]) t
           else keys_loop pattern now rows' result t
  end.

Definition keys `{Engine} `{Fnmatch} (now : Q) (pattern : string) (t : table)
    : list string * table :=
  keys_loop pattern now (session_list t).1 [] t.

(** The table without its expired rows. *)
Definition purge (now : Q) (t : table) : table :=
  filter (λ kr, expired now (expires_at kr.2) = false) t.

End Logical.

(** ** Invariants of the backend objects *)

Module SQLiteInv.
Import SQLite.

(** Every thread's cached connection is open, was handed out before, comes
    with a [last_used] stamp, and is cached by that thread alone. *)
Definition wf (s : state) : Prop :=
  (∀ tid c, local_conn s.1 !! tid = Some c →
     c ∈ live s.2 ∧ (c < fresh s.2)%nat ∧ is_Some (local_last_used s.1 !! tid)) ∧
  (∀ t1 t2 c, local_conn s.1 !! t1 = Some c → local_conn s.1 !! t2 = Some c →
     t1 = t2).

(** The state a method leaves: well-formed, with table [t] and clock [now]. *)
Definition leaves (t : table) (now : Q) (s : state) : Prop :=
  wf s ∧ db s.2 = t ∧ clock s.2 = now.

(** The path names a database file, which all connections share. With
    [":memory:"], and with the empty path that [__init__] replaces, sqlite3
    gives every connection a database of its own. *)
Definition on_file (s : state) : Prop :=
  db_path s.1 ≠ ":memory:"%string ∧ db_path s.1 ≠ ""%string.

(** Thread [tid] has [conn] cached, open, and stamped with the present
    reading of the clock, and the idle timeout is not negative: a
    [_get_conn] at this reading returns [conn] again. *)
Definition holds (tid conn : nat) (s : state) : Prop :=
  local_conn s.1 !! tid = Some conn ∧ conn ∈ live s.2 ∧
  local_last_used s.1 !! tid = Some (clock s.2) ∧
  (0 <= idle_timeout s.1)%Q.

End SQLiteInv.

Module PostgreSQLInv.
Import PostgreSQL.

(** Between two calls the pool, if the backend still has one, is not
    closed, has no connection checked out, may still grow, and its idle
    connections are distinct, open, and were handed out before. *)
Definition pool_ok (s : state) : Prop :=
  match pool_attr s.1 with
  | None => True
  | Some p =>
      closed p = false ∧ used p = [] ∧ maxconn p ≠ 0%nat ∧ NoDup (pooled p) ∧
      ∀ c, c ∈ pooled p → c ∈ live s.2 ∧ (c < fresh s.2)%nat
  end.

(** The column [key] of the table is of type [text], which holds no NUL
    character. *)
Definition text_keys (t : table) : Prop :=
  map_Forall (λ k _, no_nul k = true) t.

(** The invariant between two calls: the pool is in order, and the table is
    one that PostgreSQL can hold. *)
Definition wf (s : state) : Prop := pool_ok s ∧ text_keys (db s.2).

(** [close] was not called yet. *)
Definition is_open (s : state) : Prop := pool_attr s.1 ≠ None.

(** The state a method leaves: the pool in order and open, with table [t]
    and clock [now]. *)
Definition leaves (t : table) (now : Q) (s : state) : Prop :=
  pool_ok s ∧ is_open s ∧ db s.2 = t ∧ clock s.2 = now.

End PostgreSQLInv.

(** ** A matcher for the examples

    The properties below hold for every [Fnmatch]. Where an example needs a
    matcher to run, it uses [Glob.glob], which follows [fnmatch.translate]
    of Python 3.11 on a POSIX system, where [os.path.normcase] changes
    nothing: [*] matches any run of characters, [?] any one character, a
    [[] that is never closed stands for itself, and a bracket expression is
    read as [translate] rewrites it and as the [re] module then reads the
    result. *)
Module Glob.

Inductive item :=
  | Star
  | Any
  | Never
  | Lit (c : ascii)
  | Set_ (negated : bool) (members : list (ascii * ascii)).

(** What is left of a bracket expression once [translate] has escaped it:
    characters that stand for themselves, and the hyphens that make a
    range. *)
Inductive token :=
  | Ch (c : ascii)
  | Dash.

(** The text up to the next ["]"], and the text after it. *)
Fixpoint until_close (p : list ascii) : option (list ascii * list ascii) :=
  match p with
  | [] => None
  | c :: p' =>
      if Ascii.eqb c "]" then Some ([], p')
      else match until_close p' with
           | Some (stuff, rest) => Some (c :: stuff, rest)
           | None => None
           end
  end.

(** [pat[i:j]] and the pattern after [j], read from just after the ["["]:
    a leading ["!"] and a ["]"] in first place do not close the
    expression. *)
Definition bracket (p : list ascii) : option (list ascii * list ascii) :=
  let (bang, p1) :=
    match p with
    | c :: p' => if Ascii.eqb c "!" then ([c], p') else ([], p)
    | [] => ([], p)
    end in
  let (first, p2) :=
    match p1 with
    | c :: p' => if Ascii.eqb c "]" then ([c], p') else ([], p1)
    | [] => ([], p1)
    end in
  match until_close p2 with
  | Some (stuff, rest) => Some (bang ++ first ++ stuff, rest)%list
  | None => None
  end.

(** The chunks between the hyphens that [translate] takes for range
    hyphens: [skip] characters are passed over before a hyphen counts, and
    [chunk] is the chunk being read, last character first. A hyphen that ends
    the expression goes to the chunk before it. *)
Fixpoint chunks_of (skip : nat) (chunk stuff : list ascii) : list (list ascii) :=
  match stuff with
  | [] => [rev chunk]
  | c :: stuff' =>
      match skip with
      | O =>
          if Ascii.eqb c "-" then
            match stuff' with
            | [] => [rev (c :: chunk)]
            | _ => rev chunk :: chunks_of 2 [] stuff'
            end
          else chunks_of 0 (c :: chunk) stuff'
      | S skip' => chunks_of skip' (c :: chunk) stuff'
      end
  end.

(** "Remove empty ranges": from the right, a chunk whose last character is
    above the first of the next loses it and takes the rest of the next. *)
Fixpoint drop_empty_ranges (chunks : list (list ascii)) : list (list ascii) :=
  match chunks with
  | [] => []
  | c :: chunks' =>
      match drop_empty_ranges chunks' with
      | [] => [c]
      | d :: ds =>
          match last c, head d with
          | Some lo, Some hi =>
              if (N_of_ascii hi <? N_of_ascii lo)%N
              then (removelast c ++ tail d)%list :: ds
              else c :: d :: ds
          | _, _ => c :: d :: ds
          end
      end
  end.

Fixpoint join (chunks : list (list ascii)) : list token :=
  match chunks with
  | [] => []
  | [c] => map Ch c
  | c :: chunks' => (map Ch c ++ Dash :: join chunks')%list
  end.

(** The escaped text of the expression. *)
Definition escaped (stuff : list ascii) : list token :=
  if existsb (Ascii.eqb "-") stuff then
    let skip := match stuff with
                | c :: _ => if Ascii.eqb c "!" then 2%nat else 1%nat
                | [] => 1%nat
                end in
    join (drop_empty_ranges (chunks_of skip [] stuff))
  else map Ch stuff.

Definition char_of (t : token) : ascii :=
  match t with
  | Ch c => c
  | Dash => "-"
  end.

(** The members of a character set as [re] reads them: a hyphen between
    two characters makes a range, a hyphen at the end is a member. *)
Fixpoint members (fuel : nat) (ts : list token) : list (ascii * ascii) :=
  match fuel, ts with
  | S fuel', t :: rest =>
      match rest with
      | [Dash] => [(char_of t, char_of t); ("-", "-")]%char
      | Dash :: that :: rest' => (char_of t, char_of that) :: members fuel' rest'
      | _ => (char_of t, char_of t) :: members fuel' rest
      end
  | _, _ => []
  end.

(** An expression left empty never matches, one left with a lone ["!"]
    matches any character, and a ["!"] in first place negates. *)
Definition set_of (stuff : list ascii) : item :=
  match escaped stuff with
  | [] => Never
  | [Ch c] => if Ascii.eqb c "!" then Any else Set_ false [(c, c)]
  | Ch c :: ts =>
      if Ascii.eqb c "!" then Set_ true (members (length ts) ts)
      else Set_ false (members (S (length ts)) (Ch c :: ts))
  | ts => Set_ false (members (length ts) ts)
  end.

Fixpoint parse (fuel : nat) (p : list ascii) : list item :=
  match fuel, p with
  | S fuel', c :: p' =>
      if Ascii.eqb c "*" then Star :: parse fuel' p'
      else if Ascii.eqb c "?" then Any :: parse fuel' p'
      else if Ascii.eqb c "[" then
        match bracket p' with
        | Some (stuff, rest) => set_of stuff :: parse fuel' rest
        | None => Lit c :: parse fuel' p'
        end
      else Lit c :: parse fuel' p'
  | _, _ => []
  end.

Definition in_range (c : ascii) (r : ascii * ascii) : bool :=
  (N_of_ascii r.1 <=? N_of_ascii c)%N && (N_of_ascii c <=? N_of_ascii r.2)%N.

Definition accepts (i : item) (c : ascii) : bool :=
  match i with
  | Star | Any => true
  | Never => false
  | Lit c' => Ascii.eqb c' c
  | Set_ negated ms => xorb negated (existsb (in_range c) ms)
  end.

Fixpoint matches (items : list item) (name : list ascii) : bool :=
  match items with
  | [] => match name with [] => true | _ => false end
  | Star :: items' =>
      (fix star (name : list ascii) : bool :=
         matches items' name ||
         match name with
         | [] => false
         | _ :: name' => star name'
         end) name
  | i :: items' =>
      match name with
      | c :: name' => accepts i c && matches items' name'
      | [] => false
      end
  end.

Definition glob : Fnmatch :=
  λ name pattern,
    let p := list_ascii_of_string pattern in
    matches (parse (length p) p) (list_ascii_of_string name).

End Glob.

(** ** Sequences of calls *)

(** The operations of the storage contract, and what they return. *)
Inductive op :=
  | OpSet (key : string) (v : pyvalue)
  | OpSetex (key : string) (v : pyvalue) (ttl : Z)
  | OpGet (key : string)
  | OpDelete (key : string)
  | OpExists (key : string)
  | OpTtl (key : string)
  | OpKeys (pattern : string)
  | OpScan (pattern : string).

Inductive result :=
  | RNone
  | RValue (v : option bytes)
  | RBool (b : bool)
  | RInt (n : Z)
  | RKeys (ks : list string).

(** One call: the calling thread, the time at which it runs, the operation. *)
Record call := Call {
  thread : nat;
  time : Q;
  what : op;
}.

Definition fmap_M {B A C} (f : A → C) (m : M B A) : M B C :=
  let! a := m in ret (f a).

Definition sqlite_call `{Engine} `{Fnmatch} (c : call) : M SQLite.SQLiteBackend result :=
  let tid := thread c in
  match what c with
  | OpSet k v => fmap_M (λ _, RNone) (SQLite.set tid k v)
  | OpSetex k v n => fmap_M (λ _, RNone) (SQLite.setex tid k v n)
  | OpGet k => fmap_M RValue (SQLite.get tid k)
  | OpDelete k => fmap_M (λ _, RNone) (SQLite.delete tid k)
  | OpExists k => fmap_M RBool (SQLite.exists_ tid k)
  | OpTtl k => fmap_M RInt (SQLite.ttl tid k)
  | OpKeys p => fmap_M RKeys (SQLite.keys tid p)
  | OpScan p => fmap_M RKeys (SQLite.scan_iter tid p)
  end.

Definition postgresql_call `{Engine} `{Fnmatch} (c : call)
    : M PostgreSQL.PostgreSQLBackend result :=
  match what c with
  | OpSet k v => fmap_M (λ _, RNone) (PostgreSQL.set k v)
  | OpSetex k v n => fmap_M (λ _, RNone) (PostgreSQL.setex k v n)
  | OpGet k => fmap_M RValue (PostgreSQL.get k)
  | OpDelete k => fmap_M (λ _, RNone) (PostgreSQL.delete k)
  | OpExists k => fmap_M RBool (PostgreSQL.exists_ k)
  | OpTtl k => fmap_M RInt (PostgreSQL.ttl k)
  | OpKeys p => fmap_M RKeys (PostgreSQL.keys p)
  | OpScan p => fmap_M RKeys (PostgreSQL.scan_iter p)
  end.

(** The calls run one after the other, each at its own time; a call that
    raises does not stop the ones after it. *)
Fixpoint run {B} (step : call → M B result) (calls : list call) (s : B * world)
    : list (outcome result) * (B * world) :=
  match calls with
  | [] => ([], s)
  | c :: calls' =>
      let r := step c (at_time (time c) s) in
      let rs := run step calls' r.2 in
      (r.1 :: rs.1, rs.2)
  end.

(** Two outcomes agree up to the order in which keys are enumerated. *)
Definition same_outcome (r1 r2 : outcome result) : Prop :=
  match r1, r2 with
  | Return (RKeys ks1), Return (RKeys ks2) => ks1 ≡ₚ ks2
  | _, _ => r1 = r2
  end.

(** The key an operation is about, for the operations on one key. *)
Definition key_of (o : op) : option string :=
  match o with
  | OpSet k _ | OpSetex k _ _ | OpGet k | OpDelete k | OpExists k | OpTtl k => Some k
  | OpKeys _ | OpScan _ => None
  end.

(** The operations that write nothing of their own: [get], [exists], [ttl],
    [keys], [scan_iter]. *)
Definition is_read (o : op) : bool :=
  match o with
  | OpGet _ | OpExists _ | OpTtl _ | OpKeys _ | OpScan _ => true
  | OpSet _ _ | OpSetex _ _ _ | OpDelete _ => false
  end.

(** The operations that [time.time() + ttl] stops with [OverflowError]. *)
Definition overflows (o : op) : bool :=
  match o with
  | OpSetex _ _ n => float_overflows n
  | _ => false
  end.

(** The operations whose key, if they have one, is free of NUL characters. *)
Definition nul_free (o : op) : bool :=
  match key_of o with
  | Some k => no_nul k
  | None => true
  end.

(** What a call computes from the table and the clock. *)
Definition logical_call `{Engine} `{Fnmatch} (now : Q) (o : op) (t : table)
    : outcome result * table :=
  match o with
  | OpSet k v => (Return RNone, Logical.set k v t)
  | OpSetex k v n =>
      if float_overflows n then (Raise OverflowError, t)
      else (Return RNone, Logical.setex now k v n t)
  | OpGet k => (Return (RValue (Logical.get now k t).1), (Logical.get now k t).2)
  | OpDelete k => (Return RNone, delete k t)
  | OpExists k =>
      (Return (RBool (Logical.exists_ now k t).1), (Logical.exists_ now k t).2)
  | OpTtl k => (Return (RInt (Logical.ttl now k t)), t)
  | OpKeys p | OpScan p =>
      (Return (RKeys (Logical.keys now p t).1), (Logical.keys now p t).2)
  end.

(** ** Two backends to run examples on *)

(** A world with table [t] at time [now] in which no connection was opened yet. *)
Definition world_of (t : table) (now : Q) : world := World t now ∅ 0.

(** A [SQLiteBackend] as [__init__] makes it for the path
    ["/var/lib/deriva/groups.db"], a database file with table [t]. *)
Definition sqlite_on (t : table) (now : Q) : SQLite.state :=
  (SQLite.Self "/var/lib/deriva/groups.db" 60 ∅ ∅, world_of t now).

(** A [PostgreSQLBackend] as [__init__] makes it: the pool holds connection 0. *)
Definition postgresql_on (t : table) (now : Q) : PostgreSQL.state :=
  (PostgreSQL.Self "postgresql:///derivagrps"
     (Some (PostgreSQL.Pool 1 4 [0%nat] [] false)) 60,
   World t now {[0%nat]} 1).

(** A [SQLiteBackend] made with [idle_timeout=-1], on the same file. *)
Definition sqlite_hasty (t : table) (now : Q) : SQLite.state :=
  (SQLite.Self "/var/lib/deriva/groups.db" (-1) ∅ ∅, world_of t now).

(** A key with a NUL character: ["k\x00"]. *)
Definition nul_key : string := String "k" (String zero EmptyString).

(** [f] applied to the value a call returned. *)
Definition outcome_map {A C} (f : A → C) (r : outcome A) : outcome C :=
  match r with
  | Return a => Return (f a)
  | Raise e => Raise e
  end.

(** The same method called [n] times in a row. *)
Fixpoint repeatedly {B A} (n : nat) (m : M B A) (s : B * world)
    : list (outcome A) * (B * world) :=
  match n with
  | O => ([], s)
  | S n' =>
      let r := m s in
      let rs := repeatedly n' m r.2 in
      (r.1 :: rs.1, rs.2)
  end.

(** ** Calls and closes in one sequence *)

(** What a caller does with a backend: one of the store's operations, or
    [close], from a thread at a time. *)
Inductive action :=
  | Do (c : call)
  | Close (tid : nat) (now : Q).

Definition sqlite_action `{Engine} `{Fnmatch} (a : action)
    (s : SQLite.state) : outcome result * SQLite.state :=
  match a with
  | Do c => sqlite_call c (at_time (time c) s)
  | Close tid now => fmap_M (λ _, RNone) (SQLite.close tid) (at_time now s)
  end.

Definition postgresql_action `{Engine} `{Fnmatch} (a : action)
    (s : PostgreSQL.state) : outcome result * PostgreSQL.state :=
  match a with
  | Do c => postgresql_call c (at_time (time c) s)
  | Close tid now => fmap_M (λ _, RNone) PostgreSQL.close (at_time now s)
  end.

(** The actions that [time.time() + ttl] stops with [OverflowError]. *)
Definition action_overflows (a : action) : bool :=
  match a with
  | Do c => overflows (what c)
  | Close _ _ => false
  end.

(** The actions one after the other; one that raises does not stop the
    ones after it. *)
Fixpoint play {S} (step : action → S → outcome result * S)
    (actions : list action) (s : S) : list (outcome result) * S :=
  match actions with
  | [] => ([], s)
  | a :: actions' =>
      let r := step a s in
      let rs := play step actions' r.2 in
      (r.1 :: rs.1, rs.2)
  end.

(** ** Connections held by the backends *)

Module SQLiteConn.
Import SQLite.

(** No connection is open that no thread caches: with [SQLiteInv.wf], the
    open connections are exactly the cached ones, one per caching thread. *)
Definition no_leak (s : state) : Prop :=
  ∀ c, c ∈ live s.2 → ∃ tid, local_conn s.1 !! tid = Some c.

Definition tight (s : state) : Prop := SQLiteInv.wf s ∧ no_leak s.

(** [self.local.last_used], with the default of the [getattr]. *)
Definition last_used (tid : nat) (s : state) : Q :=
  default 0%Q (local_last_used s.1 !! tid).

(** The test of [_get_conn] for a stale connection. *)
Definition stale (tid : nat) (s : state) : bool :=
  Qgt_bool (clock s.2 - last_used tid s) (idle_timeout s.1).

End SQLiteConn.

Module PostgreSQLConn.
Import PostgreSQL.

(** The pool as sequential use keeps it: open, nothing checked out, an idle
    connection [c] at the top that is open, and no more idle connections
    than [minconn]. *)
Definition settled (c : nat) (s : state) : Prop :=
  ∃ p rest, pool_attr s.1 = Some p ∧ closed p = false ∧ used p = [] ∧
            pooled p = c :: rest ∧ (length rest < minconn p)%nat ∧
            c ∈ live s.2.

End PostgreSQLConn.

(** ** [scan_iter] as the generator it is *)

Module Generator.

(** The generator object [scan_iter(pattern)] returns: not yet started;
    suspended at its [yield], with the keys its [for] loop has still to go
    through; or finished. *)
Inductive generator :=
  | Created
  | Suspended (rest : list string)
  | Finished.

(** [next(g)] for a generator whose body is [for key in keys: yield key].
    The body runs in the thread and at the time of the call of [next].
    [Return None] stands for [StopIteration]; an exception of [keys] passes
    through and finishes the generator. *)
Definition next {B} (keys : M B (list string)) (g : generator) (s : B * world)
    : outcome (option string) * generator * (B * world) :=
  match g with
  | Created =>
      match keys s with
      | (Return [], s') => (Return None, Finished, s')
      | (Return (k :: rest), s') => (Return (Some k), Suspended rest, s')
      | (Raise e, s') => (Raise e, Finished, s')
      end
  | Suspended [] => (Return None, Finished, s)
  | Suspended (k :: rest) => (Return (Some k), Suspended rest, s)
  | Finished => (Return None, Finished, s)
  end.

(** At most [n] calls of [next], stopping at the first that yields nothing:
    the keys yielded, the generator and the state after the last call. *)
Fixpoint take {B} (n : nat) (keys : M B (list string)) (g : generator)
    (s : B * world) : list string * generator * (B * world) :=
  match n with
  | O => ([], g, s)
  | S n' =>
      match next keys g s with
      | (Return (Some k), g', s') =>
          let r := take n' keys g' s' in (k :: r.1.1, r.1.2, r.2)
      | (_, g', s') => ([], g', s')
      end
  end.

End Generator.

(** ** logger.py *)

Module AuditLogger.

(** The three handlers [init_audit_logger] can make, with the arguments it
    gives them. *)
Inductive handler :=
  | StreamHandler
  | SysLogHandler (address : string) (facility : nat) (ident : string)
  | TimedRotatingFileHandler (filename : string) (when : string)
      (interval backupCount : nat).

(** [h.__class__.__name__] *)
Definition class_name (h : handler) : string :=
  match h with
  | StreamHandler => "StreamHandler"
  | SysLogHandler _ _ _ => "SysLogHandler"
  | TimedRotatingFileHandler _ _ _ _ => "TimedRotatingFileHandler"
  end.

(** [json.JsonFormatter(fmt, style=..., rename_fields=...)] *)
Record formatter := JsonFormatter {
  fmt : string;
  style : string;
  rename_fields : list (string * string);
}.

(** The module's [logger]: its handlers, each with the formatter set on it,
    its level, and the entries handed to [logger.info]. [V] is the type of
    the values of a log entry. *)
Record logger (V : Type) := Logger {
  handlers : list (handler * formatter);
  level : option nat;
  entries : list (list (string * V));
}.
Arguments Logger {V} _ _ _.
Arguments handlers {V} _.
Arguments level {V} _.
Arguments entries {V} _.

(** What the function asks of its surroundings: [os.path.exists],
    [os.access(_, os.W_OK)], and whether the constructors of the two handlers
    that open something raise ([Some e], [e] the text of the exception). *)
Record surroundings := Surroundings {
  path_exists : string → bool;
  writable : string → bool;
  syslog_raises : string → option string;
  file_raises : string → option string;
}.

Definition LOG_LOCAL1 : nat := 17.
Definition INFO : nat := 20.

(** [init_audit_logger(filename, use_syslog)]: the logger afterwards and the
    lines printed. *)
Definition init_audit_logger {V} (os : surroundings) (filename : string)
    (use_syslog : bool) (lg : logger V) : logger V * list string :=
  let log_handler := StreamHandler in
  let syslog_socket := "/dev/log" in
  let '(log_handler, use_syslog, printed) :=
    if use_syslog && (path_exists os syslog_socket && writable os syslog_socket)
    then match syslog_raises os syslog_socket with
         | None =>
             (SysLogHandler syslog_socket LOG_LOCAL1 "credenza-audit: ",
              use_syslog, [])
         | Some e =>
             (log_handler, false,
              ["Failed to initialize syslog logger, falling back to default audit log handler: "
                 +:+ e])
         end
    else (log_handler, use_syslog, []) in
  let '(log_handler, printed) :=
    if negb use_syslog
    then match file_raises os filename with
         | None => (TimedRotatingFileHandler filename "D" 1 0, printed)
         | Some e =>
             (log_handler,
              printed ++
              ["Failed to initialize " +:+ class_name log_handler +:+
               ", falling back to stream handler: " +:+ e])
         end
    else (log_handler, printed) in
  let formatter := JsonFormatter "{message}" "{" [("message", "event")] in
  (Logger (handlers lg ++ [(log_handler, formatter)]) (Some INFO) (entries lg),
   printed).

(** [d[k] = v] on a dict, which keeps the order of first insertion. *)
Fixpoint dict_set {V} (k : string) (v : V) (d : list (string * V))
    : list (string * V) :=
  match d with
  | [] => [(k, v)]
  | (k', v') :: d' =>
      if decide (k' = k) then (k, v) :: d' else (k', v') :: dict_set k v d'
  end.

(** [d.get(k)] *)
Fixpoint dict_get {V} (k : string) (d : list (string * V)) : option V :=
  match d with
  | [] => None
  | (k', v') :: d' => if decide (k' = k) then Some v' else dict_get k d'
  end.

(** [audit_event(event, **kwargs)], with [timestamp] the value of
    [datetime.datetime.now().astimezone().isoformat()]. *)
Definition audit_event {V} (timestamp : V) (event : V)
    (kwargs : list (string * V)) (lg : logger V) : logger V :=
  let log_entry :=
    foldl (λ d kv, dict_set kv.1 kv.2 d)
          [("event", event); ("timestamp", timestamp)] kwargs in
  Logger (handlers lg) (level lg) (entries lg ++ [log_entry]).

End AuditLogger.

(** ** [SQLiteBackend.__init__] and the file system *)

Module SQLiteInit.

Definition is_slash (c : ascii) : bool := Ascii.eqb c "/".

Fixpoint lstrip (P : ascii → bool) (l : list ascii) : list ascii :=
  match l with
  | [] => []
  | c :: l' => if P c then lstrip P l' else l
  end.

(** [posixpath.dirname]: the text up to the last slash, without the slashes
    at its end unless it consists of slashes only. *)
Definition dirname (p : string) : string :=
  let head := reverse (lstrip (λ c, negb (is_slash c))
                              (reverse (list_ascii_of_string p))) in
  string_of_list_ascii
    (if forallb is_slash head then head
     else reverse (lstrip is_slash (reverse head))).

(** The file system as [__init__] meets it: [os.path.isdir],
    [os.path.expanduser] and whether [os.makedirs] raises ([Some e]). *)
Record file_system := FileSystem {
  isdir : string → bool;
  expanduser : string → string;
  makedirs : string → option string;
}.

(** [__init__]: the backend, or the exception of [os.makedirs]; and the
    directories [os.makedirs] was asked to make. *)
Definition __init__ (fs : file_system) (db_path : string) (idle_timeout : Q)
    : (SQLite.SQLiteBackend + string) * list string :=
  let db_path :=
    if decide (db_path = "") then expanduser fs "~/deriva-groups/groups.db"
    else db_path in
  let self := SQLite.Self db_path idle_timeout ∅ ∅ in
  if bool_decide (db_path ≠ ":memory:") && negb (isdir fs (dirname db_path))
  then match makedirs fs (dirname db_path) with
       | None => (inl self, [dirname db_path])
       | Some e => (inr e, [dirname db_path])
       end
  else (inl self, []).

End SQLiteInit.

(** * Properties *)

Section wp_rules.
Context {B : Type}.
Implicit Types (s : B * world).

Lemma wp_ret {A} (Q : A → B * world → Prop) (a : A) s :
  Q a s → wp (ret a) Q s.
Proof. intros HQ. by exists a, s. Qed.

Lemma wp_bind {A C} (m : M B A) (k : A → M B C) (Q : C → B * world → Prop) s :
  wp m (λ a s', wp (k a) Q s') s → wp (bind m k) Q s.
Proof.
  intros (a & s1 & E1 & c & s2 & E2 & HQ).
  exists c, s2. split; [|done]. unfold bind. by rewrite E1.
Qed.

Lemma wp_bind_assoc {A C D} (m : M B A) (k : A → M B C) (k' : C → M B D)
    (Q : D → B * world → Prop) s :
  wp (let! a := m in let! c := k a in k' c) Q s →
  wp (let! c := (let! a := m in k a) in k' c) Q s.
Proof.
  intros (d & s' & E & HQ). exists d, s'. split; [|done].
  unfold bind in *. by destruct (m s) as [[a|e] s1].
Qed.

Lemma wp_mono {A} (m : M B A) (Q Q' : A → B * world → Prop) s :
  wp m Q s → (∀ a s', Q a s' → Q' a s') → wp m Q' s.
Proof. intros (a & s' & E & HQ) H. exists a, s'. eauto. Qed.

Lemma wp_self_get {A} (f : B → A) (Q : A → B * world → Prop) s :
  Q (f s.1) s → wp (self_get f) Q s.
Proof. intros HQ. by exists (f s.1), s. Qed.

Lemma wp_self_set (f : B → B) (Q : unit → B * world → Prop) s :
  Q tt (f s.1, s.2) → wp (self_set f) Q s.
Proof. intros HQ. by exists tt, (f s.1, s.2). Qed.

Lemma wp_time_time (Q : Q → B * world → Prop) s :
  Q (clock s.2) s → wp time_time Q s.
Proof. intros HQ. by exists (clock s.2), s. Qed.

Lemma wp_open_connection (Q : nat → B * world → Prop) s :
  Q (fresh s.2)
    (s.1, World (db s.2) (clock s.2) ({[fresh s.2]} ∪ live s.2) (S (fresh s.2))) →
  wp open_connection Q s.
Proof. intros HQ. eexists _, _. split; [reflexivity|done]. Qed.

Lemma wp_conn_close (conn : nat) (Q : unit → B * world → Prop) s :
  Q tt (s.1, World (db s.2) (clock s.2) (live s.2 ∖ {[conn]}) (fresh s.2)) →
  wp (conn_close conn) Q s.
Proof. intros HQ. eexists _, _. split; [reflexivity|done]. Qed.

Lemma wp_try_pass (m : M B unit) (Q : unit → B * world → Prop) s :
  wp m Q s → wp (try_pass m) Q s.
Proof.
  intros ([] & s' & E & HQ).
  exists tt, s'. split; [|done]. unfold try_pass. by rewrite E.
Qed.

Lemma wp_execute {A} (e : exn) (conn : nat) (stmt : table → A * table)
    (Q : A → B * world → Prop) s :
  conn ∈ live s.2 →
  Q (stmt (db s.2)).1
    (s.1, World (stmt (db s.2)).2 (clock s.2) (live s.2) (fresh s.2)) →
  wp (conn_execute e conn stmt) Q s.
Proof.
  intros Hl HQ. unfold wp, conn_execute. cbv zeta. rewrite decide_True by done.
  destruct (stmt (db s.2)) as [a t]. by eexists _, _.
Qed.

Lemma wp_float_add_int (x : Q) (n : Z) (Q : Q → B * world → Prop) s :
  float_overflows n = false →
  Q (x + float_of_int n)%Q s → wp (float_add_int x n) Q s.
Proof. intros Hn HQ. unfold float_add_int. rewrite Hn. by apply wp_ret. Qed.

(** A method that returns is a [wp] of what it returns. *)
Lemma wp_run {A} (m : M B A) (a : A) (Q : A → B * world → Prop) s s' :
  m s = (Return a, s') → Q a s' → wp m Q s.
Proof. intros E HQ. by exists a, s'. Qed.

(** A method that raises, inside a sequence. *)
Lemma bind_raise {A C} (m : M B A) (k : A → M B C) (e : exn) s s' :
  m s = (Raise e, s') → bind m k s = (Raise e, s').
Proof. intros E. unfold bind. by rewrite E. Qed.

Lemma bind_return {A C} (m : M B A) (k : A → M B C) (a : A) s s' :
  m s = (Return a, s') → bind m k s = k a s'.
Proof. intros E. unfold bind. by rewrite E. Qed.

(** ** Properties of the backend object that a method keeps, however it ends *)

Definition keeps {A} (P : B → Prop) (m : M B A) : Prop :=
  ∀ s, P s.1 → P (m s).2.1.

Lemma keeps_ret {A} P (a : A) : keeps P (ret a).
Proof. by intros s. Qed.

Lemma keeps_raise {A} P (e : exn) : keeps P (@raise B A e).
Proof. by intros s. Qed.

Lemma keeps_bind {A C} P (m : M B A) (k : A → M B C) :
  keeps P m → (∀ a, keeps P (k a)) → keeps P (bind m k).
Proof.
  intros Hm Hk s HP. unfold bind. specialize (Hm s HP).
  destruct (m s) as [[a|e] s1]; [by apply Hk|done].
Qed.

Lemma keeps_try_pass P (m : M B unit) : keeps P m → keeps P (try_pass m).
Proof.
  intros Hm s HP. unfold try_pass. specialize (Hm s HP).
  by destruct (m s) as [[a|e] s1].
Qed.

Lemma keeps_self_get {A} P (f : B → A) : keeps P (self_get f).
Proof. by intros s. Qed.

Lemma keeps_self_set P (f : B → B) : (∀ b, P b → P (f b)) → keeps P (self_set f).
Proof. intros Hf s HP. by apply Hf. Qed.

Lemma keeps_time_time P : keeps P (@time_time B).
Proof. by intros s. Qed.

Lemma keeps_open_connection P : keeps P (@open_connection B).
Proof. by intros s. Qed.

Lemma keeps_conn_close P (conn : nat) : keeps P (@conn_close B conn).
Proof. by intros s. Qed.

Lemma keeps_conn_execute {A} P (e : exn) (conn : nat) (stmt : table → A * table) :
  keeps P (conn_execute e conn stmt).
Proof.
  intros s HP. unfold conn_execute. cbv zeta.
  destruct (decide (conn ∈ live s.2)); [|done]. by destruct (stmt (db s.2)).
Qed.

Lemma keeps_float_add_int P (x : Q) (n : Z) : keeps P (@float_add_int B x n).
Proof. intros s HP. unfold float_add_int. by destruct (float_overflows n). Qed.

End wp_rules.

Ltac keeps_prim :=
  first [ apply keeps_ret | apply keeps_raise | apply keeps_self_get
        | apply keeps_time_time | apply keeps_open_connection
        | apply keeps_conn_close | apply keeps_conn_execute
        | apply keeps_float_add_int
        | apply keeps_try_pass ].

Ltac keeps_go :=
  repeat first
    [ keeps_prim
    | lazymatch goal with
      | |- keeps _ (bind _ _) => apply keeps_bind; [|intros ?]
      end ].

Ltac wp_prim :=
  first [ apply wp_ret | apply wp_self_get | apply wp_self_set
        | apply wp_time_time | apply wp_open_connection
        | apply wp_conn_close ].

Ltac wp_go := repeat (first [ apply wp_bind; wp_prim | wp_prim ]; cbn beta).

Ltac wp_flat :=
  repeat (first [ apply wp_bind; wp_prim | wp_prim | apply wp_bind_assoc ];
          cbn beta).

(** ** Facts about [Logical] *)

Module LogicalFacts.

Section keys.
Context `{F : Fnmatch}.

Lemma keys_loop_result pattern now rows result t :
  (Logical.keys_loop pattern now rows result t).1 =
  result ++ (filter (λ ke, expired now ke.2 = false ∧
                           fnmatch ke.1 pattern = true) rows).*1.
Proof.
  revert result t. induction rows as [|[k e] rows IH]; intros result t; cbn.
  - by rewrite app_nil_r.
  - destruct (expired now e) eqn:He.
    + rewrite decide_False by (by intros [? _]). apply IH.
    + destruct (fnmatch k pattern) eqn:Hm.
      * rewrite decide_True by done. rewrite IH. cbn. by rewrite <-app_assoc.
      * rewrite decide_False by (by intros [_ ?]). apply IH.
Qed.

Lemma keys_loop_lookup_Some pattern now rows result t k r :
  (Logical.keys_loop pattern now rows result t).2 !! k = Some r ↔
  t !! k = Some r ∧ ∀ e, (k, e) ∈ rows → expired now e = false.
Proof.
  revert result t. induction rows as [|[k' e'] rows IH]; intros result t; cbn.
  - split; [|by intros [? _]]. intros ?. split; [done|].
    by intros e ?%elem_of_nil.
  - destruct (expired now e') eqn:He.
    + rewrite IH, lookup_delete_Some. split.
      * intros [[Hne ?] Hrows]. split; [done|].
        intros e [[= ??]|?]%elem_of_cons; [done|by apply Hrows].
      * intros [? Hrows]. split_and!; [|done|].
        -- intros ->. specialize (Hrows e' (list_elem_of_here _ _)). congruence.
        -- intros e ?. apply Hrows. by right.
    + assert (∀ res, (Logical.keys_loop pattern now rows res t).2 !! k = Some r ↔
              t !! k = Some r ∧
              ∀ e, (k, e) ∈ (k', e') :: rows → expired now e = false) as Hres.
      { intros res. rewrite IH. split; intros [? Hrows]; (split; [done|]).
        - intros e [[= ??]|?]%elem_of_cons; [by subst|by apply Hrows].
        - intros e ?. apply Hrows. by right. }
      destruct (fnmatch k' pattern); apply Hres.
Qed.

Context `{E : Engine}.

Lemma elem_of_session_list t k e :
  (k, e) ∈ (session_list t).1 ↔ ∃ r, t !! k = Some r ∧ e = expires_at r.
Proof.
  unfold session_list. cbn. rewrite list_elem_of_fmap. split.
  - intros ([k' r] & [= -> ->] & Hin). exists r. split; [|done].
    by rewrite scan_order_perm, elem_of_map_to_list in Hin.
  - intros (r & Hk & ->). exists (k, r). split; [done|].
    by rewrite scan_order_perm, elem_of_map_to_list.
Qed.

(** [keys] leaves the table without its expired rows, whatever the
    pattern and the order of enumeration. *)
Lemma keys_table now pattern t :
  (Logical.keys now pattern t).2 = Logical.purge now t.
Proof.
  apply map_eq. intros k. apply option_eq. intros r.
  unfold Logical.keys, Logical.purge.
  rewrite keys_loop_lookup_Some, map_lookup_filter_Some. cbn [fst snd].
  split; intros [Hk H']; (split; [done|]).
  - apply H'. apply elem_of_session_list. by exists r.
  - intros e (r' & ? & ->)%elem_of_session_list. congruence.
Qed.

Lemma keys_elem now pattern t k :
  k ∈ (Logical.keys now pattern t).1 ↔
  ∃ r, t !! k = Some r ∧ expired now (expires_at r) = false ∧
       fnmatch k pattern = true.
Proof.
  unfold Logical.keys. rewrite keys_loop_result. cbn [app].
  rewrite list_elem_of_fmap. split.
  - intros ([k' e] & -> & [[??] Hin]%list_elem_of_filter). cbn in *.
    apply elem_of_session_list in Hin as (r & ? & ->). by exists r.
  - intros (r & ? & ? & ?). exists (k, expires_at r). split; [done|].
    apply list_elem_of_filter. split; [done|].
    apply elem_of_session_list. by exists r.
Qed.

Lemma keys_NoDup now pattern t : NoDup (Logical.keys now pattern t).1.
Proof.
  unfold Logical.keys. rewrite keys_loop_result. cbn [app].
  eapply sublist_NoDup; [|apply fmap_sublist, sublist_filter].
  unfold session_list. cbn. rewrite <-list_fmap_compose.
  rewrite (fmap_Permutation _ _ _ (scan_order_perm t)).
  apply NoDup_fst_map_to_list.
Qed.

End keys.

(** Two engines enumerate the same keys. *)
Lemma keys_perm (E1 E2 : Engine) `{F : Fnmatch} now pattern t :
  (@Logical.keys E1 F now pattern t).1 ≡ₚ (@Logical.keys E2 F now pattern t).1.
Proof.
  apply NoDup_Permutation; [apply keys_NoDup..|].
  intros k. by rewrite !keys_elem.
Qed.

Lemma purge_lookup_Some now t k r :
  Logical.purge now t !! k = Some r ↔
  t !! k = Some r ∧ expired now (expires_at r) = false.
Proof. unfold Logical.purge. by rewrite map_lookup_filter_Some. Qed.

Lemma get_absent now k t : t !! k = None → Logical.get now k t = (None, t).
Proof. intros H. unfold Logical.get. by rewrite H. Qed.

Lemma ttl_absent now k t : t !! k = None → Logical.ttl now k t = -2.
Proof. intros H. unfold Logical.ttl. by rewrite H. Qed.

Lemma get_set now k v t :
  Logical.get now k (Logical.set k v t) = (Some (blob_of v), Logical.set k v t).
Proof. unfold Logical.get, Logical.set. by rewrite lookup_insert_eq. Qed.

Lemma ttl_set now k v t : Logical.ttl now k (Logical.set k v t) = -1.
Proof. unfold Logical.ttl, Logical.set. by rewrite lookup_insert_eq. Qed.

(** An entry written with a non-positive ttl is expired at once. *)
Lemma get_setex_nonpositive now now' k v n t :
  n ≤ 0 → (now <= now')%Q →
  Logical.get now' k (Logical.setex now k v n t) = (None, delete k t).
Proof.
  intros Hn Hnow. unfold Logical.get, Logical.setex.
  rewrite lookup_insert_eq. cbn.
  assert (Qle_bool (now + float_of_int n) now' = true) as ->.
  { apply Qle_bool_iff. unfold float_of_int.
    assert (inject_Z n <= inject_Z 0)%Q by by rewrite <-Zle_Qle.
    change (inject_Z 0) with 0%Q in *. lra. }
  by rewrite delete_insert_eq.
Qed.

(** [int] of a float strictly between -1 and 1 is 0. *)
Lemma int_of_float_small x : (-1 < x)%Q → (x < 1)%Q → int_of_float x = 0.
Proof.
  destruct x as [p q]. unfold Qlt, int_of_float. cbn. intros Hlo Hhi.
  destruct (Z_le_gt_dec 0 p).
  - apply Z.quot_small. lia.
  - rewrite <-(Z.opp_involutive p), Z.quot_opp_l by lia.
    rewrite Z.quot_small; lia.
Qed.

(** [int] of a float at or below -1 is negative. *)
Lemma int_of_float_negative x : (x <= -1)%Q → int_of_float x < 0.
Proof.
  destruct x as [p q]. unfold Qle, int_of_float. cbn. intros Hle.
  assert (Z.pos q ≤ - p) by lia.
  rewrite <-(Z.opp_involutive p), Z.quot_opp_l by lia.
  assert (1 ≤ - p ÷ Z.pos q); [|lia].
  rewrite <-(Z.quot_same (Z.pos q)) by lia. apply Z.quot_le_mono; lia.
Qed.

(** [int] of a non-negative float is its floor. *)
Lemma int_of_float_nonnegative x :
  (0 <= x)%Q → int_of_float x = Qfloor x ∧ 0 ≤ int_of_float x.
Proof.
  destruct x as [p q]. unfold Qle, int_of_float, Qfloor. cbn. intros Hle.
  rewrite Z.quot_div_nonneg by lia. split; [done|].
  apply Z.div_pos; lia.
Qed.

(** What [ttl] returns, by the state of the record. *)
Lemma ttl_cases now k t :
  match t !! k with
  | None => Logical.ttl now k t = -2
  | Some r =>
      match expires_at r with
      | None => Logical.ttl now k t = -1
      | Some e =>
          ((now <= e)%Q → Logical.ttl now k t = Qfloor (e - now) ∧
                          0 ≤ Logical.ttl now k t) ∧
          ((now - 1 < e)%Q → (e < now)%Q → Logical.ttl now k t = 0) ∧
          ((e <= now - 1)%Q → Logical.ttl now k t = -2)
      end
  end.
Proof.
  unfold Logical.ttl. destruct (t !! k) as [[v [e|]]|]; cbn; [|done..].
  split_and!.
  - intros Hle. destruct (int_of_float_nonnegative (e - now)) as [-> ?]; [lra|].
    rewrite (proj2 (Z.leb_le _ _)) by lia. split; [done|lia].
  - intros ??. rewrite int_of_float_small; [done|lra..].
  - intros ?.
    rewrite (proj2 (Z.leb_gt _ _)); [done|]. apply int_of_float_negative. lra.
Qed.

(** The result of [ttl] is a sentinel or a non-negative count. *)
Lemma ttl_range now k t :
  Logical.ttl now k t = -2 ∨ Logical.ttl now k t = -1 ∨ 0 ≤ Logical.ttl now k t.
Proof.
  unfold Logical.ttl. destruct (t !! k) as [[v [e|]]|]; cbn; [|auto..].
  destruct (Z.leb_spec 0 (int_of_float (e - now))); auto.
Qed.

End LogicalFacts.

(** ** The SQLite backend computes [Logical] *)

Module SQLiteFacts.
Import SQLite SQLiteInv.

Lemma wf_world (s : state) t n :
  wf s → wf (s.1, World t n (live s.2) (fresh s.2)).
Proof. by destruct s as [b []]. Qed.

Lemma sqlite_wf_at_time now s : wf s → wf (at_time now s).
Proof. by destruct s as [b []]. Qed.

Lemma wf_init path timeout w : wf (Self path timeout ∅ ∅, w).
Proof. split; cbn; intros *; by rewrite lookup_empty. Qed.

(** A connection cached by a well-formed backend accepts statements. *)
Lemma wp_execute_cached {A} tid c (stmt : table → A * table)
    (Q : A → state → Prop) (s : state) :
  wf s → local_conn s.1 !! tid = Some c →
  Q (stmt (db s.2)).1
    (s.1, World (stmt (db s.2)).2 (clock s.2) (live s.2) (fresh s.2)) →
  wp (execute c stmt) Q s.
Proof.
  intros [Hl _] Hc HQ. apply wp_execute; [|done]. by apply (Hl tid).
Qed.

(** [_get_conn] returns, with the thread's connection cached, open and
    stamped with the reading of the clock, and leaves table, clock and idle
    timeout alone. *)
Lemma _get_conn_spec tid (s : state) :
  wf s →
  wp (_get_conn tid)
     (λ c s', wf s' ∧ db s'.2 = db s.2 ∧ clock s'.2 = clock s.2 ∧
              local_conn s'.1 !! tid = Some c ∧
              local_last_used s'.1 !! tid = Some (clock s.2) ∧
              idle_timeout s'.1 = idle_timeout s.1) s.
Proof.
  destruct s as [[path idle conns stamps] [t now l f]].
  intros [Hl Hinj]. cbn in Hl, Hinj. unfold _get_conn. wp_go. cbn.
  assert (Hfresh : ∀ tid' c', conns !! tid' = Some c' → c' ≠ f).
  { intros tid' c' H ->. destruct (Hl _ _ H) as (_ & ? & _). lia. }
  assert (Hopen : ∀ l' : gset nat,
    (∀ tid' c', tid' ≠ tid → conns !! tid' = Some c' → c' ∈ l') →
    wp (let! c := open_connection in
        execute c SQL.noop ;; execute c SQL.noop ;; commit c ;;
        self_set (set_local_conn tid c) ;; ret c)
       (λ c s', wp (self_set (set_local_last_used tid now) ;; ret c)
          (λ c s', wf s' ∧ db s'.2 = t ∧ clock s'.2 = now ∧
                   local_conn s'.1 !! tid = Some c ∧
                   local_last_used s'.1 !! tid = Some now ∧
                   idle_timeout s'.1 = idle) s')
       (Self path idle conns stamps, World t now l' f)).
  { intros l' Hl'. wp_go. cbn.
    do 3 (apply wp_bind; apply wp_execute;
          [by apply elem_of_union_l, elem_of_singleton|]; cbn).
    wp_go. cbn.
    split_and!; [|done|done|by rewrite lookup_insert_eq
                |by rewrite lookup_insert_eq|done].
    split; cbn.
    - intros tid' c'. rewrite lookup_insert. case_decide as E.
      + intros [= <-]. subst tid'.
        split_and!; [by apply elem_of_union_l, elem_of_singleton|lia|].
        by rewrite lookup_insert_eq.
      + intros Hc'. destruct (Hl _ _ Hc') as (? & ? & ?).
        split_and!; [apply elem_of_union_r; by apply (Hl' tid' c')|lia|].
        by rewrite lookup_insert_ne.
    - intros t1 t2 c'. rewrite !lookup_insert.
      destruct (decide (tid = t1)), (decide (tid = t2)); subst; try done.
      + intros [= <-] Hc'. by destruct (Hfresh _ _ Hc').
      + intros Hc' [= <-]. by destruct (Hfresh _ _ Hc').
      + apply Hinj. }
  destruct (conns !! tid) as [c|] eqn:Hc; cbn.
  - destruct (Qgt_bool _ _).
    + apply wp_bind. apply wp_bind. apply wp_try_pass, wp_conn_close. cbn.
      wp_go. apply wp_bind, Hopen. intros tid' c' Hne Hc'.
      destruct (Hl _ _ Hc') as (? & _).
      apply elem_of_difference. split; [done|].
      rewrite elem_of_singleton. intros ->. destruct Hne. by eapply Hinj.
    + wp_go. cbn. split_and!; [|done|done|done|by rewrite lookup_insert_eq|done].
      split; cbn; [|done]. intros tid' c' Hc'.
      destruct (Hl _ _ Hc') as (? & ? & ?). split_and!; [done..|].
      rewrite lookup_insert. case_decide; [by eexists|done].
  - wp_go. apply wp_bind, Hopen. intros tid' c' _ Hc'. by destruct (Hl _ _ Hc').
Qed.

Ltac with_conn c s1 H :=
  apply wp_bind; eapply wp_mono; [by apply _get_conn_spec|];
  intros c s1 H; cbn beta; destruct H as (? & ? & ? & ? & ? & ?).

Ltac run_stmt tid :=
  eapply (wp_execute_cached tid);
  [first [done | by apply wf_world] | by cbn | cbn beta].

(** One statement on the thread's connection, then [commit]. *)
Lemma stmt_commit_spec tid (stmt : table → unit * table) (s : state) :
  wf s →
  wp (let! conn := _get_conn tid in execute conn stmt ;; commit conn)
     (λ _, leaves (stmt (db s.2)).2 (clock s.2)) s.
Proof.
  intros Hwf. with_conn c s1 H. apply wp_bind. run_stmt tid.
  run_stmt tid. cbn.
  split_and!; [by apply wf_world|cbn; congruence..].
Qed.

Lemma sqlite_set_spec tid k v (s : state) :
  wf s →
  wp (set tid k v) (λ _, leaves (Logical.set k v (db s.2)) (clock s.2)) s.
Proof. apply (stmt_commit_spec tid (SQL.session_set k (blob_of v) None)). Qed.

Lemma sqlite_delete_spec tid k (s : state) :
  wf s →
  wp (delete tid k) (λ _, leaves (base.delete k (db s.2)) (clock s.2)) s.
Proof. apply (stmt_commit_spec tid (SQL.session_delete k)). Qed.

Lemma sqlite_setex_spec tid k v n (s : state) :
  wf s → float_overflows n = false →
  wp (setex tid k v n)
     (λ _, leaves (Logical.setex (clock s.2) k v n (db s.2)) (clock s.2)) s.
Proof.
  intros Hwf Hn. unfold setex. wp_go. apply wp_bind.
  apply wp_float_add_int; [done|].
  apply (stmt_commit_spec tid (SQL.session_set k (blob_of v) _) s Hwf).
Qed.

(** [setex] with a ttl that does not convert to a float raises before it
    touches anything. *)
Lemma sqlite_setex_overflow tid k v n (s : state) :
  float_overflows n = true → setex tid k v n s = (Raise OverflowError, s).
Proof.
  intros Hn. unfold setex, bind, time_time, float_add_int. cbn. by rewrite Hn.
Qed.

Lemma sqlite_get_spec tid k (s : state) :
  wf s →
  wp (get tid k)
     (λ r s', r = (Logical.get (clock s.2) k (db s.2)).1 ∧
              leaves (Logical.get (clock s.2) k (db s.2)).2 (clock s.2) s') s.
Proof.
  intros Hwf. unfold get. with_conn c s1 H. apply wp_bind. run_stmt tid.
  cbn. unfold Logical.get. replace (db s1.2) with (db s.2) by done.
  set (s2 := (s1.1, _)). assert (wf s2) by by apply wf_world.
  destruct (db s.2 !! k) as [[v e]|] eqn:Hk; cbn.
  - wp_go. cbn [clock snd s2]. replace (clock s1.2) with (clock s.2) by done.
    destruct (expired (clock s.2) e); cbn.
    + apply wp_bind. eapply wp_mono; [by apply sqlite_delete_spec|].
      intros _ s3 (? & ? & ?). wp_go. split; [done|].
      split_and!; [done|cbn in *; congruence..].
    + wp_go. split; [done|]. split_and!; [done|cbn; congruence..].
  - wp_go. split; [done|]. split_and!; [done|cbn; congruence..].
Qed.

Lemma sqlite_exists_spec tid k (s : state) :
  wf s →
  wp (exists_ tid k)
     (λ r s', r = (Logical.exists_ (clock s.2) k (db s.2)).1 ∧
              leaves (Logical.exists_ (clock s.2) k (db s.2)).2 (clock s.2) s') s.
Proof.
  intros Hwf. unfold exists_. apply wp_bind.
  eapply wp_mono; [by apply sqlite_get_spec|]. intros r s' [-> ?]. by wp_go.
Qed.

Lemma sqlite_ttl_spec tid k (s : state) :
  wf s →
  wp (ttl tid k)
     (λ r s', r = Logical.ttl (clock s.2) k (db s.2) ∧
              leaves (db s.2) (clock s.2) s') s.
Proof.
  intros Hwf. unfold ttl. with_conn c s1 H. apply wp_bind. run_stmt tid.
  cbn. unfold Logical.ttl. replace (db s1.2) with (db s.2) by done.
  set (s2 := (s1.1, _)). assert (leaves (db s.2) (clock s.2) s2).
  { split_and!; [by apply wf_world|cbn; congruence..]. }
  destruct (db s.2 !! k) as [[v [e|]]|] eqn:Hk; cbn; wp_go; [|done..].
  cbn. replace (clock s1.2) with (clock s.2) by done. done.
Qed.

(** *** The scan of [keys] while the thread keeps its connection *)

Lemma holds_world tid c (s : state) t :
  holds tid c s → holds tid c (s.1, World t (clock s.2) (live s.2) (fresh s.2)).
Proof. by destruct s as [b []]. Qed.

(** With the connection held, [_get_conn] changes nothing. *)
Lemma _get_conn_held tid c (s : state) :
  holds tid c s → _get_conn tid s = (Return c, s).
Proof.
  destruct s as [[path idle conns stamps] [t now l f]].
  intros (Hc & _ & Hts & Hidle). cbn in *.
  unfold _get_conn, bind, time_time, self_get, self_set, ret. cbn.
  rewrite Hc, Hts. cbn.
  assert (Qgt_bool (now - now) idle = false) as ->.
  { unfold Qgt_bool. apply negb_false_iff, Qle_bool_iff. lra. }
  cbn. unfold set_local_last_used. cbn. by rewrite insert_id.
Qed.

(** With the connection held, a statement and its commit only change the
    table. *)
Lemma stmt_commit_held tid c (stmt : table → unit * table) (s : state) :
  holds tid c s →
  (let! conn := _get_conn tid in execute conn stmt ;; commit conn) s =
  (Return tt,
   (s.1, World (stmt (db s.2)).2 (clock s.2) (live s.2) (fresh s.2))).
Proof.
  intros Hh. rewrite (bind_return _ _ c s s) by by apply _get_conn_held.
  destruct Hh as (_ & Hl & _). destruct s as [b [t now l f]]. cbn in *.
  unfold bind, commit, execute, conn_execute. cbn.
  rewrite decide_True by done. destruct (stmt t) as [[] t']. cbn.
  by rewrite decide_True by done.
Qed.

Lemma cursor_next_live c (s : state) :
  c ∈ live s.2 → cursor_next c s = (Return tt, s).
Proof.
  intros Hl. destruct s as [b [t now l f]].
  unfold cursor_next, execute, conn_execute. cbn in *.
  by rewrite decide_True by done.
Qed.

Lemma cursor_next_closed c (s : state) :
  c ∉ live s.2 → cursor_next c s = (Raise ProgrammingError, s).
Proof.
  intros Hl. unfold cursor_next, execute, conn_execute. cbv zeta.
  by rewrite decide_False by done.
Qed.

(** While the thread holds the connection of the cursor, the loop of [keys]
    computes [Logical.keys_loop] and only changes the table. *)
Lemma keys_loop_held `{Fnmatch} tid c pattern now rows result (s : state) :
  holds tid c s → clock s.2 = now →
  keys_loop tid c pattern now rows result s =
  (Return (Logical.keys_loop pattern now rows result (db s.2)).1,
   (s.1, World (Logical.keys_loop pattern now rows result (db s.2)).2
               (clock s.2) (live s.2) (fresh s.2))).
Proof.
  revert result s. induction rows as [|[key e] rows IH]; intros result s Hh Hclk.
  - cbn. rewrite (bind_return _ _ tt s s) by (apply cursor_next_live, Hh).
    by destruct s as [b []].
  - cbn. rewrite (bind_return _ _ tt s s) by (apply cursor_next_live, Hh).
    destruct (expired now e).
    + erewrite bind_return; [|by apply (stmt_commit_held tid c)].
      rewrite IH; [done|by apply holds_world|done].
    + destruct (fnmatch key pattern); by apply IH.
Qed.

Lemma sqlite_keys_spec `{Engine} `{Fnmatch} tid pattern (s : state) :
  wf s → (0 <= idle_timeout s.1)%Q →
  wp (keys tid pattern)
     (λ r s', r = (Logical.keys (clock s.2) pattern (db s.2)).1 ∧
              leaves (Logical.keys (clock s.2) pattern (db s.2)).2 (clock s.2) s') s.
Proof.
  intros Hwf Hidle. unfold keys. with_conn c s1 H'. apply wp_bind. run_stmt tid.
  cbn. wp_go. cbn.
  set (s2 := (s1.1, _)).
  assert (holds tid c s2) as Hh.
  { split_and!; cbn; [done| |congruence|congruence].
    destruct H1 as [Hl _]. by destruct (Hl _ _ H4). }
  eapply wp_run; [by apply keys_loop_held|]. cbn.
  unfold Logical.keys. cbn.
  replace (db s1.2) with (db s.2) by done.
  replace (clock s1.2) with (clock s.2) by done.
  split; [done|]. split_and!; [by apply wf_world|done..].
Qed.

(** *** The scan of [keys] in any state

    Whatever the idle timeout, and whether the scan ends or raises, it only
    removes rows, and only rows that it read as expired. *)
Lemma keys_loop_shrinks `{Fnmatch} tid c pattern now rows result (s : state) :
  wf s → clock s.2 = now →
  let t' := db (keys_loop tid c pattern now rows result s).2.2 in
  ∀ k r,
    (t' !! k = Some r → db s.2 !! k = Some r) ∧
    (db s.2 !! k = Some r → (∀ e, (k, e) ∈ rows → expired now e = false) →
     t' !! k = Some r).
Proof.
  revert result s. induction rows as [|[key e] rows IH];
    intros result s Hwf Hclk t' k r; subst t'; cbn.
  - destruct (decide (c ∈ live s.2)) as [Hl|Hl].
    + rewrite (bind_return _ _ tt s s) by by apply cursor_next_live.
      cbn. split; [done|]. by intros.
    + rewrite (bind_raise _ _ ProgrammingError s s) by by apply cursor_next_closed.
      cbn. split; [done|]. by intros.
  - assert (∀ s1 : state, wf s1 → clock s1.2 = now → db s1.2 = db s.2 →
      ∀ res,
      (db (keys_loop tid c pattern now rows res s1).2.2 !! k = Some r →
       db s.2 !! k = Some r) ∧
      (db s.2 !! k = Some r →
       (∀ e0, (k, e0) ∈ (key, e) :: rows → expired now e0 = false) →
       db (keys_loop tid c pattern now rows res s1).2.2 !! k = Some r)) as Hskip.
    { intros s1 Hwf1 Hclk1 Hdb1 res.
      destruct (IH res s1 Hwf1 Hclk1 k r) as [Ha Hb]. rewrite Hdb1 in Ha, Hb.
      split; [done|]. intros Hk He. apply Hb; [done|].
      intros e0 ?. apply He. by right. }
    destruct (decide (c ∈ live s.2)) as [Hl|Hl].
    + rewrite (bind_return _ _ tt s s) by by apply cursor_next_live.
      destruct (expired now e) eqn:Hexp.
      * destruct (sqlite_delete_spec tid key s Hwf)
          as ([] & s1 & E & Hwf1 & Hdb1 & Hclk1).
        rewrite (bind_return _ _ tt s s1) by done.
        destruct (IH result s1 Hwf1 ltac:(congruence) k r) as [Ha Hb].
        rewrite Hdb1 in Ha, Hb. split.
        -- intros Hk. by apply Ha, lookup_delete_Some in Hk as [_ ?].
        -- intros Hk He. apply Hb.
           ++ apply lookup_delete_Some. split; [|done]. intros ->.
              specialize (He e (list_elem_of_here _ _)). congruence.
           ++ intros e0 ?. apply He. by right.
      * destruct (fnmatch key pattern); by apply Hskip.
    + rewrite (bind_raise _ _ ProgrammingError s s) by by apply cursor_next_closed.
      cbn. split; [done|]. by intros.
Qed.

Lemma keys_shrinks `{Engine} `{Fnmatch} tid pattern (s : state) :
  wf s →
  let t' := db (keys tid pattern s).2.2 in
  ∀ k r,
    (t' !! k = Some r → db s.2 !! k = Some r) ∧
    (db s.2 !! k = Some r → expired (clock s.2) (expires_at r) = false →
     t' !! k = Some r).
Proof.
  intros Hwf t' k r. subst t'.
  destruct (_get_conn_spec tid s Hwf)
    as (c & s1 & E & Hwf1 & Hdb1 & Hclk1 & Hc & _).
  assert (c ∈ live s1.2) as Hl by (destruct Hwf1 as [Hl _]; by destruct (Hl _ _ Hc)).
  assert (keys tid pattern s =
          keys_loop tid c pattern (clock s1.2) (session_list (db s1.2)).1 []
            (s1.1, World (db s1.2) (clock s1.2) (live s1.2) (fresh s1.2))) as ->.
  { unfold keys. rewrite (bind_return _ _ c s s1) by done.
    unfold bind, execute, conn_execute, time_time. cbv zeta.
    by rewrite decide_True by done. }
  destruct (keys_loop_shrinks tid c pattern (clock s1.2)
              (session_list (db s1.2)).1 [] _
              (wf_world s1 (db s1.2) (clock s1.2) Hwf1) eq_refl k r) as [Ha Hb].
  cbn [db snd] in Ha, Hb. rewrite Hdb1 in Ha, Hb. rewrite Hdb1, <-Hclk1.
  split; [done|]. intros Hk He. apply Hb; [done|].
  intros e (r' & Hk' & ->)%LogicalFacts.elem_of_session_list.
  rewrite Hclk1. congruence.
Qed.

Lemma sqlite_close_spec tid (s : state) :
  wf s →
  wp (close tid)
     (λ _ s', leaves (db s.2) (clock s.2) s' ∧
              local_conn s'.1 !! tid = None ∧
              (∀ c, local_conn s.1 !! tid = Some c → c ∉ live s'.2) ∧
              (∀ tid' c, tid' ≠ tid → local_conn s.1 !! tid' = Some c →
                 local_conn s'.1 !! tid' = Some c ∧ c ∈ live s'.2)) s.
Proof.
  destruct s as [[path idle conns stamps] [t now l f]].
  intros [Hl Hinj]. cbn in Hl, Hinj. unfold close. wp_go. cbn.
  destruct (conns !! tid) as [c|] eqn:Hc.
  - destruct (Hl _ _ Hc) as (? & ? & [ts Hts]).
    unfold del_local_conn, del_local_last_used. wp_flat. cbn. rewrite Hc.
    wp_flat. cbn. rewrite Hts. wp_flat. cbn.
    assert (Hother : ∀ tid' c', tid' ≠ tid → conns !! tid' = Some c' →
              c' ∈ l ∖ {[c]}).
    { intros tid' c' Hne Hc'. destruct (Hl _ _ Hc') as (? & _).
      apply elem_of_difference. split; [done|].
      rewrite elem_of_singleton. intros ->. destruct Hne. by eapply Hinj. }
    unfold leaves. split_and!; [|done|done|by rewrite lookup_delete_eq| |].
    + split; cbn.
      * intros tid' c'. rewrite lookup_delete_Some. intros [Hne Hc'].
        destruct (Hl _ _ Hc') as (? & ? & ?).
        split_and!; [by eapply Hother|done|by rewrite lookup_delete_ne].
      * intros t1 t2 c'. rewrite !lookup_delete_Some.
        intros [_ ?] [_ ?]. by eapply Hinj.
    + intros c' [= <-]. rewrite elem_of_difference, elem_of_singleton.
      by intros [_ []].
    + intros tid' c' Hne Hc'. split; [by rewrite lookup_delete_ne|].
      by eapply Hother.
  - wp_go. split_and!; [done..| |].
    + by intros c.
    + intros tid' c' _ Hc'. split; [done|]. by destruct (Hl _ _ Hc').
Qed.

(** [close] in a thread that caches no connection changes nothing. *)
Lemma sqlite_close_again tid (s : state) :
  local_conn s.1 !! tid = None → close tid s = (Return tt, s).
Proof. intros Hc. unfold close, bind, self_get. cbn. by rewrite Hc. Qed.

Lemma sqlite_wp_fmap_M {A C} (f : A → C) (m : M SQLiteBackend A) Q (s : state) :
  wp m (λ a s', Q (f a) s') s → wp (fmap_M f m) Q s.
Proof.
  intros H. apply wp_bind. eapply wp_mono; [done|]. intros a s' ?. by wp_go.
Qed.

(** *** No method writes the configuration *)

Section config.
Context (P : SQLiteBackend → Prop).
Hypothesis P_config : ∀ b conns stamps,
  P b → P (Self (db_path b) (idle_timeout b) conns stamps).

Lemma _get_conn_keeps tid : keeps P (_get_conn tid).
Proof.
  unfold _get_conn. keeps_go.
  - destruct a0 as [c|]; [|keeps_go].
    destruct (Qgt_bool _ _); keeps_go.
  - destruct a3 as [c|]; keeps_go.
    apply keeps_self_set. intros b. apply P_config.
  - apply keeps_self_set. intros b. apply P_config.
Qed.

Lemma stmt_commit_keeps tid (stmt : table → unit * table) :
  keeps P (let! conn := _get_conn tid in execute conn stmt ;; commit conn).
Proof. apply keeps_bind; [apply _get_conn_keeps|]. intros c. keeps_go. Qed.

Lemma get_keeps tid k : keeps P (get tid k).
Proof.
  unfold get. apply keeps_bind; [apply _get_conn_keeps|]. intros c. keeps_go.
  destruct a as [[v e]|]; [|apply keeps_ret].
  apply keeps_bind; [apply keeps_time_time|]. intros now.
  destruct (expired _ _); [|apply keeps_ret].
  apply keeps_bind; [apply stmt_commit_keeps|]. intros _. apply keeps_ret.
Qed.

Lemma keys_loop_keeps `{Fnmatch} tid c pattern now rows result :
  keeps P (keys_loop tid c pattern now rows result).
Proof.
  revert result. induction rows as [|[key e] rows IH]; intros result; cbn.
  - keeps_go.
  - keeps_go. destruct (expired now e).
    + apply keeps_bind; [apply stmt_commit_keeps|]. intros _. apply IH.
    + destruct (fnmatch key pattern); apply IH.
Qed.

Lemma keys_keeps `{Engine} `{Fnmatch} tid pattern : keeps P (keys tid pattern).
Proof.
  unfold keys. apply keeps_bind; [apply _get_conn_keeps|]. intros ?. keeps_go.
  apply keys_loop_keeps.
Qed.

Lemma sqlite_call_keeps `{Engine} `{Fnmatch} (c : call) : keeps P (sqlite_call c).
Proof.
  unfold sqlite_call, fmap_M. destruct (what c) as [| | | | | | |];
    (apply keeps_bind; [|intros ?; apply keeps_ret]).
  - apply stmt_commit_keeps.
  - unfold setex. keeps_go. apply _get_conn_keeps.
  - apply get_keeps.
  - apply stmt_commit_keeps.
  - unfold exists_. apply keeps_bind; [apply get_keeps|]. intros ?. keeps_go.
  - unfold ttl. apply keeps_bind; [apply _get_conn_keeps|]. intros ?. keeps_go.
    destruct a0 as [[e|]|]; keeps_go.
  - apply keys_keeps.
  - apply keys_keeps.
Qed.

Lemma close_keeps tid : keeps P (close tid).
Proof.
  unfold close. keeps_go. destruct a as [c|]; [|keeps_go].
  unfold del_local_conn, del_local_last_used. keeps_go;
    (match goal with |- keeps _ (match ?x with _ => _ end) => destruct x end;
     [|keeps_go]; apply keeps_self_set; intros b; apply P_config).
Qed.

End config.

(** Every call leaves the idle timeout as it was. *)
Lemma sqlite_call_idle_timeout `{Engine} `{Fnmatch} (c : call) (s : state) :
  idle_timeout (sqlite_call c s).2.1 = idle_timeout s.1.
Proof.
  by apply (sqlite_call_keeps (λ b, idle_timeout b = idle_timeout s.1)).
Qed.

Lemma sqlite_keys_idle_timeout `{Engine} `{Fnmatch} tid pattern (s : state) :
  idle_timeout (keys tid pattern s).2.1 = idle_timeout s.1.
Proof.
  by apply (keys_keeps (λ b, idle_timeout b = idle_timeout s.1)).
Qed.

(** Every call computes [logical_call]. *)
Lemma sqlite_call_spec `{Engine} `{Fnmatch} (c : call) (s : state) :
  wf s → is_Some (key_of (what c)) ∨ (0 <= idle_timeout s.1)%Q →
  (sqlite_call c s).1 = (logical_call (clock s.2) (what c) (db s.2)).1 ∧
  leaves (logical_call (clock s.2) (what c) (db s.2)).2 (clock s.2)
         (sqlite_call c s).2.
Proof.
  intros Hwf Hidle.
  assert (Hwp : ∀ (r : result) (t : table),
            wp (sqlite_call c) (λ r' s', r' = r ∧ leaves t (clock s.2) s') s →
            (sqlite_call c s).1 = Return r ∧ leaves t (clock s.2) (sqlite_call c s).2).
  { intros r t (r' & s' & E & -> & ?). by rewrite E. }
  unfold logical_call.
  destruct (what c) as [k v|k v n|k|k|k|k|p|p] eqn:Hc; cbn [fst snd];
    try (apply Hwp; unfold sqlite_call; rewrite Hc; apply sqlite_wp_fmap_M).
  - eapply wp_mono; [by apply sqlite_set_spec|]. by intros [] s' ?.
  - destruct (float_overflows n) eqn:Hn; cbn [fst snd].
    + unfold sqlite_call, fmap_M. rewrite Hc.
      rewrite (bind_raise _ _ OverflowError s s)
        by by apply sqlite_setex_overflow.
      split; [done|]. by split_and!.
    + apply Hwp. unfold sqlite_call. rewrite Hc. apply sqlite_wp_fmap_M.
      eapply wp_mono; [by apply sqlite_setex_spec|]. by intros [] s' ?.
  - eapply wp_mono; [by apply sqlite_get_spec|]. by intros r s' [-> ?].
  - eapply wp_mono; [by apply sqlite_delete_spec|]. by intros [] s' ?.
  - eapply wp_mono; [by apply sqlite_exists_spec|]. by intros r s' [-> ?].
  - eapply wp_mono; [by apply sqlite_ttl_spec|]. by intros r s' [-> ?].
  - destruct Hidle as [[? [=]]|Hidle].
    eapply wp_mono; [by apply sqlite_keys_spec|]. by intros r s' [-> ?].
  - destruct Hidle as [[? [=]]|Hidle].
    eapply wp_mono; [by apply sqlite_keys_spec|]. by intros r s' [-> ?].
Qed.

Lemma sqlite_on_wf t now : wf (sqlite_on t now).
Proof. apply wf_init. Qed.

Lemma sqlite_on_file t now : on_file (sqlite_on t now).
Proof. by split. Qed.

End SQLiteFacts.

(** ** The PostgreSQL backend computes [Logical] *)

Module PostgreSQLFacts.
Import PostgreSQL PostgreSQLInv.

(** *** Tables that PostgreSQL can hold *)

Lemma text_keys_lookup t k r : text_keys t → t !! k = Some r → no_nul k = true.
Proof. intros Ht Hk. by apply (Ht k r). Qed.

Lemma text_keys_empty : text_keys ∅.
Proof. apply map_Forall_empty. Qed.

Lemma text_keys_insert t k r :
  no_nul k = true → text_keys t → text_keys (<[k := r]> t).
Proof. intros ??. by apply map_Forall_insert_2. Qed.

Lemma text_keys_delete t k : text_keys t → text_keys (base.delete k t).
Proof. intros Ht. by apply map_Forall_delete. Qed.

Lemma text_keys_get now k t : text_keys t → text_keys (Logical.get now k t).2.
Proof.
  intros Ht. unfold Logical.get. destruct (t !! k) as [r|]; [|done].
  destruct (expired now (expires_at r)); [by apply text_keys_delete|done].
Qed.

Lemma text_keys_keys `{Engine} `{Fnmatch} now pattern t :
  text_keys t → text_keys (Logical.keys now pattern t).2.
Proof.
  intros Ht. rewrite LogicalFacts.keys_table. intros k r.
  rewrite LogicalFacts.purge_lookup_Some. intros [? _]. by apply (Ht k r).
Qed.

Lemma text_keys_logical_call `{Engine} `{Fnmatch} now o t :
  text_keys t → nul_free o = true → text_keys (logical_call now o t).2.
Proof.
  intros Ht Ho. destruct o as [k v|k v n|k|k|k|k|p|p]; cbn in *.
  - by apply text_keys_insert.
  - destruct (float_overflows n); [done|]. by apply text_keys_insert.
  - by apply text_keys_get.
  - by apply text_keys_delete.
  - by apply text_keys_get.
  - done.
  - by apply text_keys_keys.
  - by apply text_keys_keys.
Qed.

(** *** The pool *)

Lemma pool_ok_at_time now s : pool_ok s → pool_ok (at_time now s).
Proof. by destruct s as [b []]. Qed.

Lemma pg_wf_at_time now s : wf s → wf (at_time now s).
Proof. by destruct s as [b []]. Qed.

Lemma is_open_at_time now s : is_open s → is_open (at_time now s).
Proof. done. Qed.

Lemma wf_leaves t now s : leaves t now s → text_keys t → wf s.
Proof. intros (? & _ & <- & _) ?. by split. Qed.

Lemma wp_execute_live {B A} c (stmt : table → A * table)
    (Q : A → B * world → Prop) (s : B * world) :
  c ∈ live s.2 →
  Q (stmt (db s.2)).1
    (s.1, World (stmt (db s.2)).2 (clock s.2) (live s.2) (fresh s.2)) →
  wp (execute c stmt) Q s.
Proof. apply wp_execute. Qed.

(** The connection factory returns a fresh open connection. *)
Lemma connection_spec {B} (Q : nat → B * world → Prop) (s : B * world) :
  Q (fresh s.2)
    (s.1, World (db s.2) (clock s.2) ({[fresh s.2]} ∪ live s.2) (S (fresh s.2))) →
  wp connection Q s.
Proof.
  intros HQ. unfold connection. wp_go.
  do 3 (apply wp_bind; apply wp_execute_live;
        [by apply elem_of_union_l, elem_of_singleton|]; cbn).
  by wp_go.
Qed.

(** [_get_conn] on a pool in order: a connection of the pool, open, is
    checked out, and nothing else changes but the set of open connections
    when the pool had to make one. *)
Lemma pg__get_conn_spec (s : state) :
  pool_ok s → is_open s →
  wp _get_conn
     (λ c s', ∃ p rest,
        pool_attr s.1 = Some p ∧
        s'.1 = set_pool (Some (Pool (minconn p) (maxconn p) rest [c] false)) s.1 ∧
        db s'.2 = db s.2 ∧ clock s'.2 = clock s.2 ∧
        c ∈ live s'.2 ∧ (c < fresh s'.2)%nat ∧ (c ∉ rest) ∧ NoDup rest ∧
        (∀ c', c' ∈ rest → c' ∈ live s'.2 ∧ (c' < fresh s'.2)%nat)) s.
Proof.
  destruct s as [[url [[minc maxc idle used closed]|] timeout] [t now l f]];
    intros Hwf Hopen; [|done].
  destruct Hwf as (Hc & Hu & Hmax & Hnd & Hlive). cbn in *. subst.
  unfold _get_conn. apply wp_bind. wp_go. cbn.
  unfold getconn; cbn. apply wp_bind. destruct idle as [|c rest].
  - rewrite decide_False by done. apply wp_bind, connection_spec. wp_go. cbn.
    apply wp_bind, wp_execute_live; [by apply elem_of_union_l, elem_of_singleton|].
    wp_go. cbn. eexists _, []. do 4 (split; [done|]).
    split; [by apply elem_of_union_l, elem_of_singleton|]. split; [lia|].
    split; [by intros ?%elem_of_nil|]. split; [constructor|].
    by intros c' ?%elem_of_nil.
  - wp_go. cbn. apply NoDup_cons in Hnd as [??].
    destruct (Hlive c) as [??]; [by left|].
    apply wp_bind, wp_execute_live; [done|]. wp_go. cbn.
    eexists _, rest. do 8 (split; [done|]). intros c' ?. apply Hlive. by right.
Qed.

(** A statement whose parameters psycopg2 accepts runs, is committed, and
    its connection goes back to the pool. *)
Lemma _pooled_execute_stmt_spec {A} params (stmt : table → A * table) (s : state) :
  pool_ok s → is_open s → forallb no_nul params = true →
  wp (_pooled_execute_stmt params stmt)
     (λ a s', a = (stmt (db s.2)).1 ∧
              leaves (stmt (db s.2)).2 (clock s.2) s') s.
Proof.
  intros Hwf Hopen Hparams. unfold _pooled_execute_stmt. apply wp_bind.
  eapply wp_mono; [by apply pg__get_conn_spec|].
  intros c [b [t now l f]]
    (p & rest & Hp & Hb & Hdb & Hclk & Hcl & Hcf & Hcr & Hndr & Hr).
  cbn in *. subst b t now. unfold cursor, cur_execute. rewrite Hparams.
  apply wp_bind, wp_execute_live; [done|]. cbn.
  apply wp_bind, wp_execute_live; [done|]. cbn.
  apply wp_bind, wp_execute_live; [done|]. cbn.
  unfold _put_conn. apply wp_bind. wp_go. cbn.
  unfold putconn. cbn. rewrite decide_True by apply list_elem_of_here.
  rewrite (decide_False (P := c ≠ c)) by (intros Hcc; by apply Hcc).
  destruct (decide (length rest < minconn p)%nat).
  - wp_go. cbn.
    rewrite bool_decide_false by (intros Hcc; by apply Hcc).
    split; [done|]. split_and!; [|done..].
    destruct s as [[url po tm] w]. cbn in *. subst po.
    destruct Hwf as (? & ? & ? & ? & ?). cbn in *.
    split_and!; [done..|by apply NoDup_cons|].
    intros c' [->|?]%elem_of_cons; auto.
  - wp_go. cbn. split; [done|]. split_and!; [|done..].
    destruct s as [[url po tm] w]. cbn in *. subst po.
    destruct Hwf as (? & ? & ? & ? & ?). cbn in *.
    split_and!; [done..|]. intros c' Hc'. destruct (Hr _ Hc').
    split; [|done]. apply elem_of_difference. split; [done|].
    rewrite elem_of_singleton. by intros ->.
Qed.

(** A statement with a [str] parameter that has a NUL character raises
    [ValueError] after its connection was checked out, and the connection
    is not given back. The table is as it was. *)
Lemma _pooled_execute_stmt_nul params (s : state) :
  pool_ok s → is_open s → forallb no_nul params = false →
  ∃ c s' p rest,
    (∀ A (stmt : table → A * table),
       _pooled_execute_stmt params stmt s = (Raise ValueError, s')) ∧
    pool_attr s.1 = Some p ∧
    s'.1 = set_pool (Some (Pool (minconn p) (maxconn p) rest [c] false)) s.1 ∧
    db s'.2 = db s.2 ∧ clock s'.2 = clock s.2 ∧ c ∈ live s'.2.
Proof.
  intros Hwf Hopen Hparams.
  destruct (pg__get_conn_spec s Hwf Hopen)
    as (c & s' & E & p & rest & Hp & Hb & Hdb & Hclk & Hcl & _).
  exists c, s', p, rest. split_and!; try done. intros A stmt.
  unfold _pooled_execute_stmt. rewrite (bind_return _ _ c s s') by done.
  unfold cursor, cur_execute. rewrite Hparams.
  unfold bind, execute, conn_execute. cbv zeta. rewrite decide_True by done.
  cbn. by destruct s' as [b' [t' now' l' f']].
Qed.

Ltac run_pooled a s1 :=
  apply wp_bind; eapply wp_mono;
  [apply _pooled_execute_stmt_spec; [done|done|by cbn; rewrite ?andb_true_r]|];
  intros a s1 [-> (? & ? & ? & ?)]; cbn beta.

Lemma pg_set_spec k v (s : state) :
  pool_ok s → is_open s → no_nul k = true →
  wp (set k v) (λ _, leaves (Logical.set k v (db s.2)) (clock s.2)) s.
Proof.
  intros ?? Hk. eapply wp_mono.
  { apply _pooled_execute_stmt_spec; [done..|]. cbn. by rewrite Hk. }
  by intros _ s' [_ ?].
Qed.

Lemma pg_delete_spec k (s : state) :
  pool_ok s → is_open s → no_nul k = true →
  wp (delete k) (λ _, leaves (base.delete k (db s.2)) (clock s.2)) s.
Proof.
  intros ?? Hk. eapply wp_mono.
  { apply _pooled_execute_stmt_spec; [done..|]. cbn. by rewrite Hk. }
  by intros _ s' [_ ?].
Qed.

Lemma pg_setex_spec k v n (s : state) :
  pool_ok s → is_open s → no_nul k = true → float_overflows n = false →
  wp (setex k v n)
     (λ _, leaves (Logical.setex (clock s.2) k v n (db s.2)) (clock s.2)) s.
Proof.
  intros ?? Hk Hn. unfold setex. wp_go. apply wp_bind.
  apply wp_float_add_int; [done|]. eapply wp_mono.
  { apply _pooled_execute_stmt_spec; [done..|]. cbn. by rewrite Hk. }
  by intros _ s' [_ ?].
Qed.

(** [setex] with a ttl that does not convert to a float raises before it
    touches anything. *)
Lemma pg_setex_overflow k v n (s : state) :
  float_overflows n = true → setex k v n s = (Raise OverflowError, s).
Proof.
  intros Hn. unfold setex, bind, time_time, float_add_int. cbn. by rewrite Hn.
Qed.

Lemma pg_get_spec k (s : state) :
  pool_ok s → is_open s → no_nul k = true →
  wp (get k)
     (λ r s', r = (Logical.get (clock s.2) k (db s.2)).1 ∧
              leaves (Logical.get (clock s.2) k (db s.2)).2 (clock s.2) s') s.
Proof.
  intros ?? Hk. unfold get. apply wp_bind. eapply wp_mono.
  { apply _pooled_execute_stmt_spec; [done..|]. cbn. by rewrite Hk. }
  intros a s1 [-> (? & ? & ? & ?)]; cbn beta.
  cbn in *. unfold Logical.get.
  destruct (db s.2 !! k) as [[v e]|] eqn:Hk'; cbn.
  - wp_go. replace (clock s1.2) with (clock s.2) by done.
    destruct (expired (clock s.2) e); cbn.
    + apply wp_bind. eapply wp_mono; [by apply pg_delete_spec|].
      intros _ s3 (? & ? & ? & ?). wp_go. split; [done|].
      split_and!; [done..|congruence|congruence].
    + by wp_go.
  - by wp_go.
Qed.

Lemma pg_exists_spec k (s : state) :
  pool_ok s → is_open s → no_nul k = true →
  wp (exists_ k)
     (λ r s', r = (Logical.exists_ (clock s.2) k (db s.2)).1 ∧
              leaves (Logical.exists_ (clock s.2) k (db s.2)).2 (clock s.2) s') s.
Proof.
  intros ???. unfold exists_. apply wp_bind.
  eapply wp_mono; [by apply pg_get_spec|]. intros r s' [-> ?]. by wp_go.
Qed.

Lemma pg_ttl_spec k (s : state) :
  pool_ok s → is_open s → no_nul k = true →
  wp (ttl k)
     (λ r s', r = Logical.ttl (clock s.2) k (db s.2) ∧
              leaves (db s.2) (clock s.2) s') s.
Proof.
  intros ?? Hk. unfold ttl. apply wp_bind. eapply wp_mono.
  { apply _pooled_execute_stmt_spec; [done..|]. cbn. by rewrite Hk. }
  intros a s1 [-> (? & ? & ? & ?)]; cbn beta.
  cbn in *. unfold Logical.ttl.
  destruct (db s.2 !! k) as [[v [e|]]|] eqn:Hk'; cbn; wp_go; [|done..].
  cbn. replace (clock s1.2) with (clock s.2) by done. done.
Qed.

(** An operation on a key with a NUL character raises [ValueError] and
    leaves the table as it was. *)
Lemma pg_get_nul k (s : state) :
  pool_ok s → is_open s → no_nul k = false →
  (get k s).1 = Raise ValueError ∧ db (get k s).2.2 = db s.2.
Proof.
  intros Hwf Hopen Hk.
  destruct (_pooled_execute_stmt_nul [k] s Hwf Hopen)
    as (c & s' & p & rest & E & _ & _ & Hdb & _); [cbn; by rewrite Hk|].
  unfold get. by rewrite (bind_raise _ _ ValueError s s') by apply E.
Qed.

Lemma pg_keys_loop_spec `{Fnmatch} pattern now rows result (s : state) :
  pool_ok s → is_open s → clock s.2 = now →
  (∀ k e, (k, e) ∈ rows → no_nul k = true) →
  wp (keys_loop pattern now rows result)
     (λ r s', r = (Logical.keys_loop pattern now rows result (db s.2)).1 ∧
              leaves (Logical.keys_loop pattern now rows result (db s.2)).2 now s') s.
Proof.
  revert result s.
  induction rows as [|[key e] rows IH]; intros result s Hwf Hopen Hclk Hrows.
  - cbn. by wp_go.
  - assert (∀ k e', (k, e') ∈ rows → no_nul k = true) as Hrows'
      by (intros k e' ?; apply (Hrows k e'); by right).
    cbn. destruct (expired now e).
    + apply wp_bind. eapply wp_mono.
      { apply pg_delete_spec; [done..|]. apply (Hrows key e). by left. }
      intros _ s1 (? & ? & <- & ?). apply IH; [done..|congruence|done].
    + destruct (fnmatch key pattern); by apply IH.
Qed.

Lemma pg_keys_spec `{Engine} `{Fnmatch} pattern (s : state) :
  wf s → is_open s →
  wp (keys pattern)
     (λ r s', r = (Logical.keys (clock s.2) pattern (db s.2)).1 ∧
              leaves (Logical.keys (clock s.2) pattern (db s.2)).2 (clock s.2) s') s.
Proof.
  intros [Hp Ht] ?. unfold keys. apply wp_bind. eapply wp_mono.
  { by apply _pooled_execute_stmt_spec. }
  intros a s1 [-> (? & ? & ? & ?)]; cbn beta.
  wp_go. cbn in *.
  unfold Logical.keys. cbn.
  replace (db s.2) with (db s1.2) by done.
  replace (clock s1.2) with (clock s.2) by done.
  apply pg_keys_loop_spec; [done..|].
  intros k e (r & Hk & _)%LogicalFacts.elem_of_session_list.
  apply (text_keys_lookup (db s.2) k r); [done|congruence].
Qed.

(** [close] on an open backend: the pool is dropped and every connection
    it held is closed. *)
Lemma pg_close_spec (s : state) :
  pool_ok s →
  wp close
     (λ _ s', pool_ok s' ∧ pool_attr s'.1 = None ∧
              db s'.2 = db s.2 ∧ clock s'.2 = clock s.2 ∧
              ∀ p c, pool_attr s.1 = Some p → c ∈ pooled p ++ used p →
                     c ∉ live s'.2) s.
Proof.
  destruct s as [[url [[minc maxc idle used closed]|] timeout] [t now l f]];
    intros Hwf; unfold close; wp_go; cbn; [|by wp_go].
  destruct Hwf as (Hc & Hu & _). cbn in *. subst.
  unfold closeall. cbn. rewrite app_nil_r.
  assert (Heach : ∀ conns (l' : gset nat),
    wp (close_each conns)
       (λ _ s', s'.1 = Self url None timeout ∧ db s'.2 = t ∧ clock s'.2 = now ∧
                ∀ c, c ∉ l' ∨ c ∈ conns → c ∉ live s'.2)
       (Self url None timeout, World t now l' f)).
  { induction conns as [|c conns IH]; intros l'; cbn.
    - wp_go. split_and!; [done..|]. by intros c [?|?%elem_of_nil].
    - apply wp_bind. apply wp_try_pass, wp_conn_close. cbn.
      eapply wp_mono; [apply IH|]. intros _ s' (? & ? & ? & Hl).
      split_and!; [done..|]. intros c' Hc'. apply Hl.
      rewrite elem_of_difference, elem_of_singleton.
      destruct (decide (c' = c)) as [->|]; [left; by intros [_ []]|].
      destruct Hc' as [?|[?|?]%elem_of_cons]; [left; by intros [? _]|done|by right]. }
  apply wp_bind. apply wp_bind. eapply wp_mono; [apply Heach|].
  intros _ [b w] (Hb & ? & ? & Hl). cbn in Hb. subst b. wp_go. cbn.
  split_and!; [done..|]. intros p c [= <-]. cbn. rewrite app_nil_r.
  intros ?. apply Hl. by right.
Qed.

(** [close] on a backend that was closed changes nothing. *)
Lemma pg_close_again (s : state) :
  pool_attr s.1 = None → close s = (Return tt, s).
Proof. intros Hp. unfold close, bind, self_get. cbn. by rewrite Hp. Qed.

Lemma pg_wp_fmap_M {A C} (f : A → C) (m : M PostgreSQLBackend A) Q (s : state) :
  wp m (λ a s', Q (f a) s') s → wp (fmap_M f m) Q s.
Proof.
  intros H. apply wp_bind. eapply wp_mono; [done|]. intros a s' ?. by wp_go.
Qed.

(** Every call with a key that PostgreSQL accepts computes [logical_call]. *)
Lemma postgresql_call_spec `{Engine} `{Fnmatch} (c : call) (s : state) :
  wf s → is_open s → nul_free (what c) = true →
  (postgresql_call c s).1 = (logical_call (clock s.2) (what c) (db s.2)).1 ∧
  leaves (logical_call (clock s.2) (what c) (db s.2)).2 (clock s.2)
         (postgresql_call c s).2 ∧
  wf (postgresql_call c s).2.
Proof.
  intros Hwf Hopen Hnul.
  assert (Hwp : ∀ (r : result) (t : table),
            t = (logical_call (clock s.2) (what c) (db s.2)).2 →
            wp (postgresql_call c) (λ r' s', r' = r ∧ leaves t (clock s.2) s') s →
            (postgresql_call c s).1 = Return r ∧
            leaves t (clock s.2) (postgresql_call c s).2 ∧
            wf (postgresql_call c s).2).
  { intros r t Ht (r' & s' & E & -> & Hl). rewrite E. split_and!; [done..|].
    apply (wf_leaves _ _ _ Hl). rewrite Ht.
    apply text_keys_logical_call; [apply Hwf|done]. }
  destruct Hwf as [Hp Ht]. revert Hwp. unfold logical_call, nul_free in *.
  destruct (what c) as [k v|k v n|k|k|k|k|p|p] eqn:Hc; cbn [fst snd key_of] in *;
    intros Hwp;
    try (apply Hwp; [done|]; unfold postgresql_call; rewrite Hc;
         apply pg_wp_fmap_M).
  - eapply wp_mono; [by apply pg_set_spec|]. by intros [] s' ?.
  - destruct (float_overflows n) eqn:Hn; cbn [fst snd] in *.
    + unfold postgresql_call, fmap_M. rewrite Hc.
      rewrite (bind_raise _ _ OverflowError s s) by by apply pg_setex_overflow.
      cbn. split; [done|]. split; [by split_and!|done].
    + apply Hwp; [done|]. unfold postgresql_call. rewrite Hc. apply pg_wp_fmap_M.
      eapply wp_mono; [by apply pg_setex_spec|]. by intros [] s' ?.
  - eapply wp_mono; [by apply pg_get_spec|]. by intros r s' [-> ?].
  - eapply wp_mono; [by apply pg_delete_spec|]. by intros [] s' ?.
  - eapply wp_mono; [by apply pg_exists_spec|]. by intros r s' [-> ?].
  - eapply wp_mono; [by apply pg_ttl_spec|]. by intros r s' [-> ?].
  - eapply wp_mono; [by apply pg_keys_spec|]. by intros r s' [-> ?].
  - eapply wp_mono; [by apply pg_keys_spec|]. by intros r s' [-> ?].
Qed.

(** [__init__] makes an open backend with its pool in order. *)
Lemma __init___spec url timeout (w : world) :
  wp (__init__ url timeout)
     (λ b s', pool_ok (b, s'.2) ∧ is_open (b, s'.2) ∧
              db s'.2 = db w ∧ clock s'.2 = clock w) (tt, w).
Proof.
  unfold __init__, ThreadedConnectionPool. cbn.
  apply wp_bind. apply wp_bind. apply wp_bind, connection_spec. wp_go. cbn.
  split; [|done]. split_and!; [done..|apply NoDup_singleton|].
  intros c ->%list_elem_of_singleton. split; [|lia].
  by apply elem_of_union_l, elem_of_singleton.
Qed.

Lemma postgresql_on_init t now :
  __init__ "postgresql:///derivagrps" 60 (tt, world_of t now) =
  (Return (postgresql_on t now).1, (tt, (postgresql_on t now).2)).
Proof.
  by vm_compute.
Qed.

Lemma postgresql_on_pool_ok t now : pool_ok (postgresql_on t now).
Proof.
  split_and!; [done..|apply NoDup_singleton|].
  intros c ->%list_elem_of_singleton. cbn. split; [|lia].
  by apply elem_of_singleton.
Qed.

Lemma postgresql_on_wf t now : text_keys t → wf (postgresql_on t now).
Proof. intros ?. split; [apply postgresql_on_pool_ok|done]. Qed.

Lemma postgresql_on_open t now : is_open (postgresql_on t now).
Proof. done. Qed.

End PostgreSQLFacts.

(** The keys of a table written out are free of NUL characters. *)
Ltac text_keys :=
  repeat first
    [ apply PostgreSQLFacts.text_keys_empty
    | apply map_Forall_singleton; reflexivity
    | apply PostgreSQLFacts.text_keys_insert; [reflexivity|] ].

(** * The storage contract *)

(** A [wp] whose postcondition names the returned value, read on the run. *)
Lemma wp_returns {B A} (m : M B A) (a : A) (P : B * world → Prop) (s : B * world) :
  wp m (λ r s', r = a ∧ P s') s → (m s).1 = Return a ∧ P (m s).2.
Proof. intros (r & s' & E & -> & HP). by rewrite E. Qed.

Lemma wp_returns_tt {B} (m : M B unit) (P : B * world → Prop) (s : B * world) :
  wp m (λ _ s', P s') s → (m s).1 = Return tt ∧ P (m s).2.
Proof. intros ([] & s' & E & HP). by rewrite E. Qed.

Section contract.
Local Open Scope string_scope.

(** C1, at the input where the code departs from it: a record whose
    [expires_at] lies less than one second in the past (or is exactly now)
    is expired, and [get] reports it absent, yet [ttl] returns 0 for it and
    not -2, on both backends. *)
Theorem C1_ttl_of_a_just_expired_key (tid : nat) (key : string) (r : row)
    (e : Q) (s1 : SQLite.state) (s2 : PostgreSQL.state) :
  SQLiteInv.wf s1 → PostgreSQLInv.wf s2 → PostgreSQLInv.is_open s2 →
  db s1.2 !! key = Some r → db s2.2 !! key = Some r →
  expires_at r = Some e →
  (e <= clock s1.2)%Q → (clock s1.2 - 1 < e)%Q →
  (e <= clock s2.2)%Q → (clock s2.2 - 1 < e)%Q →
  (expired (clock s1.2) (expires_at r) = true ∧
   (SQLite.get tid key s1).1 = Return None ∧
   (SQLite.ttl tid key s1).1 = Return 0) ∧
  (expired (clock s2.2) (expires_at r) = true ∧
   (PostgreSQL.get key s2).1 = Return None ∧
   (PostgreSQL.ttl key s2).1 = Return 0).
Proof.
  intros Hwf1 [Hp2 Ht2] Hopen Hk1 Hk2 He Hle1 Hlt1 Hle2 Hlt2.
  assert (Hnul := PostgreSQLFacts.text_keys_lookup _ _ _ Ht2 Hk2).
  assert (Httl : ∀ now t, t !! key = Some r → (e <= now)%Q → (now - 1 < e)%Q →
            expired now (expires_at r) = true ∧
            (Logical.get now key t).1 = None ∧ Logical.ttl now key t = 0).
  { intros now t Hk Hle Hlt.
    assert (expired now (expires_at r) = true) as Hexp.
    { rewrite He. by apply Qle_bool_iff. }
    split_and!; [done| |].
    - unfold Logical.get. by rewrite Hk, Hexp.
    - unfold Logical.ttl. rewrite Hk, He.
      rewrite LogicalFacts.int_of_float_small; [done|lra..]. }
  destruct (Httl _ _ Hk1 Hle1 Hlt1) as (? & Hg1 & Ht1).
  destruct (Httl _ _ Hk2 Hle2 Hlt2) as (? & Hg2 & Ht2').
  split; (split_and!; [done|..]).
  - rewrite <-Hg1. by apply (wp_returns _ _ _ _ (SQLiteFacts.sqlite_get_spec tid key s1 Hwf1)).
  - rewrite <-Ht1. by apply (wp_returns _ _ _ _ (SQLiteFacts.sqlite_ttl_spec tid key s1 Hwf1)).
  - rewrite <-Hg2.
    by apply (wp_returns _ _ _ _ (PostgreSQLFacts.pg_get_spec key s2 Hp2 Hopen Hnul)).
  - rewrite <-Ht2'.
    by apply (wp_returns _ _ _ _ (PostgreSQLFacts.pg_ttl_spec key s2 Hp2 Hopen Hnul)).
Qed.

Lemma C1_witness :
  let t : table := {["k" := Row [] (Some 100%Q)]} in
  let s1 := sqlite_on t (201 # 2) in
  let s2 := postgresql_on t (201 # 2) in
  (expired (201 # 2) (Some 100%Q) = true ∧
   (SQLite.get 0 "k" s1).1 = Return None ∧
   (SQLite.ttl 0 "k" s1).1 = Return 0) ∧
  (expired (201 # 2) (Some 100%Q) = true ∧
   (PostgreSQL.get "k" s2).1 = Return None ∧
   (PostgreSQL.ttl "k" s2).1 = Return 0).
Proof.
  intros t s1 s2.
  apply (C1_ttl_of_a_just_expired_key 0 "k" (Row [] (Some 100%Q)) 100%Q s1 s2);
    [ apply SQLiteFacts.sqlite_on_wf
    | apply PostgreSQLFacts.postgresql_on_wf; text_keys
    | apply PostgreSQLFacts.postgresql_on_open
    | reflexivity | reflexivity | reflexivity
    | vm_compute; discriminate | vm_compute; reflexivity
    | vm_compute; discriminate | vm_compute; reflexivity ].
Defined.




(** What a call computes does not depend on the engine's order of
    enumeration, except for the order of the keys returned. *)
Lemma logical_call_engines (E1 E2 : Engine) (F : Fnmatch) now o t :
  (@logical_call E1 F now o t).2 = (@logical_call E2 F now o t).2 ∧
  same_outcome (@logical_call E1 F now o t).1 (@logical_call E2 F now o t).1.
Proof.
  destruct o as [|k v n| | | | | |]; unfold logical_call; cbn [fst snd same_outcome];
    try done;
    [by destruct (float_overflows n)|..];
    (split; [by rewrite !LogicalFacts.keys_table|apply LogicalFacts.keys_perm]).
Qed.

(** A call raises exactly when it is a [setex] whose ttl does not convert
    to a float. *)
Lemma logical_call_outcome (E : Engine) (F : Fnmatch) now o t :
  if overflows o then (logical_call now o t).1 = Raise OverflowError
  else ∃ v, (logical_call now o t).1 = Return v.
Proof.
  destruct o as [|k v n| | | | | |]; cbn; try by eexists.
  destruct (float_overflows n); cbn; [done|by eexists].
Qed.




(** C4 fails for a key with a NUL character on the PostgreSQL backend:
    [set] raises [ValueError], nothing is stored, and [get] raises as
    well. *)
Lemma C4_nul_key_is_refused :
  let r2 := PostgreSQL.set nul_key (VBytes []) (postgresql_on ∅ 0) in
  r2.1 = Raise ValueError ∧
  db r2.2.2 !! nul_key = None ∧
  (PostgreSQL.get nul_key r2.2).1 = Raise ValueError.
Proof. repeat split; vm_compute; reflexivity. Qed.

(** C4, amended: after [set(k, v)], whatever record [k] had before,
    [get(k)] returns exactly the bytes [v] and [ttl(k)] returns -1, from any
    thread and at any time: on the SQLite backend (on a database file) for
    every key, on the PostgreSQL backend for every key without a NUL
    character. *)
Theorem C4_set_then_get_and_ttl (key : string) (v : bytes) (tid tid' : nat)
    (now now' : Q) (s1 : SQLite.state) (s2 : PostgreSQL.state) :
  SQLiteInv.wf s1 → SQLiteInv.on_file s1 →
  PostgreSQLInv.wf s2 → PostgreSQLInv.is_open s2 →
  let r1 := SQLite.set tid key (VBytes v) (at_time now s1) in
  let r2 := PostgreSQL.set key (VBytes v) (at_time now s2) in
  (r1.1 = Return tt ∧
   (SQLite.get tid' key (at_time now' r1.2)).1 = Return (Some v) ∧
   (SQLite.ttl tid' key (at_time now' r1.2)).1 = Return (-1)) ∧
  (no_nul key = true →
   r2.1 = Return tt ∧
   (PostgreSQL.get key (at_time now' r2.2)).1 = Return (Some v) ∧
   (PostgreSQL.ttl key (at_time now' r2.2)).1 = Return (-1)).
Proof.
  intros Hwf1 _ [Hp2 _] Hopen r1 r2. split.
  - destruct (wp_returns_tt _ _ _
      (SQLiteFacts.sqlite_set_spec tid key (VBytes v) _
         (SQLiteFacts.sqlite_wf_at_time now _ Hwf1))) as (E & Hwf & Hdb & _).
    fold r1 in E, Hwf, Hdb. apply (SQLiteFacts.sqlite_wf_at_time now') in Hwf.
    destruct (wp_returns _ _ _ _ (SQLiteFacts.sqlite_get_spec tid' key _ Hwf))
      as (Eg & _).
    destruct (wp_returns _ _ _ _ (SQLiteFacts.sqlite_ttl_spec tid' key _ Hwf))
      as (Et & _).
    cbn [at_time snd fst db clock] in *. rewrite Hdb in Eg, Et.
    rewrite LogicalFacts.get_set in Eg. rewrite LogicalFacts.ttl_set in Et.
    done.
  - intros Hnul.
    destruct (wp_returns_tt _ _ _
      (PostgreSQLFacts.pg_set_spec key (VBytes v) _
         (PostgreSQLFacts.pool_ok_at_time now _ Hp2)
         (PostgreSQLFacts.is_open_at_time now _ Hopen) Hnul))
      as (E & Hwf & Hop & Hdb & _).
    fold r2 in E, Hwf, Hop, Hdb.
    apply (PostgreSQLFacts.pool_ok_at_time now') in Hwf.
    apply (PostgreSQLFacts.is_open_at_time now') in Hop.
    destruct (wp_returns _ _ _ _ (PostgreSQLFacts.pg_get_spec key _ Hwf Hop Hnul))
      as (Eg & _).
    destruct (wp_returns _ _ _ _ (PostgreSQLFacts.pg_ttl_spec key _ Hwf Hop Hnul))
      as (Et & _).
    cbn [at_time snd fst db clock] in *. rewrite Hdb in Eg, Et.
    rewrite LogicalFacts.get_set in Eg. rewrite LogicalFacts.ttl_set in Et.
    done.
Qed.

Lemma C4_witness :
  let old : table := {["g:2" := Row [] (Some 50%Q)]} in
  let r1 := SQLite.set 0 "g:2" (VBytes (encode "bob")) (at_time 10 (sqlite_on old 0)) in
  let r2 := PostgreSQL.set "g:2" (VBytes (encode "bob")) (at_time 10 (postgresql_on old 0)) in
  (r1.1 = Return tt ∧
   (SQLite.get 1 "g:2" (at_time 99 r1.2)).1 = Return (Some (encode "bob")) ∧
   (SQLite.ttl 1 "g:2" (at_time 99 r1.2)).1 = Return (-1)) ∧
  (no_nul "g:2" = true →
   r2.1 = Return tt ∧
   (PostgreSQL.get "g:2" (at_time 99 r2.2)).1 = Return (Some (encode "bob")) ∧
   (PostgreSQL.ttl "g:2" (at_time 99 r2.2)).1 = Return (-1)).
Proof.
  intros old.
  apply (C4_set_then_get_and_ttl "g:2" (encode "bob") 0 1 10 99
           (sqlite_on old 0) (postgresql_on old 0));
    [ apply SQLiteFacts.sqlite_on_wf | apply SQLiteFacts.sqlite_on_file
    | apply PostgreSQLFacts.postgresql_on_wf; text_keys
    | apply PostgreSQLFacts.postgresql_on_open ].
Defined.

(** C5 fails for a ttl that does not convert to a float: [setex] with
    [-2^1024] raises [OverflowError] on both backends and stores nothing,
    so the record the key had stays, [get] returns its value and [exists]
    is true. On the PostgreSQL backend it fails for a key with a NUL
    character as well: [setex] raises [ValueError] and stores nothing. *)
Lemma C5_setex_is_refused :
  let t : table := {["k" := Row [] None]} in
  let n := (- 2 ^ 1024)%Z in
  let r1 := SQLite.setex 0 "k" (VBytes (encode "new")) n (sqlite_on t 0) in
  let r2 := PostgreSQL.setex "k" (VBytes (encode "new")) n (postgresql_on t 0) in
  let r3 := PostgreSQL.setex nul_key (VBytes []) 0 (postgresql_on ∅ 0) in
  (n ≤ 0)%Z ∧
  (r1.1 = Raise OverflowError ∧
   (SQLite.get 0 "k" r1.2).1 = Return (Some []) ∧
   (SQLite.exists_ 0 "k" r1.2).1 = Return true) ∧
  (r2.1 = Raise OverflowError ∧
   (PostgreSQL.get "k" r2.2).1 = Return (Some []) ∧
   (PostgreSQL.exists_ "k" r2.2).1 = Return true) ∧
  (r3.1 = Raise ValueError ∧ db r3.2.2 !! nul_key = None).
Proof. split; [done|]. repeat split; vm_compute; reflexivity. Qed.

(** C5, amended: [setex(k, v, ttl)] with [ttl <= 0], for a ttl that
    converts to a float, stores an entry whose expiry is not after the time of
    the call, so that it is expired at once: a [get(k)] at the same or any
    later time returns absent and removes the entry, and [exists(k)] returns
    false. This holds on the SQLite backend (on a database file) for every
    key, and on the PostgreSQL backend for every key without a NUL
    character. *)
Theorem C5_setex_nonpositive_ttl (key : string) (v : pyvalue) (n : Z)
    (tid tid' : nat) (now now' : Q) (s1 : SQLite.state) (s2 : PostgreSQL.state) :
  SQLiteInv.wf s1 → SQLiteInv.on_file s1 →
  PostgreSQLInv.wf s2 → PostgreSQLInv.is_open s2 →
  (n ≤ 0)%Z → float_overflows n = false → (now <= now')%Q →
  let r1 := SQLite.setex tid key v n (at_time now s1) in
  let g1 := SQLite.get tid' key (at_time now' r1.2) in
  let e1 := SQLite.exists_ tid' key (at_time now' r1.2) in
  let r2 := PostgreSQL.setex key v n (at_time now s2) in
  let g2 := PostgreSQL.get key (at_time now' r2.2) in
  let e2 := PostgreSQL.exists_ key (at_time now' r2.2) in
  (r1.1 = Return tt ∧
   (∃ e, db r1.2.2 !! key = Some (Row (blob_of v) (Some e)) ∧ (e <= now)%Q) ∧
   g1.1 = Return None ∧ db g1.2.2 !! key = None ∧
   e1.1 = Return false ∧ db e1.2.2 !! key = None) ∧
  (no_nul key = true →
   r2.1 = Return tt ∧
   (∃ e, db r2.2.2 !! key = Some (Row (blob_of v) (Some e)) ∧ (e <= now)%Q) ∧
   g2.1 = Return None ∧ db g2.2.2 !! key = None ∧
   e2.1 = Return false ∧ db e2.2.2 !! key = None).
Proof.
  intros Hwf1 _ [Hp2 _] Hopen Hn Hfl Hnow r1 g1 e1 r2 g2 e2.
  assert (Hget : ∀ t, Logical.get now' key (Logical.setex now key v n t) =
                      (None, delete key t))
    by (intros t; by apply LogicalFacts.get_setex_nonpositive).
  assert (Hex : ∀ t, Logical.exists_ now' key (Logical.setex now key v n t) =
                     (false, delete key t)).
  { intros t. unfold Logical.exists_. by rewrite Hget. }
  assert (Hentry : ∀ t, ∃ e,
            Logical.setex now key v n t !! key = Some (Row (blob_of v) (Some e)) ∧
            (e <= now)%Q).
  { intros t. eexists. split; [apply lookup_insert_eq|].
    unfold float_of_int.
    assert (inject_Z n <= inject_Z 0)%Q by by rewrite <-Zle_Qle.
    change (inject_Z 0) with 0%Q in *. lra. }
  split.
  - destruct (wp_returns_tt _ _ _
      (SQLiteFacts.sqlite_setex_spec tid key v n _
         (SQLiteFacts.sqlite_wf_at_time now _ Hwf1) Hfl)) as (E & Hwf & Hdb & _).
    fold r1 in E, Hwf, Hdb. apply (SQLiteFacts.sqlite_wf_at_time now') in Hwf.
    destruct (wp_returns _ _ _ _ (SQLiteFacts.sqlite_get_spec tid' key _ Hwf))
      as (Eg & _ & Hg & _).
    destruct (wp_returns _ _ _ _ (SQLiteFacts.sqlite_exists_spec tid' key _ Hwf))
      as (Ee & _ & He & _).
    fold g1 in Eg, Hg. fold e1 in Ee, He.
    cbn [at_time snd fst db clock] in *.
    rewrite Hdb, Hget in Eg, Hg. rewrite Hdb, Hex in Ee, He.
    split_and!; [done| |done| |done|].
    + rewrite Hdb. apply Hentry.
    + rewrite Hg. apply lookup_delete_eq.
    + rewrite He. apply lookup_delete_eq.
  - intros Hnul.
    destruct (wp_returns_tt _ _ _
      (PostgreSQLFacts.pg_setex_spec key v n _
         (PostgreSQLFacts.pool_ok_at_time now _ Hp2)
         (PostgreSQLFacts.is_open_at_time now _ Hopen) Hnul Hfl))
      as (E & Hwf & Hop & Hdb & _).
    fold r2 in E, Hwf, Hop, Hdb.
    apply (PostgreSQLFacts.pool_ok_at_time now') in Hwf.
    apply (PostgreSQLFacts.is_open_at_time now') in Hop.
    destruct (wp_returns _ _ _ _ (PostgreSQLFacts.pg_get_spec key _ Hwf Hop Hnul))
      as (Eg & _ & _ & Hg & _).
    destruct (wp_returns _ _ _ _ (PostgreSQLFacts.pg_exists_spec key _ Hwf Hop Hnul))
      as (Ee & _ & _ & He & _).
    fold g2 in Eg, Hg. fold e2 in Ee, He.
    cbn [at_time snd fst db clock] in *.
    rewrite Hdb, Hget in Eg, Hg. rewrite Hdb, Hex in Ee, He.
    split_and!; [done| |done| |done|].
    + rewrite Hdb. apply Hentry.
    + rewrite Hg. apply lookup_delete_eq.
    + rewrite He. apply lookup_delete_eq.
Qed.

Lemma C5_witness :
  let r1 := SQLite.setex 0 "k" (VBytes []) (-1) (at_time 10 (sqlite_on ∅ 0)) in
  let g1 := SQLite.get 0 "k" (at_time 10 r1.2) in
  let e1 := SQLite.exists_ 0 "k" (at_time 10 r1.2) in
  let r2 := PostgreSQL.setex "k" (VBytes []) (-1) (at_time 10 (postgresql_on ∅ 0)) in
  let g2 := PostgreSQL.get "k" (at_time 10 r2.2) in
  let e2 := PostgreSQL.exists_ "k" (at_time 10 r2.2) in
  (r1.1 = Return tt ∧
   (∃ e, db r1.2.2 !! "k" = Some (Row (blob_of (VBytes [])) (Some e)) ∧ (e <= 10)%Q) ∧
   g1.1 = Return None ∧ db g1.2.2 !! "k" = None ∧
   e1.1 = Return false ∧ db e1.2.2 !! "k" = None) ∧
  (no_nul "k" = true →
   r2.1 = Return tt ∧
   (∃ e, db r2.2.2 !! "k" = Some (Row (blob_of (VBytes [])) (Some e)) ∧ (e <= 10)%Q) ∧
   g2.1 = Return None ∧ db g2.2.2 !! "k" = None ∧
   e2.1 = Return false ∧ db e2.2.2 !! "k" = None).
Proof.
  apply (C5_setex_nonpositive_ttl "k" (VBytes []) (-1) 0 0 10 10
           (sqlite_on ∅ 0) (postgresql_on ∅ 0));
    [ apply SQLiteFacts.sqlite_on_wf | apply SQLiteFacts.sqlite_on_file
    | apply PostgreSQLFacts.postgresql_on_wf; text_keys
    | apply PostgreSQLFacts.postgresql_on_open
    | vm_compute; discriminate | vm_compute; reflexivity
    | vm_compute; discriminate ].
Defined.

(** C7: [exists(k)] returns true exactly when [get(k)] from the same state
    returns a value, and leaves the state [get(k)] leaves: the expiry check
    and the deletion of an expired record are those of [get]. *)
Theorem C7_exists_is_get (tid : nat) (key : string)
    (s1 : SQLite.state) (s2 : PostgreSQL.state) :
  ((SQLite.exists_ tid key s1).1 =
     outcome_map (λ v, bool_decide (v ≠ None)) (SQLite.get tid key s1).1 ∧
   ((SQLite.exists_ tid key s1).1 = Return true ↔
    ∃ v, (SQLite.get tid key s1).1 = Return (Some v)) ∧
   (SQLite.exists_ tid key s1).2 = (SQLite.get tid key s1).2) ∧
  ((PostgreSQL.exists_ key s2).1 =
     outcome_map (λ v, bool_decide (v ≠ None)) (PostgreSQL.get key s2).1 ∧
   ((PostgreSQL.exists_ key s2).1 = Return true ↔
    ∃ v, (PostgreSQL.get key s2).1 = Return (Some v)) ∧
   (PostgreSQL.exists_ key s2).2 = (PostgreSQL.get key s2).2).
Proof.
  split.
  - unfold SQLite.exists_, bind, ret.
    destruct (SQLite.get tid key s1) as [[[v|]|e] s']; cbn;
      (split_and!; [done| |done]); split; try done.
    + intros _. by exists v.
    + by intros [? [=]].
    + by intros [? [=]].
  - unfold PostgreSQL.exists_, bind, ret.
    destruct (PostgreSQL.get key s2) as [[[v|]|e] s']; cbn;
      (split_and!; [done| |done]); split; try done.
    + intros _. by exists v.
    + by intros [? [=]].
    + by intros [? [=]].
Qed.

(** C8 fails for a key with a NUL character on the PostgreSQL backend:
    [delete] raises [ValueError]. *)
Lemma C8_nul_key_is_refused :
  (PostgreSQL.delete nul_key (postgresql_on ∅ 0)).1 = Raise ValueError.
Proof. vm_compute. reflexivity. Qed.

(** C8, amended: [delete(k)] returns without raising whether or not [k]
    has a record, and removes the record if there is one; afterwards
    [exists(k)] is false, [ttl(k)] is -2 and a second [delete(k)] changes
    nothing; on a table without [k] the table is unchanged. This holds on the
    SQLite backend (on a database file) for every key, and on the PostgreSQL
    backend for every key without a NUL character. *)
Theorem C8_delete (key : string) (tid tid' : nat) (now' : Q)
    (s1 : SQLite.state) (s2 : PostgreSQL.state) :
  SQLiteInv.wf s1 → SQLiteInv.on_file s1 →
  PostgreSQLInv.wf s2 → PostgreSQLInv.is_open s2 →
  let r1 := SQLite.delete tid key s1 in
  let a1 := at_time now' r1.2 in
  let r2 := PostgreSQL.delete key s2 in
  let a2 := at_time now' r2.2 in
  (r1.1 = Return tt ∧ db r1.2.2 = delete key (db s1.2) ∧
   (db s1.2 !! key = None → db r1.2.2 = db s1.2) ∧
   (SQLite.exists_ tid' key a1).1 = Return false ∧
   (SQLite.ttl tid' key a1).1 = Return (-2) ∧
   (SQLite.delete tid' key a1).1 = Return tt ∧
   db (SQLite.delete tid' key a1).2.2 = db r1.2.2) ∧
  (no_nul key = true →
   r2.1 = Return tt ∧ db r2.2.2 = delete key (db s2.2) ∧
   (db s2.2 !! key = None → db r2.2.2 = db s2.2) ∧
   (PostgreSQL.exists_ key a2).1 = Return false ∧
   (PostgreSQL.ttl key a2).1 = Return (-2) ∧
   (PostgreSQL.delete key a2).1 = Return tt ∧
   db (PostgreSQL.delete key a2).2.2 = db r2.2.2).
Proof.
  intros Hwf1 _ [Hp2 _] Hopen r1 a1 r2 a2.
  assert (Hex : ∀ t, (Logical.exists_ now' key (delete key t)).1 = false).
  { intros t. unfold Logical.exists_.
    by rewrite LogicalFacts.get_absent by apply lookup_delete_eq. }
  assert (Httl : ∀ t, Logical.ttl now' key (delete key t) = -2)
    by (intros t; apply LogicalFacts.ttl_absent, lookup_delete_eq).
  split.
  - destruct (wp_returns_tt _ _ _ (SQLiteFacts.sqlite_delete_spec tid key _ Hwf1))
      as (E & Hwf & Hdb & _).
    fold r1 in E, Hwf, Hdb. apply (SQLiteFacts.sqlite_wf_at_time now') in Hwf.
    fold a1 in Hwf.
    destruct (wp_returns _ _ _ _ (SQLiteFacts.sqlite_exists_spec tid' key _ Hwf))
      as (Ee & _).
    destruct (wp_returns _ _ _ _ (SQLiteFacts.sqlite_ttl_spec tid' key _ Hwf))
      as (Et & _).
    destruct (wp_returns_tt _ _ _ (SQLiteFacts.sqlite_delete_spec tid' key _ Hwf))
      as (Ed & _ & Hdb' & _).
    subst a1. cbn [at_time snd fst db clock] in *.
    rewrite Hdb in Ee, Et, Hdb'. rewrite Hex in Ee. rewrite Httl in Et.
    split_and!; [done..| | | | |]; [|done|done|done|].
    + intros Hk. rewrite Hdb. by apply delete_id.
    + by rewrite Hdb', Hdb, delete_delete_eq.
  - intros Hnul.
    destruct (wp_returns_tt _ _ _
      (PostgreSQLFacts.pg_delete_spec key _ Hp2 Hopen Hnul))
      as (E & Hwf & Hop & Hdb & _).
    fold r2 in E, Hwf, Hop, Hdb.
    apply (PostgreSQLFacts.pool_ok_at_time now') in Hwf.
    apply (PostgreSQLFacts.is_open_at_time now') in Hop.
    fold a2 in Hwf, Hop.
    destruct (wp_returns _ _ _ _ (PostgreSQLFacts.pg_exists_spec key _ Hwf Hop Hnul))
      as (Ee & _).
    destruct (wp_returns _ _ _ _ (PostgreSQLFacts.pg_ttl_spec key _ Hwf Hop Hnul))
      as (Et & _).
    destruct (wp_returns_tt _ _ _
      (PostgreSQLFacts.pg_delete_spec key _ Hwf Hop Hnul))
      as (Ed & _ & _ & Hdb' & _).
    subst a2. cbn [at_time snd fst db clock] in *.
    rewrite Hdb in Ee, Et, Hdb'. rewrite Hex in Ee. rewrite Httl in Et.
    split_and!; [done..| | | | |]; [|done|done|done|].
    + intros Hk. rewrite Hdb. by apply delete_id.
    + by rewrite Hdb', Hdb, delete_delete_eq.
Qed.

Lemma C8_witness :
  let t : table := {["g:2" := Row (encode "bob") None]} in
  let r1 := SQLite.delete 0 "g:2" (sqlite_on t 0) in
  let a1 := at_time 5 r1.2 in
  let r2 := PostgreSQL.delete "g:2" (postgresql_on t 0) in
  let a2 := at_time 5 r2.2 in
  (r1.1 = Return tt ∧ db r1.2.2 = delete "g:2" t ∧
   (t !! "g:2" = None → db r1.2.2 = t) ∧
   (SQLite.exists_ 1 "g:2" a1).1 = Return false ∧
   (SQLite.ttl 1 "g:2" a1).1 = Return (-2) ∧
   (SQLite.delete 1 "g:2" a1).1 = Return tt ∧
   db (SQLite.delete 1 "g:2" a1).2.2 = db r1.2.2) ∧
  (no_nul "g:2" = true →
   r2.1 = Return tt ∧ db r2.2.2 = delete "g:2" t ∧
   (t !! "g:2" = None → db r2.2.2 = t) ∧
   (PostgreSQL.exists_ "g:2" a2).1 = Return false ∧
   (PostgreSQL.ttl "g:2" a2).1 = Return (-2) ∧
   (PostgreSQL.delete "g:2" a2).1 = Return tt ∧
   db (PostgreSQL.delete "g:2" a2).2.2 = db r2.2.2).
Proof.
  intros t.
  apply (C8_delete "g:2" 0 1 5 (sqlite_on t 0) (postgresql_on t 0));
    [ apply SQLiteFacts.sqlite_on_wf | apply SQLiteFacts.sqlite_on_file
    | apply PostgreSQLFacts.postgresql_on_wf; text_keys
    | apply PostgreSQLFacts.postgresql_on_open ].
Defined.





(** A call that returns and leaves the state as it was can be repeated. *)
Lemma repeatedly_noop {B A} (n : nat) (m : M B A) (a : A) (s : B * world) :
  m s = (Return a, s) → repeatedly n m s = (replicate n (Return a), s).
Proof.
  intros E. induction n as [|n IH]; cbn; [done|]. rewrite E. cbn. by rewrite IH.
Qed.

(** C9: [close] never raises, however often it is called. The first call
    on the SQLite backend closes the connection of the calling thread and
    forgets it, leaving the connections of other threads open; on the
    PostgreSQL backend it closes every connection of the pool and drops the
    pool. Every further call, at any time, returns and changes nothing. The
    table is not touched. *)
Theorem C9_close_any_number_of_times (tid : nat) (n : nat) (now' : Q)
    (s1 : SQLite.state) (s2 : PostgreSQL.state) :
  SQLiteInv.wf s1 → PostgreSQLInv.wf s2 →
  let r1 := SQLite.close tid s1 in
  let r2 := PostgreSQL.close s2 in
  (r1.1 = Return tt ∧
   SQLite.local_conn r1.2.1 !! tid = None ∧
   (∀ c, SQLite.local_conn s1.1 !! tid = Some c → c ∉ live r1.2.2) ∧
   (∀ tid' c, tid' ≠ tid → SQLite.local_conn s1.1 !! tid' = Some c →
      SQLite.local_conn r1.2.1 !! tid' = Some c ∧ c ∈ live r1.2.2) ∧
   db r1.2.2 = db s1.2 ∧
   repeatedly n (SQLite.close tid) (at_time now' r1.2) =
     (replicate n (Return tt), at_time now' r1.2)) ∧
  (r2.1 = Return tt ∧
   PostgreSQL.pool_attr r2.2.1 = None ∧
   (∀ p c, PostgreSQL.pool_attr s2.1 = Some p →
      c ∈ (PostgreSQL.pooled p ++ PostgreSQL.used p)%list → c ∉ live r2.2.2) ∧
   db r2.2.2 = db s2.2 ∧
   repeatedly n PostgreSQL.close (at_time now' r2.2) =
     (replicate n (Return tt), at_time now' r2.2)).
Proof.
  intros Hwf1 Hwf2 r1 r2. split.
  - destruct (wp_returns_tt _ _ _ (SQLiteFacts.sqlite_close_spec tid s1 Hwf1))
      as (E & (_ & Hdb & _) & Hnone & Hclosed & Hothers).
    fold r1 in E, Hdb, Hnone, Hclosed, Hothers.
    split_and!; [done..|]. by apply repeatedly_noop, SQLiteFacts.sqlite_close_again.
  - destruct (wp_returns_tt _ _ _ (PostgreSQLFacts.pg_close_spec s2 (proj1 Hwf2)))
      as (E & _ & Hnone & Hdb & _ & Hclosed).
    fold r2 in E, Hdb, Hnone, Hclosed.
    split_and!; [done..|].
    by apply repeatedly_noop, PostgreSQLFacts.pg_close_again.
Qed.

Lemma C9_witness :
  let s1 := (SQLite.set 0 "k" (VBytes []) (sqlite_on ∅ 0)).2 in
  let s2 := postgresql_on ∅ 0 in
  let r1 := SQLite.close 0 s1 in
  let r2 := PostgreSQL.close s2 in
  (r1.1 = Return tt ∧
   SQLite.local_conn r1.2.1 !! 0%nat = None ∧
   (∀ c, SQLite.local_conn s1.1 !! 0%nat = Some c → c ∉ live r1.2.2) ∧
   (∀ tid' c, tid' ≠ 0%nat → SQLite.local_conn s1.1 !! tid' = Some c →
      SQLite.local_conn r1.2.1 !! tid' = Some c ∧ c ∈ live r1.2.2) ∧
   db r1.2.2 = db s1.2 ∧
   repeatedly 3 (SQLite.close 0) (at_time 7 r1.2) =
     (replicate 3 (Return tt), at_time 7 r1.2)) ∧
  (r2.1 = Return tt ∧
   PostgreSQL.pool_attr r2.2.1 = None ∧
   (∀ p c, PostgreSQL.pool_attr s2.1 = Some p →
      c ∈ (PostgreSQL.pooled p ++ PostgreSQL.used p)%list → c ∉ live r2.2.2) ∧
   db r2.2.2 = db s2.2 ∧
   repeatedly 3 PostgreSQL.close (at_time 7 r2.2) =
     (replicate 3 (Return tt), at_time 7 r2.2)).
Proof.
  intros s1 s2.
  apply (C9_close_any_number_of_times 0 3 7 s1 s2);
    [ apply (wp_returns_tt _ _ _
        (SQLiteFacts.sqlite_set_spec 0 "k" (VBytes []) _
           (SQLiteFacts.sqlite_on_wf ∅ 0)))
    | apply PostgreSQLFacts.postgresql_on_wf; text_keys ].
Defined.

End contract.

(** * The scenarios of the specification, run on both backends *)

Section scenarios.
Local Open Scope string_scope.

(** [setex("g:1", b"alice", 2)]; at once [get("g:1") == b"alice"]; three
    seconds later [get("g:1") is None] and [exists("g:1") is False]. *)
Example scenario_expiry :
  let calls := [Call 0 0 (OpSetex "g:1" (VBytes (encode "alice")) 2);
                Call 0 0 (OpGet "g:1"); Call 0 3 (OpGet "g:1");
                Call 0 3 (OpExists "g:1")] in
  let expected := [Return RNone; Return (RValue (Some (encode "alice")));
                   Return (RValue None); Return (RBool false)] in
  (run (@sqlite_call listing_engine Glob.glob) calls (sqlite_on ∅ 0)).1 = expected ∧
  (run (@postgresql_call listing_engine Glob.glob) calls (postgresql_on ∅ 0)).1
    = expected.
Proof. split; vm_compute; reflexivity. Qed.

(** [set("g:2", "bob")]; [ttl("g:2") == -1]; [delete("g:2")];
    [ttl("g:2") == -2]. *)
Example scenario_set_delete :
  let calls := [Call 0 0 (OpSet "g:2" (VStr "bob")); Call 0 1 (OpTtl "g:2");
                Call 0 2 (OpDelete "g:2"); Call 0 3 (OpTtl "g:2")] in
  let expected := [Return RNone; Return (RInt (-1)); Return RNone;
                   Return (RInt (-2))] in
  (run (@sqlite_call listing_engine Glob.glob) calls (sqlite_on ∅ 0)).1 = expected ∧
  (run (@postgresql_call listing_engine Glob.glob) calls (postgresql_on ∅ 0)).1
    = expected.
Proof. split; vm_compute; reflexivity. Qed.

(** With keys ["a:1"], ["a:2"] and ["b:1"], [keys("a:*")] returns ["a:1"] and
    ["a:2"] only. *)
Example scenario_keys :
  let calls := [Call 0 0 (OpSet "a:1" (VStr "x")); Call 0 0 (OpSet "a:2" (VStr "y"));
                Call 0 0 (OpSet "b:1" (VStr "z")); Call 0 1 (OpKeys "a:*")] in
  let expected := [Return RNone; Return RNone; Return RNone;
                   Return (RKeys ["a:1"; "a:2"])] in
  (run (@sqlite_call listing_engine Glob.glob) calls (sqlite_on ∅ 0)).1 = expected ∧
  (run (@postgresql_call listing_engine Glob.glob) calls (postgresql_on ∅ 0)).1
    = expected.
Proof. split; vm_compute; reflexivity. Qed.

(** [fnmatch.fnmatch] on bracket expressions, as Python answers: a range,
    a negated set, a ["]"] in first place, a hyphen at the end, and the two
    cases where [translate] drops an empty range and is left with a lone
    ["!"], which matches any character, or with nothing, which matches
    none. *)
Example scenario_brackets :
  map (λ np : string * string, Glob.glob np.1 np.2)
    [("a:1", "a:[0-9]"); ("a:x", "a:[0-9]"); ("b", "[!a]"); ("a", "[!a]");
     ("]", "[]]"); ("-", "[a-]"); ("x", "[c-a!]"); ("a", "[a--]"); ("[", "[")]
  = [true; false; true; false; true; true; true; false; true].
Proof. vm_compute; reflexivity. Qed.

(** A positive ttl counts down in whole seconds, reaches 0 in the last
    second before expiry, stays 0 for one more second although the key is
    then gone for [get], and is -2 after that. *)
Example scenario_ttl_countdown :
  let calls := [Call 0 0 (OpSetex "k" (VBytes []) 2);
                Call 0 0 (OpTtl "k"); Call 0 (1 # 2) (OpTtl "k");
                Call 0 (3 # 2) (OpTtl "k"); Call 0 2 (OpTtl "k");
                Call 0 (5 # 2) (OpTtl "k"); Call 0 3 (OpTtl "k");
                Call 0 3 (OpGet "k")] in
  let expected := [Return RNone; Return (RInt 2); Return (RInt 1);
                   Return (RInt 0); Return (RInt 0); Return (RInt 0);
                   Return (RInt (-2)); Return (RValue None)] in
  (run (@sqlite_call listing_engine Glob.glob) calls (sqlite_on ∅ 0)).1 = expected ∧
  (run (@postgresql_call listing_engine Glob.glob) calls (postgresql_on ∅ 0)).1
    = expected.
Proof. split; vm_compute; reflexivity. Qed.

(** After [close], the SQLite backend opens a new connection on the next
    call, and the PostgreSQL backend raises: its [pool] is [None]. *)
Example scenario_use_after_close :
  (SQLite.get 0 "k" (SQLite.close 0 (SQLite.set 0 "k" (VBytes []) (sqlite_on ∅ 0)).2).2).1
    = Return (Some []) ∧
  (PostgreSQL.get "k" (PostgreSQL.close (PostgreSQL.set "k" (VBytes []) (postgresql_on ∅ 0)).2).2).1
    = Raise AttributeError.
Proof. split; vm_compute; reflexivity. Qed.

End scenarios.

(** * More of the code: connections, pools, generators *)

(** Two postconditions of the same run hold together. *)
Lemma wp_and {B A} (m : M B A) (Q1 Q2 : A → B * world → Prop) (s : B * world) :
  wp m Q1 s → wp m Q2 s → wp m (λ a s', Q1 a s' ∧ Q2 a s') s.
Proof.
  intros (a & s' & E & H1) (a' & s'' & E' & H2). rewrite E in E'.
  injection E' as <- <-. by exists a, s'.
Qed.

(** ** [SQLiteBackend._get_conn]: reuse, eviction, first use *)

Module SQLiteConnFacts.
Import SQLite SQLiteInv SQLiteConn SQLiteFacts.

Lemma _get_conn_reuse tid c (s : state) :
  local_conn s.1 !! tid = Some c → stale tid s = false →
  _get_conn tid s = (Return c, (set_local_last_used tid (clock s.2) s.1, s.2)).
Proof.
  destruct s as [[path idle conns stamps] w]. unfold stale, last_used. cbn.
  intros Hc Hs. unfold _get_conn, bind, self_get, time_time. cbn.
  by rewrite Hc, Hs.
Qed.

Lemma _get_conn_open tid (s : state) :
  local_conn s.1 !! tid = None ∨
    (∃ c, local_conn s.1 !! tid = Some c ∧ stale tid s = true) →
  let closed := from_option (λ c, {[c]}) (∅ : gset nat) (local_conn s.1 !! tid) in
  _get_conn tid s =
    (Return (fresh s.2),
     (set_local_last_used tid (clock s.2) (set_local_conn tid (fresh s.2) s.1),
      World (db s.2) (clock s.2) ({[fresh s.2]} ∪ live s.2 ∖ closed)
            (S (fresh s.2)))).
Proof.
  destruct s as [[path idle conns stamps] [t now l f]].
  unfold stale, last_used. cbn. intros H.
  unfold _get_conn, bind, self_get, time_time. cbn.
  destruct H as [Hc|(c & Hc & Hs)]; rewrite Hc; cbn; rewrite ?Hs; cbn;
    unfold try_pass, conn_close, open_connection, commit, execute, conn_execute,
      self_set, ret, bind; cbn;
    rewrite !decide_True by (by apply elem_of_union_l, elem_of_singleton);
    cbn; [by rewrite (difference_empty_L l)|done].
Qed.

Lemma tight_world (s : state) t n :
  tight s → tight (s.1, World t n (live s.2) (fresh s.2)).
Proof. intros [??]. split; [by apply wf_world|done]. Qed.

Lemma tight_at_time now (s : state) : tight s → tight (at_time now s).
Proof. intros [??]. split; [by apply sqlite_wf_at_time|done]. Qed.

Lemma tight_init path timeout t now :
  tight (Self path timeout ∅ ∅, world_of t now).
Proof. split; [apply wf_init|]. by intros c ?%not_elem_of_empty. Qed.

Lemma _get_conn_tight tid (s : state) :
  tight s →
  wp (_get_conn tid)
     (λ c s', tight s' ∧ local_conn s'.1 !! tid = Some c ∧ db s'.2 = db s.2 ∧
              clock s'.2 = clock s.2 ∧
              local_last_used s'.1 !! tid = Some (clock s.2) ∧
              idle_timeout s'.1 = idle_timeout s.1) s.
Proof.
  intros [Hwf Hnl].
  destruct (_get_conn_spec tid s Hwf)
    as (c & s' & E & Hwf' & Hdb & Hclk & Hc & Hts & Hidle).
  exists c, s'. split; [done|]. split_and!; [split; [done|] |done..].
  destruct (local_conn s.1 !! tid) as [c0|] eqn:Hc0;
    [destruct (stale tid s) eqn:Hs|].
  - rewrite _get_conn_open in E by (right; by exists c0).
    injection E as <- <-. rewrite Hc0. unfold no_leak. cbn. intros c'.
    rewrite elem_of_union, elem_of_singleton, elem_of_difference, elem_of_singleton.
    intros [->|[Hl Hne]]; [exists tid; by rewrite lookup_insert_eq|].
    destruct (Hnl _ Hl) as [tid' Hc']. exists tid'.
    rewrite lookup_insert_ne; [done|]. intros <-. congruence.
  - rewrite (_get_conn_reuse tid c0) in E by done. injection E as <- <-. exact Hnl.
  - rewrite _get_conn_open in E by by left.
    injection E as <- <-. rewrite Hc0. unfold no_leak. cbn. intros c'.
    rewrite (difference_empty_L (live s.2)), elem_of_union, elem_of_singleton.
    intros [->|Hl]; [exists tid; by rewrite lookup_insert_eq|].
    destruct (Hnl _ Hl) as [tid' Hc']. exists tid'.
    rewrite lookup_insert_ne; [done|]. intros <-. congruence.
Qed.

Ltac tight_conn c s1 :=
  apply wp_bind; eapply wp_mono; [by apply _get_conn_tight|];
  let H := fresh in
  intros c s1 H; cbn beta; destruct H as (? & ? & ? & ? & ? & ?).

Ltac tight_stmt tid :=
  eapply (wp_execute_cached tid);
  [ first [done | by apply wf_world | by apply tight_world
          | by match goal with H : tight _ |- _ => apply H end
          | by match goal with H : tight _ |- _ => apply wf_world, H end ]
  | by cbn | cbn beta ].

Lemma stmt_commit_tight tid (stmt : table → unit * table) (s : state) :
  tight s →
  wp (let! conn := _get_conn tid in execute conn stmt ;; commit conn)
     (λ _ s', tight s' ∧ clock s'.2 = clock s.2) s.
Proof.
  intros Ht. tight_conn c s1. apply wp_bind. tight_stmt tid. tight_stmt tid.
  cbn. split; [by apply (tight_world s1)|done].
Qed.

Lemma delete_tight tid k (s : state) :
  tight s → wp (delete tid k) (λ _ s', tight s' ∧ clock s'.2 = clock s.2) s.
Proof. apply stmt_commit_tight. Qed.

Lemma get_tight tid k (s : state) :
  tight s → wp (get tid k) (λ _ s', tight s') s.
Proof.
  intros Ht. unfold get. tight_conn c s1. apply wp_bind. tight_stmt tid.
  destruct (SQL.session_get k (db s1.2)).1 as [[v e]|]; [|by wp_go; apply tight_world].
  wp_go. destruct (expired _ e).
  - apply wp_bind. eapply wp_mono; [by apply delete_tight, tight_world|].
    intros [] s2 [? _]. by wp_go.
  - wp_go. by apply tight_world.
Qed.

Lemma ttl_tight tid k (s : state) :
  tight s → wp (ttl tid k) (λ _ s', tight s') s.
Proof.
  intros Ht. unfold ttl. tight_conn c s1. apply wp_bind. tight_stmt tid.
  destruct (SQL.session_get_expires k (db s1.2)).1 as [[e|]|]; wp_go;
    by apply tight_world.
Qed.

Lemma keys_tight `{Engine} `{Fnmatch} tid pattern (s : state) :
  tight s → (0 <= idle_timeout s.1)%Q →
  wp (keys tid pattern) (λ _ s', tight s') s.
Proof.
  intros Ht Hidle. unfold keys. tight_conn c s1. apply wp_bind. tight_stmt tid.
  wp_go. cbn. set (s2 := (s1.1, _)).
  assert (tight s2) as Ht2 by by apply tight_world.
  assert (holds tid c s2) as Hh.
  { split_and!; cbn; [done| |congruence|congruence].
    destruct Ht2 as [[Hl _] _]. by destruct (Hl tid c). }
  eapply wp_run; [by apply keys_loop_held|]. by apply (tight_world s2).
Qed.

Lemma close_tight tid (s : state) :
  tight s → wp (close tid) (λ _ s', tight s') s.
Proof.
  intros [Hwf Hnl].
  destruct (sqlite_close_spec tid s Hwf)
    as ([] & s' & E & (Hwf' & _) & Hnone & Hgone & Hothers).
  exists tt, s'. split; [done|]. split; [done|].
  destruct (local_conn s.1 !! tid) as [c|] eqn:Hc.
  - intros c' Hl'.
    assert (live s'.2 = live s.2 ∖ {[c]}) as Hlive.
    { destruct s as [[path idle conns stamps] [t now l f]]. cbn in Hc.
      destruct (proj1 Hwf _ _ Hc) as (_ & _ & [ts Hts]). cbn in Hts.
      unfold close, del_local_conn, del_local_last_used, bind, self_get,
        self_set, conn_close in E.
      repeat (cbn in E; rewrite ?Hc, ?Hts in E). by injection E as <-. }
    rewrite Hlive in Hl'. apply elem_of_difference in Hl' as [Hl' Hne].
    rewrite elem_of_singleton in Hne.
    destruct (Hnl _ Hl') as [tid' Hc']. exists tid'.
    apply Hothers; [|done]. intros ->. congruence.
  - rewrite sqlite_close_again in E by done. injection E as <-. exact Hnl.
Qed.

(** Every action keeps the connections tight and the idle timeout as it
    was, and returns unless it is a [setex] that overflows. *)
Lemma sqlite_action_tight `{Engine} `{Fnmatch} (a : action) (s : state) :
  tight s → (0 <= idle_timeout s.1)%Q →
  idle_timeout (sqlite_action a s).2.1 = idle_timeout s.1 ∧
  (if action_overflows a then (sqlite_action a s).1 = Raise OverflowError
   else ∃ r, (sqlite_action a s).1 = Return r) ∧
  tight (sqlite_action a s).2.
Proof.
  intros Ht Hidle.
  assert (Hrun : ∀ {A} (m : M SQLiteBackend A) (f : A → result) s0,
            wp m (λ _ s', tight s') s0 →
            (∃ r, (fmap_M f m s0).1 = Return r) ∧ tight (fmap_M f m s0).2).
  { intros A m f s0 (a0 & s' & E & Ht'). unfold fmap_M, bind, ret. rewrite E.
    split; [by exists (f a0)|done]. }
  destruct a as [[tid now o]|tid now]; cbn.
  - split; [apply (@sqlite_call_idle_timeout _ _ (Call tid now o) (at_time now s))|].
    apply (tight_at_time now) in Ht. unfold sqlite_call. cbn.
    destruct o as [k v|k v n|k|k|k|k|p|p]; cbn; try apply Hrun.
    + eapply wp_mono; [by apply (stmt_commit_tight tid)|]. by intros [] s' [? _].
    + destruct (float_overflows n) eqn:Hn.
      * unfold fmap_M. rewrite (bind_raise _ _ OverflowError _ (at_time now s))
          by by apply sqlite_setex_overflow.
        done.
      * apply Hrun. unfold setex. wp_go. apply wp_bind.
        apply wp_float_add_int; [done|].
        eapply wp_mono; [by apply (stmt_commit_tight tid)|]. by intros [] s' [? _].
    + by apply get_tight.
    + eapply wp_mono; [by apply delete_tight|]. by intros [] s' [? _].
    + unfold exists_. apply wp_bind. eapply wp_mono; [by apply get_tight|].
      intros v s' ?. by wp_go.
    + by apply ttl_tight.
    + by apply keys_tight.
    + by apply keys_tight.
  - split; [|apply Hrun; by apply close_tight, tight_at_time].
    unfold fmap_M.
    apply (keeps_bind (λ b, idle_timeout b = idle_timeout s.1)
             (close tid) (λ _, ret RNone)); [|intros ?; apply keeps_ret|done].
    by apply close_keeps.
Qed.

End SQLiteConnFacts.

(** ** [PostgreSQLBackend]: the pooled connection *)

Module PostgreSQLConnFacts.
Import PostgreSQL PostgreSQLInv PostgreSQLConn PostgreSQLFacts.

Lemma settled_world c (s : state) t n :
  settled c s → settled c (s.1, World t n (live s.2) (fresh s.2)).
Proof. done. Qed.

(** With a settled pool a statement that psycopg2 accepts runs on the
    connection at the top of the pool, and the pool, the backend and the
    connections are afterwards as they were. *)
Lemma _pooled_execute_stmt_settled {A} c params (stmt : table → A * table)
    (s : state) :
  settled c s → forallb no_nul params = true →
  _pooled_execute_stmt params stmt s =
    (Return (stmt (db s.2)).1,
     (s.1, World (stmt (db s.2)).2 (clock s.2) (live s.2) (fresh s.2))).
Proof.
  destruct s as [[url pool timeout] [t now l f]].
  intros ([minc maxc idle used cl] & rest & Hp & Hc & Hu & Hi & Hlen & Hl) Hparams.
  cbn in *. subst.
  unfold _pooled_execute_stmt, _get_conn, _put_conn, getconn, putconn,
    conn_closed, commit, cursor, cur_execute. rewrite Hparams.
  unfold execute, conn_execute, self_get, self_set, bind, ret.
  cbn. rewrite !decide_True by done. cbn.
  destruct (stmt t) as [a t'] eqn:Hstmt. cbn. rewrite !decide_True by done. cbn.
  rewrite (decide_True (P := c ∈ [c])) by apply list_elem_of_here. cbn.
  rewrite decide_True by done. cbn.
  rewrite bool_decide_false by (intros Hn; by apply Hn). cbn.
  by rewrite (decide_False (P := c ≠ c)) by (intros Hn; by apply Hn).
Qed.

Lemma params_one k : no_nul k = true → forallb no_nul [k] = true.
Proof. intros Hk. cbn. by rewrite Hk. Qed.

Lemma delete_settled c k (s : state) :
  settled c s → no_nul k = true →
  delete k s =
    (Return tt, (s.1, World (base.delete k (db s.2)) (clock s.2) (live s.2)
                            (fresh s.2))).
Proof.
  intros Hs Hk. unfold delete.
  by rewrite (_pooled_execute_stmt_settled c) by by try apply params_one.
Qed.

Lemma get_settled c k (s : state) :
  settled c s → no_nul k = true →
  get k s =
    (Return (Logical.get (clock s.2) k (db s.2)).1,
     (s.1, World (Logical.get (clock s.2) k (db s.2)).2 (clock s.2) (live s.2)
                 (fresh s.2))).
Proof.
  intros Hs Hk. unfold get, bind.
  rewrite (_pooled_execute_stmt_settled c) by by try apply params_one.
  unfold Logical.get. cbn. destruct (db s.2 !! k) as [[v e]|]; cbn; [|done].
  destruct (expired (clock s.2) e); cbn; [|done].
  rewrite (delete_settled c) by done. done.
Qed.

Lemma keys_loop_settled `{Fnmatch} c pattern now rows result (s : state) :
  settled c s → (∀ k e, (k, e) ∈ rows → no_nul k = true) →
  keys_loop pattern now rows result s =
    (Return (Logical.keys_loop pattern now rows result (db s.2)).1,
     (s.1, World (Logical.keys_loop pattern now rows result (db s.2)).2
                 (clock s.2) (live s.2) (fresh s.2))).
Proof.
  revert result s.
  induction rows as [|[key e] rows IH]; intros result s Hs Hrows; cbn.
  - by destruct s as [b []].
  - assert (∀ k e', (k, e') ∈ rows → no_nul k = true) as Hrows'
      by (intros k e' ?; apply (Hrows k e'); by right).
    destruct (expired now e).
    + unfold bind. rewrite (delete_settled c); [|done|apply (Hrows key e); by left].
      by rewrite IH.
    + destruct (fnmatch key pattern); by apply IH.
Qed.

(** With a settled pool every call with a key that PostgreSQL accepts
    computes [logical_call] and changes nothing but the table. *)
Lemma postgresql_call_settled `{Engine} `{Fnmatch} c (cl : call) (s : state) :
  settled c s → text_keys (db s.2) → nul_free (what cl) = true →
  postgresql_call cl s =
    ((logical_call (clock s.2) (what cl) (db s.2)).1,
     (s.1, World (logical_call (clock s.2) (what cl) (db s.2)).2 (clock s.2)
                 (live s.2) (fresh s.2))).
Proof.
  intros Hs Ht Hnul. unfold postgresql_call, fmap_M, bind.
  assert (∀ k e, (k, e) ∈ (session_list (db s.2)).1 → no_nul k = true) as Hrows.
  { intros k e (r & Hk & _)%LogicalFacts.elem_of_session_list.
    by apply (text_keys_lookup (db s.2) k r). }
  unfold nul_free in Hnul.
  destruct (what cl) as [k v|k v n|k|k|k|k|p|p]; cbn in *.
  - unfold set. by rewrite (_pooled_execute_stmt_settled c) by by try apply params_one.
  - unfold setex, bind, time_time, float_add_int. cbn.
    destruct (float_overflows n); cbn; [by destruct s as [b []]|].
    by rewrite (_pooled_execute_stmt_settled c) by by try apply params_one.
  - by rewrite (get_settled c).
  - by rewrite (delete_settled c).
  - unfold exists_, bind. by rewrite (get_settled c).
  - unfold ttl, bind.
    rewrite (_pooled_execute_stmt_settled c) by by try apply params_one.
    unfold Logical.ttl. cbn. by destruct (db s.2 !! k) as [[v [e|]]|].
  - unfold keys, bind. rewrite (_pooled_execute_stmt_settled c) by done. cbn.
    by rewrite (keys_loop_settled c).
  - unfold scan_iter, keys, bind.
    rewrite (_pooled_execute_stmt_settled c) by done. cbn.
    by rewrite (keys_loop_settled c).
Qed.

(** What stops a call before it reaches the table, when it is not the
    conversion of the ttl of a [setex]. *)
Lemma postgresql_call_stopped `{Engine} `{Fnmatch} (cl : call) (s s' : state)
    (e : exn) :
  (∀ A (stmt : table → A * table),
     _pooled_execute_stmt (option_list (key_of (what cl))) stmt s =
       (Raise e, s')) →
  postgresql_call cl s =
    if overflows (what cl) then (Raise OverflowError, s) else (Raise e, s').
Proof.
  intros Hstop. unfold postgresql_call, fmap_M, bind.
  destruct (what cl) as [k v|k v n|k|k|k|k|p|p]; cbn;
    unfold set, setex, get, delete, exists_, ttl, scan_iter, keys, get, bind,
      time_time, float_add_int; cbn;
    try (by rewrite Hstop).
  destruct (float_overflows n); cbn; [done|]. by rewrite Hstop.
Qed.

(** On a backend whose [pool] is [None], statements cannot start. *)
Lemma _pooled_execute_stmt_closed {A} params (stmt : table → A * table)
    (s : state) :
  pool_attr s.1 = None →
  _pooled_execute_stmt params stmt s = (Raise AttributeError, s).
Proof.
  intros Hp. unfold _pooled_execute_stmt, _get_conn, bind, self_get.
  by rewrite Hp.
Qed.

(** The connection at the top of the pool is closed: the statement raises
    after the connection was checked out, and nothing gives it back. *)
Lemma _pooled_execute_stmt_dropped {A} params (stmt : table → A * table)
    (s : state) p c rest :
  pool_attr s.1 = Some p → closed p = false → pooled p = c :: rest →
  c ∉ live s.2 →
  _pooled_execute_stmt params stmt s =
    (Raise InterfaceError,
     (set_pool (Some (Pool (minconn p) (maxconn p) rest (c :: used p) false)) s.1,
      s.2)).
Proof.
  destruct s as [[url pool timeout] w], p as [minc maxc idle used cl].
  cbn. intros -> -> -> Hl.
  unfold _pooled_execute_stmt, _get_conn, getconn, execute, conn_execute,
    self_get, self_set, bind, ret. cbn.
  by rewrite decide_False.
Qed.

(** Nothing idle and [maxconn] connections checked out: the pool refuses. *)
Lemma _pooled_execute_stmt_exhausted {A} params (stmt : table → A * table)
    (s : state) p :
  pool_attr s.1 = Some p → closed p = false → pooled p = [] →
  length (used p) = maxconn p →
  _pooled_execute_stmt params stmt s = (Raise PoolError, s).
Proof.
  destruct s as [[url pool timeout] w], p as [minc maxc idle used cl].
  cbn. intros -> -> -> Hlen.
  unfold _pooled_execute_stmt, _get_conn, getconn, self_get, bind. cbn.
  by rewrite decide_True.
Qed.

(** [closeall] touches the connections only. *)
Lemma close_each_self {B} (conns : list nat) (s : B * world) :
  (close_each conns s).2.1 = s.1.
Proof.
  revert s. induction conns as [|c conns IH]; intros s; [done|].
  cbn. unfold bind, try_pass, conn_close. cbn. by rewrite IH.
Qed.

Lemma closeall_self {B} (p : pool) (s : B * world) : (closeall p s).2.1 = s.1.
Proof.
  unfold closeall. destruct (closed p); [done|]. unfold bind.
  pose proof (close_each_self (pooled p ++ used p) s) as Hs.
  by destruct (close_each (pooled p ++ used p) s) as [[[]|e] s'].
Qed.

(** Whatever state [close] is called in, [self.pool] is [None] afterwards. *)
Lemma close_drops_pool (s : state) : pool_attr (close s).2.1 = None.
Proof.
  destruct s as [[url [p|] timeout] w]; [|done].
  unfold close, bind, self_get, self_set. cbn.
  pose proof (closeall_self p (set_pool None (Self url (Some p) timeout), w)) as Hs.
  by destruct (closeall p _) as [[?|?] s']; cbn in *; rewrite Hs.
Qed.

Lemma settled_at_time c now (s : state) : settled c s → settled c (at_time now s).
Proof. done. Qed.

Lemma postgresql_on_settled t now : settled 0 (postgresql_on t now).
Proof.
  eexists _, []. split_and!; [reflexivity..|cbn; lia|].
  cbn. by apply elem_of_singleton.
Qed.

End PostgreSQLConnFacts.

(** ** More facts about [Logical] *)

Module LogicalMore.

Lemma not_expired now e :
  expired now (Some e) = false ↔ (now < e)%Q.
Proof.
  cbn. rewrite <-not_true_iff_false, Qle_bool_iff.
  split; [apply Qnot_le_lt|apply Qlt_not_le].
Qed.

(** An operation on one key leaves the records of the other keys alone. *)
Lemma call_frame `{Engine} `{Fnmatch} now o t k k' :
  key_of o = Some k → k' ≠ k → (logical_call now o t).2 !! k' = t !! k'.
Proof.
  intros Ho Hne.
  destruct o as [k0 v|k0 v n|k0|k0|k0|k0|p|p]; simplify_eq/=.
  - by apply lookup_insert_ne.
  - destruct (float_overflows n); [done|]. by apply lookup_insert_ne.
  - unfold Logical.get. destruct (t !! k) as [r|]; [|done].
    destruct (expired now (expires_at r)); [by apply lookup_delete_ne|done].
  - by apply lookup_delete_ne.
  - unfold Logical.get. destruct (t !! k) as [r|]; [|done].
    destruct (expired now (expires_at r)); [by apply lookup_delete_ne|done].
  - done.
Qed.

(** A read removes expired records and does nothing else to the table. *)
Lemma read_only_purges `{Engine} `{Fnmatch} now o t k r :
  is_read o = true →
  ((logical_call now o t).2 !! k = Some r → t !! k = Some r) ∧
  (t !! k = Some r → expired now (expires_at r) = false →
   (logical_call now o t).2 !! k = Some r).
Proof.
  intros Ho.
  assert (Hget : ∀ k0,
    ((Logical.get now k0 t).2 !! k = Some r → t !! k = Some r) ∧
    (t !! k = Some r → expired now (expires_at r) = false →
     (Logical.get now k0 t).2 !! k = Some r)).
  { intros k0. unfold Logical.get. destruct (t !! k0) as [r0|] eqn:Hk0; [|done].
    destruct (expired now (expires_at r0)) eqn:He0; [|done]. cbn.
    rewrite lookup_delete_Some. split; [by intros [_ ?]|].
    intros Hk He. split; [|done]. intros ->. congruence. }
  destruct o as [k0 v|k0 v n|k0|k0|k0|k0|p|p]; try done;
    unfold logical_call; cbn [snd]; try apply Hget;
    rewrite LogicalFacts.keys_table, LogicalFacts.purge_lookup_Some;
    (split; [by intros [? _]|done]).
Qed.

(** Before its expiry, an entry written by [setex] is read back as written. *)
Lemma get_setex_live now now' k v n t :
  (now' < now + float_of_int n)%Q →
  Logical.get now' k (Logical.setex now k v n t) =
    (Some (blob_of v), Logical.setex now k v n t).
Proof.
  intros Hlt. unfold Logical.get, Logical.setex. rewrite lookup_insert_eq.
  cbn [expires_at value]. by rewrite (proj2 (not_expired _ _)).
Qed.

Lemma ttl_setex_live now now' k v n t :
  (now <= now')%Q → (now' < now + float_of_int n)%Q →
  Logical.ttl now' k (Logical.setex now k v n t) =
    Qfloor (float_of_int n - (now' - now)) ∧
  0 ≤ Logical.ttl now' k (Logical.setex now k v n t) ≤ n.
Proof.
  intros Hle Hlt. unfold Logical.ttl, Logical.setex. rewrite lookup_insert_eq.
  cbn [expires_at].
  destruct (LogicalFacts.int_of_float_nonnegative (now + float_of_int n - now'))
    as [Hfl Hnn]; [lra|].
  rewrite (proj2 (Z.leb_le _ _)) by done.
  assert (Qfloor (now + float_of_int n - now') =
          Qfloor (float_of_int n - (now' - now))) as Heq.
  { apply Qfloor_comp. ring. }
  rewrite Hfl, Heq. split; [done|]. split; [by rewrite <-Heq, <-Hfl|].
  transitivity (Qfloor (inject_Z n)); [|by rewrite Qfloor_Z].
  apply Qfloor_resp_le. unfold float_of_int. lra.
Qed.

(** [exists] is true exactly for a key with a record that is not expired. *)
Lemma exists_true now k t :
  (Logical.exists_ now k t).1 = true ↔
  ∃ r, t !! k = Some r ∧ expired now (expires_at r) = false.
Proof.
  unfold Logical.exists_, Logical.get. cbn [fst].
  destruct (t !! k) as [r|]; [destruct (expired now (expires_at r)) eqn:He|]; cbn.
  - split; [done|]. intros (r' & [= <-] & ?). congruence.
  - split; [|done]. intros _. by exists r.
  - split; [done|]. by intros (r' & ? & _).
Qed.

(** What [get] returns against what [ttl] returns. *)
Lemma get_vs_ttl now k t :
  ((Logical.get now k t).1 ≠ None →
   Logical.ttl now k t = -1 ∨ 0 ≤ Logical.ttl now k t) ∧
  (Logical.ttl now k t = -1 ∨ 1 ≤ Logical.ttl now k t →
   (Logical.get now k t).1 ≠ None).
Proof.
  unfold Logical.get, Logical.ttl.
  destruct (t !! k) as [[v [e|]]|]; cbn [expires_at value fst].
  - destruct (expired now (Some e)) eqn:He; cbn [fst].
    + split; [done|]. apply Qle_bool_iff in He.
      destruct (Z.leb_spec 0 (int_of_float (e - now))) as [Hnn|Hneg]; [|lia].
      intros [?|Hge]; [lia|]. exfalso.
      destruct (Qlt_le_dec (-1) (e - now)) as [Hs|Hs].
      * rewrite LogicalFacts.int_of_float_small in Hge by lra. lia.
      * pose proof (LogicalFacts.int_of_float_negative _ Hs). lia.
    + split; [|done]. intros _. right. apply not_expired in He.
      destruct (LogicalFacts.int_of_float_nonnegative (e - now)) as [_ Hnn]; [lra|].
      by rewrite (proj2 (Z.leb_le _ _)).
  - split; [by left|done].
  - split; [done|]. intros [?|?]; lia.
Qed.

Section engine.
Context `{E : Engine} `{F : Fnmatch}.

(** [keys] lists the matching keys for which [exists] is true. *)
Lemma keys_elem_exists now pattern t k :
  k ∈ (Logical.keys now pattern t).1 ↔
  fnmatch k pattern = true ∧ (Logical.exists_ now k t).1 = true.
Proof.
  rewrite LogicalFacts.keys_elem, exists_true. split.
  - intros (r & ? & ? & ?). split; [done|]. by exists r.
  - intros (? & r & ? & ?). by exists r.
Qed.

Lemma purge_purge now t : Logical.purge now (Logical.purge now t) = Logical.purge now t.
Proof.
  apply map_eq. intros k. apply option_eq. intros r.
  rewrite !LogicalFacts.purge_lookup_Some. split; [by intros [[??] _]|].
  by intros [??].
Qed.

(** A second [keys] at the same time finds the same keys and nothing left
    to delete. *)
Lemma keys_again now pattern t :
  (Logical.keys now pattern (Logical.keys now pattern t).2).1 ≡ₚ
    (Logical.keys now pattern t).1 ∧
  (Logical.keys now pattern (Logical.keys now pattern t).2).2 =
    (Logical.keys now pattern t).2.
Proof.
  rewrite !LogicalFacts.keys_table, purge_purge. split; [|done].
  apply NoDup_Permutation; [apply LogicalFacts.keys_NoDup..|].
  intros k. rewrite !LogicalFacts.keys_elem.
  split.
  - intros (r & [??]%LogicalFacts.purge_lookup_Some & _ & ?). by exists r.
  - intros (r & ? & ? & ?). exists r. split; [|done].
    by apply LogicalFacts.purge_lookup_Some.
Qed.

End engine.

End LogicalMore.

(** * Further properties of the code *)

Section further.
Local Open Scope string_scope.

Lemma stale_false tid (s : SQLite.state) :
  SQLiteConn.stale tid s = false ↔
  (clock s.2 - SQLiteConn.last_used tid s <= SQLite.idle_timeout s.1)%Q.
Proof.
  unfold SQLiteConn.stale, Qgt_bool. rewrite negb_false_iff. apply Qle_bool_iff.
Qed.

Lemma stale_true tid (s : SQLite.state) :
  SQLiteConn.stale tid s = true ↔
  (SQLite.idle_timeout s.1 < clock s.2 - SQLiteConn.last_used tid s)%Q.
Proof.
  unfold SQLiteConn.stale, Qgt_bool. rewrite negb_true_iff.
  rewrite <-not_true_iff_false, Qle_bool_iff. split; [apply Qnot_le_lt|apply Qlt_not_le].
Qed.

(** X1: a thread whose cached connection was used no longer than
    [idle_timeout] ago gets that same connection from [_get_conn]: nothing is
    opened or closed, and only the thread's [last_used] moves to now. *)
Theorem X1_sqlite_connection_reused (tid c : nat) (s : SQLite.state) :
  SQLite.local_conn s.1 !! tid = Some c →
  (clock s.2 - SQLiteConn.last_used tid s <= SQLite.idle_timeout s.1)%Q →
  SQLite._get_conn tid s =
    (Return c, (SQLite.set_local_last_used tid (clock s.2) s.1, s.2)).
Proof.
  intros Hc Hs. apply SQLiteConnFacts._get_conn_reuse; [done|].
  by apply stale_false.
Qed.

Lemma X1_witness :
  let s := at_time 60 (SQLite.set 0 "k" (VBytes []) (sqlite_on ∅ 0)).2 in
  SQLite._get_conn 0 s =
    (Return 0%nat, (SQLite.set_local_last_used 0 (clock s.2) s.1, s.2)).
Proof.
  intros s. apply (X1_sqlite_connection_reused 0 0 s);
    [reflexivity | vm_compute; discriminate].
Defined.



(** What [__init__] returns when it returns. *)
Lemma sqlite_init_returns (fs : SQLiteInit.file_system) (path : string)
    (timeout : Q) (self : SQLite.SQLiteBackend) :
  (SQLiteInit.__init__ fs path timeout).1 = inl self →
  SQLite.local_conn self = ∅ ∧ SQLite.local_last_used self = ∅ ∧
  SQLite.idle_timeout self = timeout.
Proof.
  unfold SQLiteInit.__init__.
  destruct (_ && _); [destruct (SQLiteInit.makedirs fs _)|]; cbn;
    by intros [= <-].
Qed.



(** X4: a [PostgreSQLBackend] whose pool is as [__init__] or an earlier
    call left it (an open idle connection at the top, nothing checked out)
    runs every sequence of operations on keys without NUL characters on
    connections of the pool and gives each back: no call raises, except that
    a [setex] whose ttl does not convert to a float raises [OverflowError],
    and afterwards the backend object, the pool and the set of open
    connections are what they were. No further connection is ever opened. *)
Theorem X4_postgresql_reuses_its_connection (E : Engine) (F : Fnmatch)
    (calls : list call) (c : nat) (s : PostgreSQL.state) :
  PostgreSQLConn.settled c s → PostgreSQLInv.text_keys (db s.2) →
  Forall (λ cl, nul_free (what cl) = true) calls →
  let r := run (@postgresql_call E F) calls s in
  Forall2 (λ cl o, if overflows (what cl) then o = Raise OverflowError
                   else ∃ v, o = Return v) calls r.1 ∧
  r.2.1 = s.1 ∧ live r.2.2 = live s.2 ∧ fresh r.2.2 = fresh s.2.
Proof.
  revert s. induction calls as [|cl calls IH]; intros s Hs Ht Hnul; cbn.
  - split; [apply Forall2_nil_2|done].
  - apply Forall_cons in Hnul as [Hcl Hnul].
    rewrite (PostgreSQLConnFacts.postgresql_call_settled c) by done. cbn.
    edestruct IH as (? & -> & -> & ->); [| |exact Hnul|split_and!; [|done..]].
    + exact Hs.
    + cbn. by apply PostgreSQLFacts.text_keys_logical_call.
    + constructor; [|done]. apply logical_call_outcome.
Qed.

Lemma X4_witness :
  let calls := [Call 0 0 (OpSetex "a" (VStr "x") 5); Call 1 3 (OpGet "a");
                Call 2 9 (OpKeys "*"); Call 0 9 (OpTtl "a")] in
  let s := postgresql_on ∅ 0 in
  let r := run (@postgresql_call listing_engine Glob.glob) calls s in
  Forall2 (λ cl o, if overflows (what cl) then o = Raise OverflowError
                   else ∃ v, o = Return v) calls r.1 ∧
  r.2.1 = s.1 ∧ live r.2.2 = live s.2 ∧ fresh r.2.2 = fresh s.2.
Proof.
  intros calls s.
  apply (X4_postgresql_reuses_its_connection listing_engine Glob.glob calls 0 s);
    [ apply PostgreSQLConnFacts.postgresql_on_settled
    | apply PostgreSQLFacts.text_keys_empty
    | repeat constructor ].
Defined.

(** X5: after [close], in whatever state it was called, every operation
    of the [PostgreSQLBackend] raises and changes nothing; the table is not
    read. The exception is [AttributeError] ([self.pool] is [None]), except
    for a [setex] whose ttl does not convert to a float, which raises
    [OverflowError] before it looks at the pool. *)
Theorem X5_postgresql_unusable_after_close (E : Engine) (F : Fnmatch)
    (cl : call) (now : Q) (s : PostgreSQL.state) :
  let s' := at_time now (PostgreSQL.close s).2 in
  @postgresql_call E F cl s' =
    (Raise (if overflows (what cl) then OverflowError else AttributeError), s').
Proof.
  intros s'. rewrite (PostgreSQLConnFacts.postgresql_call_stopped cl s' s'
                        AttributeError).
  - by destruct (overflows (what cl)).
  - intros A stmt. apply PostgreSQLConnFacts._pooled_execute_stmt_closed.
    apply PostgreSQLConnFacts.close_drops_pool.
Qed.

(** X6: [_pooled_execute_stmt] gives the connection back only after the
    statement succeeded. When the connection the pool hands out has been
    closed, every operation that gets as far as the pool raises
    [InterfaceError], leaves the table alone, and leaves that connection
    checked out: it has moved from the idle list of the pool to its used
    list. (A [setex] whose ttl does not convert to a float raises
    [OverflowError] before that and changes nothing.) *)
Theorem X6_postgresql_failed_call_keeps_connection (E : Engine) (F : Fnmatch)
    (cl : call) (s : PostgreSQL.state) (p : PostgreSQL.pool) (c : nat)
    (rest : list nat) :
  PostgreSQL.pool_attr s.1 = Some p → PostgreSQL.closed p = false →
  PostgreSQL.pooled p = c :: rest → c ∉ live s.2 →
  @postgresql_call E F cl s =
    if overflows (what cl) then (Raise OverflowError, s)
    else (Raise InterfaceError,
          (PostgreSQL.set_pool
             (Some (PostgreSQL.Pool (PostgreSQL.minconn p) (PostgreSQL.maxconn p)
                      rest (c :: PostgreSQL.used p) false)) s.1,
           s.2)).
Proof.
  intros Hp Hc Hi Hl. apply PostgreSQLConnFacts.postgresql_call_stopped.
  intros A stmt. by apply PostgreSQLConnFacts._pooled_execute_stmt_dropped.
Qed.

Lemma X6_witness :
  let p := PostgreSQL.Pool 1 4 [0%nat] [] false in
  let s : PostgreSQL.state :=
    (PostgreSQL.Self "postgresql:///derivagrps" (Some p) 60, World ∅ 0 ∅ 1) in
  let cl := Call 0 0 (OpGet "k") in
  @postgresql_call listing_engine Glob.glob cl s =
    if overflows (what cl) then (Raise OverflowError, s)
    else (Raise InterfaceError,
          (PostgreSQL.set_pool
             (Some (PostgreSQL.Pool (PostgreSQL.minconn p) (PostgreSQL.maxconn p)
                      [] (0%nat :: PostgreSQL.used p) false)) s.1,
           s.2)).
Proof.
  intros p s cl.
  apply (X6_postgresql_failed_call_keeps_connection listing_engine Glob.glob
           cl s p 0 []);
    [reflexivity | reflexivity | reflexivity | apply not_elem_of_empty].
Defined.

(** X7: with no idle connection and [maxconn] connections checked out,
    every operation that gets as far as the pool raises [PoolError] at once
    and changes nothing: the backend does not wait for a connection. (A
    [setex] whose ttl does not convert to a float raises [OverflowError]
    before that.) *)
Theorem X7_postgresql_exhausted_pool_raises (E : Engine) (F : Fnmatch)
    (cl : call) (s : PostgreSQL.state) (p : PostgreSQL.pool) :
  PostgreSQL.pool_attr s.1 = Some p → PostgreSQL.closed p = false →
  PostgreSQL.pooled p = [] →
  length (PostgreSQL.used p) = PostgreSQL.maxconn p →
  @postgresql_call E F cl s =
    (Raise (if overflows (what cl) then OverflowError else PoolError), s).
Proof.
  intros Hp Hc Hi Hlen.
  rewrite (PostgreSQLConnFacts.postgresql_call_stopped cl s s PoolError).
  - by destruct (overflows (what cl)).
  - intros A stmt. by apply (PostgreSQLConnFacts._pooled_execute_stmt_exhausted _ _ s p).
Qed.

Lemma X7_witness :
  let p := PostgreSQL.Pool 1 4 [] [3; 2; 1; 0]%nat false in
  let s : PostgreSQL.state :=
    (PostgreSQL.Self "postgresql:///derivagrps" (Some p) 60, World ∅ 0 ∅ 4) in
  let cl := Call 0 0 (OpSet "k" (VStr "v")) in
  @postgresql_call listing_engine Glob.glob cl s =
    (Raise (if overflows (what cl) then OverflowError else PoolError), s).
Proof.
  intros p s cl.
  apply (X7_postgresql_exhausted_pool_raises listing_engine Glob.glob
           cl s p); reflexivity.
Defined.

(** A call on a key with a NUL character stops at the parameters: the
    table is as it was, and the connection that was checked out for the call
    stays checked out. *)
Lemma postgresql_call_nul (E : Engine) (F : Fnmatch) (cl : call) (k : string)
    (s : PostgreSQL.state) :
  PostgreSQLInv.pool_ok s → PostgreSQLInv.is_open s →
  key_of (what cl) = Some k → no_nul k = false →
  ∃ c s' p rest,
    @postgresql_call E F cl s =
      (if overflows (what cl) then (Raise OverflowError, s)
       else (Raise ValueError, s')) ∧
    PostgreSQL.pool_attr s.1 = Some p ∧
    s'.1 = PostgreSQL.set_pool
             (Some (PostgreSQL.Pool (PostgreSQL.minconn p) (PostgreSQL.maxconn p)
                      rest [c] false)) s.1 ∧
    db s'.2 = db s.2 ∧ clock s'.2 = clock s.2 ∧ c ∈ live s'.2.
Proof.
  intros Hp Hopen Hk Hnul.
  destruct (PostgreSQLFacts._pooled_execute_stmt_nul [k] s Hp Hopen)
    as (c & s' & p & rest & E' & ?); [cbn; by rewrite Hnul|].
  exists c, s', p, rest. split; [|done].
  apply PostgreSQLConnFacts.postgresql_call_stopped. by rewrite Hk.
Qed.

(** The table a call leaves, on each backend: the one [logical_call]
    computes or, on the PostgreSQL backend for a key with a NUL character,
    the table as it was. *)
Lemma calls_compute (E1 E2 : Engine) (F : Fnmatch) (cl : call)
    (s1 : SQLite.state) (s2 : PostgreSQL.state) :
  SQLiteInv.wf s1 → PostgreSQLInv.wf s2 → PostgreSQLInv.is_open s2 →
  (is_Some (key_of (what cl)) →
   db (@sqlite_call E1 F cl s1).2.2 =
     (@logical_call E1 F (clock s1.2) (what cl) (db s1.2)).2) ∧
  (db (@postgresql_call E2 F cl s2).2.2 =
     (@logical_call E2 F (clock s2.2) (what cl) (db s2.2)).2 ∨
   db (@postgresql_call E2 F cl s2).2.2 = db s2.2).
Proof.
  intros Hwf1 Hwf2 Hopen. split.
  - intros Hk.
    by destruct (@SQLiteFacts.sqlite_call_spec E1 F cl s1 Hwf1 (or_introl Hk))
      as (_ & _ & ? & _).
  - destruct (nul_free (what cl)) eqn:Hnul.
    + left.
      by destruct (@PostgreSQLFacts.postgresql_call_spec E2 F cl s2 Hwf2 Hopen Hnul)
        as (_ & (_ & _ & ? & _) & _).
    + right. unfold nul_free in Hnul.
      destruct (key_of (what cl)) as [k|] eqn:Hk; [|done].
      destruct (postgresql_call_nul E2 F cl k s2 (proj1 Hwf2) Hopen Hk Hnul)
        as (c & s' & p & rest & -> & _ & _ & Hdb & _).
      by destruct (overflows (what cl)).
Qed.





(** An int of at most 53 bits converts to a float. *)
Lemma float_overflows_small (n : Z) :
  (Z.abs n ≤ 9007199254740992)%Z → float_overflows n = false.
Proof.
  intros Hn. unfold float_overflows. apply Z.leb_gt.
  assert (9007199254740992 < float_limit)%Z as Hlim by (by vm_compute).
  revert Hlim. generalize float_limit. intros L HL. lia.
Qed.

(** The seconds left, for clock readings in ticks. *)
Lemma ticks_left (a a' n : Z) :
  Qfloor (float_of_int n - (ticks a' - ticks a)) =
  ((a + n * 4194304 - a') / 4194304)%Z.
Proof.
  transitivity (Qfloor ((a + n * 4194304 - a') # 4194304)); [|done].
  apply Qfloor_comp. unfold float_of_int, ticks, Qeq, Qminus, Qplus, Qopp.
  cbn. lia.
Qed.

(** X10: before its expiry an entry written by [setex(k, v, ttl)] is read
    back as written. Let the clock read [a] ticks of [2^-22] s at the
    [setex] and [a'] ticks at the reads, with [a <= a' < a + ttl * 2^22]
    and the expiry not beyond [2^31] s, so that the sums and differences of
    the code are exact in double arithmetic. Then [get(k)] returns the bytes
    of [v] (a [str] in its UTF-8 encoding), [exists(k)] is true, and [ttl(k)]
    is the whole seconds left, [(a + ttl * 2^22 - a') / 2^22] rounded down,
    between 0 and [ttl]. This holds on the SQLite backend (on a database
    file) for every key and on the PostgreSQL backend for every key without
    a NUL character. *)
Theorem X10_setex_read_back_before_expiry (key : string) (v : pyvalue)
    (n a a' : Z) (tid tid' : nat) (s1 : SQLite.state) (s2 : PostgreSQL.state) :
  SQLiteInv.wf s1 → SQLiteInv.on_file s1 →
  PostgreSQLInv.wf s2 → PostgreSQLInv.is_open s2 →
  (0 ≤ a ≤ a')%Z → (a' < a + n * 4194304)%Z →
  (a + n * 4194304 ≤ 9007199254740992)%Z →
  let a1 := at_time (ticks a') (SQLite.setex tid key v n (at_time (ticks a) s1)).2 in
  let a2 := at_time (ticks a') (PostgreSQL.setex key v n (at_time (ticks a) s2)).2 in
  let left := ((a + n * 4194304 - a') / 4194304)%Z in
  (0 ≤ left ≤ n)%Z ∧
  ((SQLite.get tid' key a1).1 = Return (Some (blob_of v)) ∧
   (SQLite.exists_ tid' key a1).1 = Return true ∧
   (SQLite.ttl tid' key a1).1 = Return left) ∧
  (no_nul key = true →
   (PostgreSQL.get key a2).1 = Return (Some (blob_of v)) ∧
   (PostgreSQL.exists_ key a2).1 = Return true ∧
   (PostgreSQL.ttl key a2).1 = Return left).
Proof.
  intros Hwf1 _ [Hp2 _] Hopen Ha Ha' Hmax a1 a2 left.
  set (now := ticks a) in *. set (now' := ticks a') in *.
  assert (now <= now')%Q as Hle by (unfold now, now', ticks, Qle; cbn; lia).
  assert (now' < now + float_of_int n)%Q as Hlt.
  { unfold now, now', ticks, float_of_int, Qlt, Qplus. cbn. lia. }
  assert (float_overflows n = false) as Hfl by (apply float_overflows_small; lia).
  assert (Hlog : ∀ t,
    (Logical.get now' key (Logical.setex now key v n t)).1 = Some (blob_of v) ∧
    (Logical.exists_ now' key (Logical.setex now key v n t)).1 = true ∧
    Logical.ttl now' key (Logical.setex now key v n t) = left ∧
    (0 ≤ left ≤ n)%Z).
  { intros t. destruct (LogicalMore.ttl_setex_live now now' key v n t Hle Hlt)
      as [Ht Hb]. rewrite Ht in Hb. unfold now, now' in Ht, Hb.
    rewrite ticks_left in Ht, Hb.
    split; [by rewrite LogicalMore.get_setex_live|].
    split; [unfold Logical.exists_; by rewrite LogicalMore.get_setex_live|].
    by split. }
  split; [apply (Hlog ∅)|]. split.
  - destruct (wp_returns_tt _ _ _
      (SQLiteFacts.sqlite_setex_spec tid key v n _
         (SQLiteFacts.sqlite_wf_at_time now _ Hwf1) Hfl)) as (_ & Hwf & Hdb & _).
    apply (SQLiteFacts.sqlite_wf_at_time now') in Hwf. fold a1 in Hwf.
    destruct (wp_returns _ _ _ _ (SQLiteFacts.sqlite_get_spec tid' key a1 Hwf))
      as (Eg & _).
    destruct (wp_returns _ _ _ _ (SQLiteFacts.sqlite_exists_spec tid' key a1 Hwf))
      as (Ee & _).
    destruct (wp_returns _ _ _ _ (SQLiteFacts.sqlite_ttl_spec tid' key a1 Hwf))
      as (Et & _).
    subst a1. cbn [at_time snd fst db clock] in *. rewrite Hdb in Eg, Ee, Et.
    destruct (Hlog (db s1.2)) as (Hg & He & Ht & _).
    by rewrite Hg in Eg; rewrite He in Ee; rewrite Ht in Et.
  - intros Hnul.
    destruct (wp_returns_tt _ _ _
      (PostgreSQLFacts.pg_setex_spec key v n _
         (PostgreSQLFacts.pool_ok_at_time now _ Hp2)
         (PostgreSQLFacts.is_open_at_time now _ Hopen) Hnul Hfl))
      as (_ & Hwf & Hop & Hdb & _).
    apply (PostgreSQLFacts.pool_ok_at_time now') in Hwf.
    apply (PostgreSQLFacts.is_open_at_time now') in Hop. fold a2 in Hwf, Hop.
    destruct (wp_returns _ _ _ _ (PostgreSQLFacts.pg_get_spec key a2 Hwf Hop Hnul))
      as (Eg & _).
    destruct (wp_returns _ _ _ _ (PostgreSQLFacts.pg_exists_spec key a2 Hwf Hop Hnul))
      as (Ee & _).
    destruct (wp_returns _ _ _ _ (PostgreSQLFacts.pg_ttl_spec key a2 Hwf Hop Hnul))
      as (Et & _).
    subst a2. cbn [at_time snd fst db clock] in *. rewrite Hdb in Eg, Ee, Et.
    destruct (Hlog (db s2.2)) as (Hg & He & Ht & _).
    by rewrite Hg in Eg; rewrite He in Ee; rewrite Ht in Et.
Qed.

Lemma X10_witness :
  let v := VStr "alice" in
  let a := 7381975040000000%Z in
  let a' := (a + 6291456)%Z in
  let a1 := at_time (ticks a')
              (SQLite.setex 0 "g:1" v 2 (at_time (ticks a) (sqlite_on ∅ 0))).2 in
  let a2 := at_time (ticks a')
              (PostgreSQL.setex "g:1" v 2 (at_time (ticks a) (postgresql_on ∅ 0))).2 in
  let left := ((a + 2 * 4194304 - a') / 4194304)%Z in
  (0 ≤ left ≤ 2)%Z ∧
  ((SQLite.get 1 "g:1" a1).1 = Return (Some (blob_of v)) ∧
   (SQLite.exists_ 1 "g:1" a1).1 = Return true ∧
   (SQLite.ttl 1 "g:1" a1).1 = Return left) ∧
  (no_nul "g:1" = true →
   (PostgreSQL.get "g:1" a2).1 = Return (Some (blob_of v)) ∧
   (PostgreSQL.exists_ "g:1" a2).1 = Return true ∧
   (PostgreSQL.ttl "g:1" a2).1 = Return left).
Proof.
  intros v a a'.
  apply (X10_setex_read_back_before_expiry "g:1" v 2 a a' 0 1
           (sqlite_on ∅ 0) (postgresql_on ∅ 0));
    [ apply SQLiteFacts.sqlite_on_wf | apply SQLiteFacts.sqlite_on_file
    | apply PostgreSQLFacts.postgresql_on_wf; text_keys
    | apply PostgreSQLFacts.postgresql_on_open
    | unfold a, a'; lia | unfold a, a'; lia | unfold a, a'; lia ].
Defined.



(** X12: [ttl] and [get] from the same state: when [get(k)] returns a value,
    [ttl(k)] is -1 or at least 0, never -2; and when [ttl(k)] is -1 or at
    least 1, [get(k)] returns a value. This holds on the SQLite backend (on
    a database file) for every key and on the PostgreSQL backend for every
    key without a NUL character. *)
Theorem X12_ttl_against_get (key : string) (tid tid' : nat)
    (s1 : SQLite.state) (s2 : PostgreSQL.state) :
  SQLiteInv.wf s1 → SQLiteInv.on_file s1 →
  PostgreSQLInv.wf s2 → PostgreSQLInv.is_open s2 →
  (∃ g n, (SQLite.get tid key s1).1 = Return g ∧
          (SQLite.ttl tid' key s1).1 = Return n ∧
          (g ≠ None → n = -1 ∨ 0 ≤ n)%Z ∧ ((n = -1 ∨ 1 ≤ n)%Z → g ≠ None)) ∧
  (no_nul key = true →
   ∃ g n, (PostgreSQL.get key s2).1 = Return g ∧
          (PostgreSQL.ttl key s2).1 = Return n ∧
          (g ≠ None → n = -1 ∨ 0 ≤ n)%Z ∧ ((n = -1 ∨ 1 ≤ n)%Z → g ≠ None)).
Proof.
  intros Hwf1 _ [Hp2 _] Hopen. split.
  - destruct (wp_returns _ _ _ _ (SQLiteFacts.sqlite_get_spec tid key s1 Hwf1))
      as (Eg & _).
    destruct (wp_returns _ _ _ _ (SQLiteFacts.sqlite_ttl_spec tid' key s1 Hwf1))
      as (Et & _).
    eexists _, _. split_and!; [exact Eg|exact Et|..];
      apply LogicalMore.get_vs_ttl.
  - intros Hnul.
    destruct (wp_returns _ _ _ _ (PostgreSQLFacts.pg_get_spec key s2 Hp2 Hopen Hnul))
      as (Eg & _).
    destruct (wp_returns _ _ _ _ (PostgreSQLFacts.pg_ttl_spec key s2 Hp2 Hopen Hnul))
      as (Et & _).
    eexists _, _. split_and!; [exact Eg|exact Et|..];
      apply LogicalMore.get_vs_ttl.
Qed.

Lemma X12_witness :
  let t : table := {["k" := Row [] (Some 7%Q)]} in
  let s1 := sqlite_on t 5 in
  let s2 := postgresql_on t 5 in
  (∃ g n, (SQLite.get 0 "k" s1).1 = Return g ∧
          (SQLite.ttl 1 "k" s1).1 = Return n ∧
          (g ≠ None → n = -1 ∨ 0 ≤ n)%Z ∧ ((n = -1 ∨ 1 ≤ n)%Z → g ≠ None)) ∧
  (no_nul "k" = true →
   ∃ g n, (PostgreSQL.get "k" s2).1 = Return g ∧
          (PostgreSQL.ttl "k" s2).1 = Return n ∧
          (g ≠ None → n = -1 ∨ 0 ≤ n)%Z ∧ ((n = -1 ∨ 1 ≤ n)%Z → g ≠ None)).
Proof.
  intros t s1 s2.
  apply (X12_ttl_against_get "k" 0 1 s1 s2);
    [ apply SQLiteFacts.sqlite_on_wf | apply SQLiteFacts.sqlite_on_file
    | apply PostgreSQLFacts.postgresql_on_wf; text_keys
    | apply PostgreSQLFacts.postgresql_on_open ].
Defined.



(** Once suspended, a generator hands out the keys it holds and touches
    nothing. *)
Lemma take_suspended {B} (n : nat) (keys : M B (list string))
    (rest : list string) (s : B * world) :
  (length rest < n)%nat →
  Generator.take n keys (Generator.Suspended rest) s = (rest, Generator.Finished, s).
Proof.
  revert n. induction rest as [|k rest IH]; intros [|n] Hn; cbn in *; try lia.
  - done.
  - by rewrite IH by lia.
Qed.

Lemma take_created {B} (n : nat) (keys : M B (list string)) (ks : list string)
    (s s' : B * world) :
  keys s = (Return ks, s') → (length ks < n)%nat →
  Generator.take n keys Generator.Created s = (ks, Generator.Finished, s').
Proof.
  intros E Hn. destruct n as [|n]; [lia|]. cbn. rewrite E.
  destruct ks as [|k rest]; [done|]. cbn in Hn. by rewrite take_suspended by lia.
Qed.



(** X15: [init_audit_logger] adds exactly one handler, with the JSON
    formatter that renames [message] to [event], after the handlers the
    logger already has, and sets the level to INFO. The handler is the syslog
    handler exactly when syslog was asked for, [/dev/log] exists and is
    writable, and [SysLogHandler] did not raise; it is the daily rotating file
    handler exactly when syslog was not asked for, or was and [SysLogHandler]
    raised, and [TimedRotatingFileHandler] did not raise. When syslog was
    asked for and [/dev/log] is missing or not writable, the file handler is
    not tried: the handler is the plain stream handler and nothing is
    printed. *)
Theorem X15_audit_handler_choice {V} (os : AuditLogger.surroundings)
    (filename : string) (use_syslog : bool) (lg : AuditLogger.logger V) :
  let socket_ok :=
    AuditLogger.path_exists os "/dev/log" && AuditLogger.writable os "/dev/log" in
  let r := AuditLogger.init_audit_logger os filename use_syslog lg in
  ∃ h,
    AuditLogger.handlers r.1 =
      (AuditLogger.handlers lg ++
       [(h, AuditLogger.JsonFormatter "{message}" "{" [("message", "event")])])%list ∧
    AuditLogger.level r.1 = Some 20%nat ∧
    (h = AuditLogger.SysLogHandler "/dev/log" 17 "credenza-audit: " ↔
       use_syslog = true ∧ socket_ok = true ∧
       AuditLogger.syslog_raises os "/dev/log" = None) ∧
    (h = AuditLogger.TimedRotatingFileHandler filename "D" 1 0 ↔
       (use_syslog = false ∨
        (socket_ok = true ∧ AuditLogger.syslog_raises os "/dev/log" ≠ None)) ∧
       AuditLogger.file_raises os filename = None) ∧
    (use_syslog = true → socket_ok = false →
       h = AuditLogger.StreamHandler ∧ r.2 = []).
Proof.
  intros socket_ok r. subst r socket_ok. unfold AuditLogger.init_audit_logger.
  destruct use_syslog,
    (AuditLogger.path_exists os "/dev/log" && AuditLogger.writable os "/dev/log"),
    (AuditLogger.syslog_raises os "/dev/log") as [e|],
    (AuditLogger.file_raises os filename) as [e'|]; cbn;
    eexists; (split; [reflexivity|]); (split; [reflexivity|]);
    repeat split; try done; intuition (discriminate || congruence).
Qed.

(** X16: the message printed when the rotating file handler cannot be
    made names the handler that is kept, which at that point is always the
    stream handler: the line reads [Failed to initialize StreamHandler,
    falling back to stream handler:], never [TimedRotatingFileHandler]. The
    only other line the function prints is the one for a failed syslog
    handler. *)
Theorem X16_audit_file_failure_message {V} (os : AuditLogger.surroundings)
    (filename : string) (use_syslog : bool) (lg : AuditLogger.logger V)
    (line : string) :
  line ∈ (AuditLogger.init_audit_logger os filename use_syslog lg).2 →
  (∃ e, AuditLogger.syslog_raises os "/dev/log" = Some e ∧
        line = "Failed to initialize syslog logger, falling back to default audit log handler: "
               +:+ e) ∨
  (∃ e, AuditLogger.file_raises os filename = Some e ∧
        line = "Failed to initialize StreamHandler, falling back to stream handler: "
               +:+ e).
Proof.
  unfold AuditLogger.init_audit_logger.
  destruct use_syslog,
    (AuditLogger.path_exists os "/dev/log" && AuditLogger.writable os "/dev/log"),
    (AuditLogger.syslog_raises os "/dev/log") as [e|],
    (AuditLogger.file_raises os filename) as [e'|]; cbn;
    rewrite ?elem_of_cons, ?elem_of_nil; intuition (subst; eauto).
Qed.

Lemma X16_witness :
  let os := AuditLogger.Surroundings (λ _, true) (λ _, true)
              (λ _, Some "no syslog") (λ _, Some "read-only") in
  let line := "Failed to initialize StreamHandler, falling back to stream handler: read-only" in
  (∃ e, AuditLogger.syslog_raises os "/dev/log" = Some e ∧
        line = "Failed to initialize syslog logger, falling back to default audit log handler: "
               +:+ e) ∨
  (∃ e, AuditLogger.file_raises os "audit.log" = Some e ∧
        line = "Failed to initialize StreamHandler, falling back to stream handler: "
               +:+ e).
Proof.
  intros os line.
  apply (X16_audit_file_failure_message (V := nat) os "audit.log" true
           (AuditLogger.Logger [] None []) line).
  vm_compute. right. left.
Defined.

Lemma dict_get_set {V} (k k' : string) (v : V) (d : list (string * V)) :
  AuditLogger.dict_get k (AuditLogger.dict_set k' v d) =
  if decide (k' = k) then Some v else AuditLogger.dict_get k d.
Proof.
  induction d as [|[k0 v0] d IH]; cbn.
  - by destruct (decide (k' = k)).
  - destruct (decide (k0 = k')) as [->|Hne]; cbn.
    + by destruct (decide (k' = k)).
    + destruct (decide (k0 = k)) as [->|]; [|done].
      by rewrite decide_False by congruence.
Qed.

Lemma dict_set_keys {V} (k : string) (v : V) (d : list (string * V)) :
  (AuditLogger.dict_set k v d).*1 =
  if decide (k ∈ d.*1) then d.*1 else (d.*1 ++ [k])%list.
Proof.
  induction d as [|[k0 v0] d IH]; cbn.
  - rewrite decide_False; [done|]. by intros ?%elem_of_nil.
  - destruct (decide (k0 = k)) as [->|Hne]; cbn.
    + rewrite decide_True; [done|]. by left.
    + rewrite IH. destruct (decide (k ∈ d.*1)) as [Hin|Hnin].
      * rewrite decide_True; [done|]. by right.
      * rewrite decide_False; [done|].
        intros [?|?]%elem_of_cons; [congruence|done].
Qed.

Lemma dict_get_None {V} (k : string) (d : list (string * V)) :
  k ∉ d.*1 → AuditLogger.dict_get k d = None.
Proof.
  induction d as [|[k0 v0] d IH]; cbn; [done|]. intros Hk.
  rewrite decide_False;
    [apply IH; intros ?; apply Hk; by right | intros ->; apply Hk; by left].
Qed.

Lemma dict_get_elem {V} (k : string) (v : V) (d : list (string * V)) :
  NoDup d.*1 → (k, v) ∈ d → AuditLogger.dict_get k d = Some v.
Proof.
  induction d as [|[k0 v0] d IH]; cbn; [by intros _ ?%elem_of_nil|].
  intros [Hk0 Hnd]%NoDup_cons [[= -> ->]|Hin]%elem_of_cons.
  - by rewrite decide_True.
  - rewrite decide_False; [by apply IH|]. intros ->. apply Hk0.
    by apply (list_elem_of_fmap_2 fst _ (k, v)).
Qed.

(** The entry built by the dict display [{..., **kwargs}]: what a key
    maps to, and the order of the keys. *)
Lemma dict_update_get {V} (k : string) (d kwargs : list (string * V)) :
  NoDup kwargs.*1 →
  AuditLogger.dict_get k
    (foldl (λ d kv, AuditLogger.dict_set kv.1 kv.2 d) d kwargs) =
  match AuditLogger.dict_get k kwargs with
  | Some v => Some v
  | None => AuditLogger.dict_get k d
  end.
Proof.
  revert d. induction kwargs as [|[k0 v0] kwargs IH]; intros d; cbn; [done|].
  intros [Hk0 Hnd]%NoDup_cons. rewrite IH by done. rewrite dict_get_set. cbn.
  destruct (decide (k0 = k)) as [->|]; [|done].
  by rewrite dict_get_None.
Qed.

Lemma filter_agree (P1 P2 : string → Prop) `{∀ k, Decision (P1 k)}
    `{∀ k, Decision (P2 k)} (l : list string) :
  (∀ k, k ∈ l → P1 k ↔ P2 k) → filter P1 l = filter P2 l.
Proof.
  induction l as [|k l IH]; intros Hl; [done|]. rewrite !filter_cons.
  rewrite IH by (intros k' ?; apply Hl; by right).
  destruct (decide (P1 k)) as [H1|H1], (decide (P2 k)) as [H2|H2]; try done;
    exfalso; apply (Hl k (list_elem_of_here _ _)) in H1 || apply H1;
    by try apply (Hl k (list_elem_of_here _ _)).
Qed.

Lemma dict_update_keys {V} (d kwargs : list (string * V)) :
  NoDup kwargs.*1 →
  (foldl (λ d kv, AuditLogger.dict_set kv.1 kv.2 d) d kwargs).*1 =
  (d.*1 ++ filter (λ k, k ∉ d.*1) kwargs.*1)%list.
Proof.
  revert d. induction kwargs as [|[k0 v0] kwargs IH]; intros d.
  - intros _. cbn. by rewrite app_nil_r.
  - rewrite fmap_cons, NoDup_cons. cbn [foldl fst snd]. intros [Hk0 Hnd].
    rewrite IH by done. rewrite dict_set_keys, filter_cons.
    destruct (decide (k0 ∈ d.*1)) as [Hin|Hnin].
    + by rewrite decide_False by (intros Hn; by apply Hn).
    + rewrite decide_True by done. rewrite <-app_assoc. cbn [app]. do 2 f_equal.
      apply filter_agree. intros k Hk. rewrite elem_of_app, list_elem_of_singleton.
      split; [intros Hn ?; apply Hn; by left|].
      intros Hn [?|Heq]; [done|]. by subst.
Qed.

(** X17: [audit_event(event, **kwargs)] hands [logger.info] one entry and
    changes nothing else of the logger. In the entry, ["event"] maps to the
    event; ["timestamp"] maps to the time of the call unless [kwargs] has a
    [timestamp] of its own, which then replaces it; every item of [kwargs] is
    in the entry; and the keys come in the order ["event"], ["timestamp"],
    then the other keys of [kwargs] in their order. ([kwargs] cannot hold
    the key ["event"]: that is the name of the first parameter.) *)
Theorem X17_audit_event_entry {V} (timestamp event : V)
    (kwargs : list (string * V)) (lg : AuditLogger.logger V) :
  NoDup kwargs.*1 → "event" ∉ kwargs.*1 →
  let lg' := AuditLogger.audit_event timestamp event kwargs lg in
  ∃ entry,
    AuditLogger.entries lg' = (AuditLogger.entries lg ++ [entry])%list ∧
    AuditLogger.handlers lg' = AuditLogger.handlers lg ∧
    AuditLogger.level lg' = AuditLogger.level lg ∧
    AuditLogger.dict_get "event" entry = Some event ∧
    AuditLogger.dict_get "timestamp" entry =
      Some (default timestamp (AuditLogger.dict_get "timestamp" kwargs)) ∧
    (∀ k v, (k, v) ∈ kwargs → AuditLogger.dict_get k entry = Some v) ∧
    entry.*1 = "event" :: "timestamp" :: filter (λ k, k ≠ "timestamp") kwargs.*1.
Proof.
  intros Hnd Hev lg'. eexists. split; [reflexivity|].
  split_and!; [done|done| | | |].
  - rewrite dict_update_get by done. by rewrite dict_get_None.
  - rewrite dict_update_get by done.
    by destruct (AuditLogger.dict_get "timestamp" kwargs).
  - intros k v Hin. rewrite dict_update_get by done.
    by rewrite (dict_get_elem k v).
  - rewrite dict_update_keys by done. cbn [fmap list_fmap fst app]. do 2 f_equal.
    apply filter_agree. intros k Hk. rewrite !elem_of_cons, elem_of_nil.
    split; [intros Hn Heq; apply Hn; right; by left|].
    intros Hn [Heq|[Heq|[]]]; [|done]. subst. by apply Hev.
Qed.

Lemma X17_witness :
  let kwargs := [("key", "g:1"); ("timestamp", "then"); ("user", "alice")] in
  let lg := AuditLogger.Logger [] None [] in
  let lg' := AuditLogger.audit_event "now" "group.session.set" kwargs lg in
  ∃ entry,
    AuditLogger.entries lg' = (AuditLogger.entries lg ++ [entry])%list ∧
    AuditLogger.handlers lg' = AuditLogger.handlers lg ∧
    AuditLogger.level lg' = AuditLogger.level lg ∧
    AuditLogger.dict_get "event" entry = Some "group.session.set" ∧
    AuditLogger.dict_get "timestamp" entry =
      Some (default "now" (AuditLogger.dict_get "timestamp" kwargs)) ∧
    (∀ k v, (k, v) ∈ kwargs → AuditLogger.dict_get k entry = Some v) ∧
    entry.*1 = "event" :: "timestamp" :: filter (λ k, k ≠ "timestamp") kwargs.*1.
Proof.
  intros kwargs lg.
  apply (X17_audit_event_entry "now" "group.session.set" kwargs lg).
  - compute_done.
  - compute_done.
Defined.

Lemma lstrip_all (P : ascii → bool) (l : list ascii) :
  forallb P l = true → SQLiteInit.lstrip P l = [].
Proof.
  induction l as [|c l IH]; [done|]. cbn. intros [-> ?]%andb_true_iff. auto.
Qed.

Lemma forallb_reverse (P : ascii → bool) (l : list ascii) :
  forallb P (reverse l) = forallb P l.
Proof.
  induction l as [|c l IH]; [done|]. rewrite reverse_cons, forallb_app, IH.
  cbn. rewrite andb_true_r. apply andb_comm.
Qed.

(** A path without a slash has the empty directory name. *)
Lemma dirname_no_slash (p : string) :
  forallb (λ c, negb (SQLiteInit.is_slash c)) (list_ascii_of_string p) = true →
  SQLiteInit.dirname p = "".
Proof.
  intros Hp. unfold SQLiteInit.dirname.
  rewrite lstrip_all by by rewrite forallb_reverse. done.
Qed.

(** X18: [SQLiteBackend.__init__] leaves the file system alone for
    [":memory:"] and for a path whose directory exists. For any other path
    it asks [os.makedirs] for the directory of the path, and for a bare file
    name (no slash in it) that directory is the empty string: the constructor
    then fails with whatever [os.makedirs("")] raises. *)
Theorem X18_sqlite_init_and_the_directory (fs : SQLiteInit.file_system)
    (db_path : string) (timeout : Q) :
  db_path ≠ "" →
  let r := SQLiteInit.__init__ fs db_path timeout in
  (db_path = ":memory:" ∨
   SQLiteInit.isdir fs (SQLiteInit.dirname db_path) = true →
   r = (inl (SQLite.Self db_path timeout ∅ ∅), [])) ∧
  (db_path ≠ ":memory:" →
   SQLiteInit.isdir fs (SQLiteInit.dirname db_path) = false →
   r.2 = [SQLiteInit.dirname db_path] ∧
   (∀ e, SQLiteInit.makedirs fs (SQLiteInit.dirname db_path) = Some e →
         r.1 = inr e)) ∧
  (forallb (λ c, negb (SQLiteInit.is_slash c)) (list_ascii_of_string db_path)
     = true →
   SQLiteInit.dirname db_path = "").
Proof.
  intros Hne r. subst r. unfold SQLiteInit.__init__.
  rewrite decide_False by done. split_and!.
  - intros [-> | ->]; [done|]. by rewrite andb_false_r.
  - intros Hm ->. rewrite bool_decide_true by done. cbn.
    destruct (SQLiteInit.makedirs fs _) as [e|]; cbn; (split; [done|]);
      by intros e' [= <-].
  - apply dirname_no_slash.
Qed.

Lemma X18_witness :
  let fs := SQLiteInit.FileSystem (λ _, false) (λ p, p)
              (λ d, if decide (d = "") then Some "FileNotFoundError" else None) in
  let r := SQLiteInit.__init__ fs "groups.db" 60 in
  ("groups.db" = ":memory:" ∨
   SQLiteInit.isdir fs (SQLiteInit.dirname "groups.db") = true →
   r = (inl (SQLite.Self "groups.db" 60 ∅ ∅), [])) ∧
  ("groups.db" ≠ ":memory:" →
   SQLiteInit.isdir fs (SQLiteInit.dirname "groups.db") = false →
   r.2 = [SQLiteInit.dirname "groups.db"] ∧
   (∀ e, SQLiteInit.makedirs fs (SQLiteInit.dirname "groups.db") = Some e →
         r.1 = inr e)) ∧
  (forallb (λ c, negb (SQLiteInit.is_slash c)) (list_ascii_of_string "groups.db")
     = true →
   SQLiteInit.dirname "groups.db" = "").
Proof.
  intros fs.
  apply (X18_sqlite_init_and_the_directory fs "groups.db" 60). discriminate.
Defined.

(** X19: the PostgreSQL backend refuses a key with a NUL character. Every
    operation on such a key (other than a [setex] whose ttl does not convert
    to a float, which raises before) raises [ValueError] out of
    [cur.execute], with the table as it was; [_put_conn] is not reached, so
    the connection the call took from the pool stays checked out, and
    open. *)
Theorem X19_postgresql_nul_key_is_refused (E : Engine) (F : Fnmatch) (cl : call)
    (k : string) (s : PostgreSQL.state) :
  PostgreSQLInv.wf s → PostgreSQLInv.is_open s →
  key_of (what cl) = Some k → no_nul k = false → overflows (what cl) = false →
  ∃ c s' p rest,
    @postgresql_call E F cl s = (Raise ValueError, s') ∧
    PostgreSQL.pool_attr s.1 = Some p ∧
    s'.1 = PostgreSQL.set_pool
             (Some (PostgreSQL.Pool (PostgreSQL.minconn p) (PostgreSQL.maxconn p)
                      rest [c] false)) s.1 ∧
    db s'.2 = db s.2 ∧ clock s'.2 = clock s.2 ∧ c ∈ live s'.2.
Proof.
  intros [Hp _] Hopen Hk Hnul Hfl.
  destruct (postgresql_call_nul E F cl k s Hp Hopen Hk Hnul)
    as (c & s' & p & rest & Hrun & H).
  rewrite Hfl in Hrun. by exists c, s', p, rest.
Qed.

Lemma X19_witness :
  let cl := Call 0 0 (OpDelete nul_key) in
  let s := postgresql_on {["k" := Row [] None]} 0 in
  ∃ c s' p rest,
    @postgresql_call listing_engine Glob.glob cl s = (Raise ValueError, s') ∧
    PostgreSQL.pool_attr s.1 = Some p ∧
    s'.1 = PostgreSQL.set_pool
             (Some (PostgreSQL.Pool (PostgreSQL.minconn p) (PostgreSQL.maxconn p)
                      rest [c] false)) s.1 ∧
    db s'.2 = db s.2 ∧ clock s'.2 = clock s.2 ∧ c ∈ live s'.2.
Proof.
  intros cl s.
  apply (X19_postgresql_nul_key_is_refused listing_engine Glob.glob cl nul_key s);
    [ apply PostgreSQLFacts.postgresql_on_wf; text_keys
    | apply PostgreSQLFacts.postgresql_on_open
    | reflexivity | reflexivity | reflexivity ].
Defined.

(** With a negative idle timeout, the [_get_conn] of a [delete] closes the
    connection the thread has cached and opens another. *)
Lemma delete_evicts (tid c : nat) (key : string) (s : SQLite.state) :
  SQLiteInv.wf s → SQLite.local_conn s.1 !! tid = Some c →
  SQLite.local_last_used s.1 !! tid = Some (clock s.2) →
  (SQLite.idle_timeout s.1 < 0)%Q →
  ∃ s', SQLite.delete tid key s = (Return tt, s') ∧ c ∉ live s'.2.
Proof.
  intros [Hl _] Hc Hts Hidle. destruct (Hl _ _ Hc) as (_ & Hlt & _).
  assert (SQLiteConn.stale tid s = true) as Hstale.
  { apply stale_true. unfold SQLiteConn.last_used. rewrite Hts. cbn.
    lra. }
  unfold SQLite.delete.
  rewrite (bind_return _ _ _ _ _
    (SQLiteConnFacts._get_conn_open tid s
       (or_intror (ex_intro _ c (conj Hc Hstale))))).
  destruct s as [b [t now l f]]. cbn in *. rewrite Hc. cbn.
  unfold bind, SQLite.commit, SQLite.execute, conn_execute. cbn.
  rewrite decide_True by (by apply elem_of_union_l, elem_of_singleton).
  destruct (SQL.session_delete key t) as [[] t']. cbn.
  rewrite decide_True by (by apply elem_of_union_l, elem_of_singleton).
  eexists. split; [done|]. cbn.
  intros [Hf%elem_of_singleton|[_ Hn]%elem_of_difference]%elem_of_union; [lia|].
  by apply Hn, elem_of_singleton.
Qed.

(** The loop of [keys] under a negative idle timeout: the first expired
    row costs the loop its cursor. *)
Lemma keys_loop_evicted (F : Fnmatch) (tid c : nat) (pattern : string)
    (rows : list (string * option Q)) (result : list string) (s : SQLite.state) :
  SQLiteInv.wf s → SQLite.local_conn s.1 !! tid = Some c →
  SQLite.local_last_used s.1 !! tid = Some (clock s.2) →
  (SQLite.idle_timeout s.1 < 0)%Q →
  Exists (λ kr, expired (clock s.2) kr.2 = true) rows →
  (SQLite.keys_loop tid c pattern (clock s.2) rows result s).1
    = Raise ProgrammingError.
Proof.
  intros Hwf Hc Hts Hidle. revert result.
  induction rows as [|[key e] rows IH]; intros result Hex.
  - by apply Exists_nil in Hex.
  - cbn [SQLite.keys_loop].
    rewrite (bind_return _ _ tt s s)
      by (apply SQLiteFacts.cursor_next_live; by destruct (proj1 Hwf _ _ Hc)).
    destruct (expired (clock s.2) e) eqn:He.
    + destruct (delete_evicts tid c key s Hwf Hc Hts Hidle) as (s' & Hd & Hgone).
      rewrite (bind_return _ _ tt s s') by done.
      destruct rows as [|[key' e'] rows']; cbn [SQLite.keys_loop];
        by rewrite (bind_raise _ _ ProgrammingError s' s')
          by by apply SQLiteFacts.cursor_next_closed.
    + apply Exists_cons in Hex as [Hex|Hex]; [cbn in Hex; congruence|].
      destruct (fnmatch key pattern); by apply IH.
Qed.



End further.
